(** * IronBee: the Traffic Server body filter and the rules module

    A shallow embedding of

    - [src/servers/trafficserver/ts_filter.c]: [qcompare], [flush_data],
      [buffer_data_chunk], [buffer_init], [process_data] and [data_event];
    - [src/modules/rules.c]: [parse_operator], [parse_inputs],
      [parse_modifier], [call_in_critical_section], [ib_lua_func_eval_r],
      [lua_operator_execute], [rules_ruleext_params], [rules_rule_params]
      and [rules_init];
    - [src/engine/engine_manager_log.c]: [manager_logger_format];

    followed by the properties of the specification that concern them.

    Conventions.  Counters ([off_t], [size_t], [int64_t]) are integers of [Z];
    they are 64 bits wide in the C code, where their sums wrap, and no
    wrap-around is written for them here: the model is the code on contexts
    whose offsets stay below 2^63.  [TsFilterFacts.counters_fit] states that
    bound, and the theorems that say what a flush returns for every edit
    list take it as a hypothesis.  The one narrowing conversion of the
    source, the [int] returned by [qcompare], is modelled with its
    wrap-around.  A Traffic Server buffer read through a
    reader is the list of the bytes not consumed yet.  A C string is the list
    of its characters before the terminating NUL. *)

From Stdlib Require Import Ascii String Strings.Byte.
From Stdlib Require Import ZArith List Lia Bool Permutation Sorted.
Import ListNotations.
Local Open Scope Z_scope.

(** ** Status codes

    The codes of [ironbee/types.h] that the two files return. *)
Inductive ib_status_t : Set :=
  | IB_OK
  | IB_ENOENT
  | IB_EINVAL
  | IB_EALLOC
  | IB_EUNKNOWN
  | IB_EAGAIN
  | IB_EBADVAL.

Definition ib_status_eqb (a b : ib_status_t) : bool :=
  match a, b with
  | IB_OK, IB_OK | IB_ENOENT, IB_ENOENT | IB_EINVAL, IB_EINVAL
  | IB_EALLOC, IB_EALLOC | IB_EUNKNOWN, IB_EUNKNOWN
  | IB_EAGAIN, IB_EAGAIN | IB_EBADVAL, IB_EBADVAL => true
  | _, _ => false
  end.

(** ** Outcomes of a C call

    [Done a]: the call returned [a].  [AssertFail]: an [assert] of the source
    failed (the process is aborted; built with NDEBUG the same loops spin for
    ever, the byte count never decreasing).  [OutOfFuel]: the model's loop
    bound was too small; the lemmas [copy_to_edit_fuel] and [copy_rest_fuel]
    show that the bounds used by [flush_data] never are. *)
Inductive run (A : Type) : Type :=
  | Done (a : A)
  | AssertFail
  | OutOfFuel.
Arguments Done {A} a.
Arguments AssertFail {A}.
Arguments OutOfFuel {A}.

Definition run_bind {A B : Type} (m : run A) (k : A -> run B) : run B :=
  match m with
  | Done a => k a
  | AssertFail => AssertFail
  | OutOfFuel => OutOfFuel
  end.

Notation "x <- m ;; k" := (run_bind m (fun x => k))
  (at level 61, m at next level, right associativity).
Notation "' pat <- m ;; k" := (run_bind m (fun x => match x with pat => k end))
  (at level 61, pat pattern, m at next level, right associativity).

(** ** A stable sort

    One function that meets the contract of the C library's [qsort]: insertion
    sort, which keeps elements that compare equal in their input order (as the
    merge sort of glibc's [qsort] does). *)
Fixpoint insert_sorted {A : Type} (cmp : A -> A -> Z) (x : A) (l : list A) : list A :=
  match l with
  | [] => [x]
  | y :: l' => if cmp x y <=? 0 then x :: l else y :: insert_sorted cmp x l'
  end.

Fixpoint stable_qsort {A : Type} (cmp : A -> A -> Z) (l : list A) : list A :=
  match l with
  | [] => []
  | x :: l' => insert_sorted cmp x (stable_qsort cmp l')
  end.

Module TsFilter.

(** *** Data *)

(** [edit_t] of [ts_ib.h]: replace [bytes] bytes at stream offset [start] by
    [repl].  The C struct holds a pointer and [repl_len]; here the replacement
    is the list of its [repl_len] bytes. *)
Record edit_t : Type := mk_edit {
  start : Z;
  bytes : Z;
  repl : list byte
}.

Definition repl_len (e : edit_t) : Z := Z.of_nat (length (repl e)).

Inductive iobuf_mode : Set :=
  | IOBUF_NOBUF
  | IOBUF_DISCARD
  | IOBUF_BUFFER_ALL
  | IOBUF_BUFFER_FLUSHALL
  | IOBUF_BUFFER_FLUSHPART.

Definition iobuf_mode_eqb (a b : iobuf_mode) : bool :=
  match a, b with
  | IOBUF_NOBUF, IOBUF_NOBUF | IOBUF_DISCARD, IOBUF_DISCARD
  | IOBUF_BUFFER_ALL, IOBUF_BUFFER_ALL
  | IOBUF_BUFFER_FLUSHALL, IOBUF_BUFFER_FLUSHALL
  | IOBUF_BUFFER_FLUSHPART, IOBUF_BUFFER_FLUSHPART => true
  | _, _ => false
  end.

(** The output write-intent: the byte count it was told and how often it was
    re-enabled. *)
Record TSVIO : Type := mk_vio {
  vio_nbytes : Z;
  vio_reenabled : nat
}.

(** [tsib_filter_ctx] of [ts_ib.h], the fields [ts_filter.c] uses.
    [output_buffer] is everything written to the output buffer so far;
    [reader] is what [fctx->reader] still sees of [fctx->buffer].
    [applied] is ghost state, absent from the C struct: the edits [flush_data]
    has applied, oldest first. *)
Record tsib_filter_ctx : Type := mk_fctx {
  output_vio : TSVIO;
  output_buffer : list byte;
  buffering : iobuf_mode;
  buf_limit : Z;
  reader : list byte;
  buffered : Z;
  edits : list edit_t;
  offs : Z;
  bytes_done : Z;
  applied : list edit_t
}.

(** *** The transport calls *)

Definition TSIOBufferReaderAvail (r : list byte) : Z := Z.of_nat (length r).

(** [TSIOBufferCopy(dst, reader, length, 0)]: appends to [dst] the first
    [length] bytes the reader sees, or all of them when there are fewer;
    returns the number copied and leaves the reader where it is. *)
Definition TSIOBufferCopy (dst r : list byte) (len : Z) : Z * list byte :=
  let n := Z.min len (TSIOBufferReaderAvail r) in
  (n, dst ++ firstn (Z.to_nat n) r).

Definition TSIOBufferReaderConsume (r : list byte) (n : Z) : list byte :=
  skipn (Z.to_nat n) r.

Definition TSIOBufferWrite (dst data : list byte) : Z * list byte :=
  (Z.of_nat (length data), dst ++ data).

(** *** qcompare *)

(** Conversion of a 64-bit difference to [int]. *)
Definition int_of_Z (z : Z) : Z := (z + 2 ^ 31) mod 2 ^ 32 - 2 ^ 31.

(** [return ((edit_t* )b)->start - ((edit_t* )a)->start;] *)
Definition qcompare (a b : edit_t) : Z := int_of_Z (start b - start a).

(** *** flush_data *)

(** [fctx->edits->len -= sizeof(edit_t)]: the array loses its last element. *)
Definition pop_edit (f : tsib_filter_ctx) : tsib_filter_ctx :=
  mk_fctx (output_vio f) (output_buffer f) (buffering f) (buf_limit f)
          (reader f) (buffered f) (removelast (edits f)) (offs f)
          (bytes_done f) (applied f).

Definition set_edits (f : tsib_filter_ctx) (es : list edit_t) : tsib_filter_ctx :=
  mk_fctx (output_vio f) (output_buffer f) (buffering f) (buf_limit f)
          (reader f) (buffered f) es (offs f) (bytes_done f) (applied f).

(** One turn of either copy loop, after its [assert]:
[[
    TSIOBufferReaderConsume(fctx->reader, n);
    fctx->buffered -= n;
    fctx->bytes_done += n;
]]
    with [out] the output buffer as [TSIOBufferCopy] left it. *)
Definition copied (f : tsib_filter_ctx) (out : list byte) (n : Z) : tsib_filter_ctx :=
  mk_fctx (output_vio f) out (buffering f) (buf_limit f)
          (TSIOBufferReaderConsume (reader f) n) (buffered f - n) (edits f)
          (offs f) (bytes_done f + n) (applied f).

(** Lines 133-141: [while (start > 0) { ... }], which also decrements
    [nbytes]. *)
Fixpoint copy_to_edit (fuel : nat) (f : tsib_filter_ctx) (nbytes start_ : Z)
  : run (tsib_filter_ctx * Z) :=
  if 0 <? start_ then
    match fuel with
    | O => OutOfFuel
    | S fuel' =>
        let (n, out) := TSIOBufferCopy (output_buffer f) (reader f) start_ in
        if 0 <? n
        then copy_to_edit fuel' (copied f out n) (nbytes - n) (start_ - n)
        else AssertFail
    end
  else Done (f, nbytes).

(** Lines 164-171: [while (nbytes > 0) { ... }]. *)
Fixpoint copy_rest (fuel : nat) (f : tsib_filter_ctx) (nbytes : Z)
  : run tsib_filter_ctx :=
  if 0 <? nbytes then
    match fuel with
    | O => OutOfFuel
    | S fuel' =>
        let (n, out) := TSIOBufferCopy (output_buffer f) (reader f) nbytes in
        if 0 <? n
        then copy_rest fuel' (copied f out n) (nbytes - n)
        else AssertFail
    end
  else Done f.

(** Every turn of a copy loop that passes its [assert] consumes a byte of the
    reader, so one more than the reader holds bounds the turns. *)
Definition copy_fuel (f : tsib_filter_ctx) : nat := S (length (reader f)).

(** Lines 143-157, after the copy up to the start of the edit: discard what is
    deleted, write the replacement, record the change of size and drop the
    edit from the array.  The counters are updated in [Z], as the 64-bit
    counters of the C code are while they stay below 2^63. *)
Definition splice (f : tsib_filter_ctx) (edit : edit_t) : tsib_filter_ctx :=
  let (_, out) := TSIOBufferWrite (output_buffer f) (repl edit) in
  mk_fctx (output_vio f) out (buffering f) (buf_limit f)
          (TSIOBufferReaderConsume (reader f) (bytes edit))
          (buffered f - bytes edit)
          (removelast (edits f))
          (offs f + (repl_len edit - bytes edit))
          (bytes_done f + bytes edit)
          (applied f ++ [edit]).

(** The body of [for (i = nedits-1; i >= 0; --i)], lines 92-158.  [todo] lists
    the array elements of index [i], [i-1], ..., [0]; the result carries the
    context, [nbytes] and [rc] as the loop leaves them.  The sums of the two
    range tests are formed in [Z]; the C code forms them in 64 bits, which
    is the same as long as they stay below 2^63
    ([TsFilterFacts.counters_fit]). *)
Fixpoint edit_loop (todo : list edit_t) (f : tsib_filter_ctx) (nbytes : Z)
    (rc : ib_status_t) (last : bool) : run (tsib_filter_ctx * Z * ib_status_t) :=
  match todo with
  | [] => Done (f, nbytes, rc)
  | edit :: todo' =>
      if start edit <? bytes_done f then
        edit_loop todo' (pop_edit f) nbytes IB_EBADVAL last
      else if bytes_done f + nbytes <? start edit + bytes edit then
        if negb last
        then Done (f, start edit - bytes_done f, IB_EAGAIN)
        else edit_loop todo' (pop_edit f) nbytes IB_EBADVAL last
      else
        '(f1, nbytes1) <- copy_to_edit (copy_fuel f) f nbytes
                                       (start edit - bytes_done f) ;;
        edit_loop todo' (splice f1 edit) (nbytes1 - bytes edit) rc last
  end.

(** [TSVIONBytesSet] and [TSVIOReenable] on the output write-intent. *)
Definition finish (f : tsib_filter_ctx) (last : bool) : tsib_filter_ctx :=
  let nb := if last then bytes_done f + offs f else vio_nbytes (output_vio f) in
  mk_fctx (mk_vio nb (S (vio_reenabled (output_vio f))))
          (output_buffer f) (buffering f) (buf_limit f) (reader f) (buffered f)
          (edits f) (offs f) (bytes_done f) (applied f).

Inductive TSEvent : Set :=
  | TS_EVENT_VCONN_WRITE_READY
  | TS_EVENT_VCONN_WRITE_COMPLETE
  | TS_EVENT_ERROR.

(** What [process_data] reads and writes for one direction of a transaction:
    the filter context ([ibd->data]), the input write-intent (its byte count
    and how much of it is done), the blocks its reader holds, the error log
    of the transaction, and the events sent to the continuation of the input
    write-intent. *)
Record tsib_txn_ctx : Type := mk_txn {
  fctx : tsib_filter_ctx;
  input_nbytes : Z;
  input_ndone : Z;
  input_reader : list (list byte);
  tx_log : list string;
  upstream : list TSEvent
}.

Section WithQsort.

(** The C library's [qsort], applied to the array of edits with a comparison
    function. *)
Variable qsort : (edit_t -> edit_t -> Z) -> list edit_t -> list edit_t.

Definition flush_data (f : tsib_filter_ctx) (nbytes : Z) (last : bool)
  : run (ib_status_t * tsib_filter_ctx) :=
  let nbytes := if nbytes =? -1 then buffered f else nbytes in
  '(f1, nbytes1, rc) <-
     match edits f with
     | [] => Done (f, nbytes, IB_OK)
     | _ :: _ =>
         let f0 := set_edits f (qsort qcompare (edits f)) in
         edit_loop (rev (edits f0)) f0 nbytes IB_OK last
     end ;;
  f2 <- copy_rest (copy_fuel f1) f1 nbytes1 ;;
  Done (rc, finish f2 last).

(** *** buffer_data_chunk *)

Definition discard_buffered (f : tsib_filter_ctx) : tsib_filter_ctx :=
  if 0 <? buffered f
  then mk_fctx (output_vio f) (output_buffer f) (buffering f) (buf_limit f)
               (TSIOBufferReaderConsume (reader f) (buffered f)) 0 (edits f)
               (offs f) (bytes_done f) (applied f)
  else f.

(** [copied = TSIOBufferCopy(fctx->buffer, reader, nbytes, 0);
     fctx->buffered += copied;] *)
Definition buffer_chunk (f : tsib_filter_ctx) (input : list byte) (nbytes : Z)
  : tsib_filter_ctx :=
  let (n, buf) := TSIOBufferCopy (reader f) input nbytes in
  mk_fctx (output_vio f) (output_buffer f) (buffering f) (buf_limit f)
          buf (buffered f + n) (edits f) (offs f) (bytes_done f) (applied f).

Definition buffer_data_chunk (f : tsib_filter_ctx) (input : list byte) (nbytes : Z)
  : run (ib_status_t * tsib_filter_ctx) :=
  if iobuf_mode_eqb (buffering f) IOBUF_DISCARD then
    Done (IB_OK, discard_buffered f)
  else
    '(rc, f1) <-
       (if iobuf_mode_eqb (buffering f) IOBUF_BUFFER_FLUSHALL
           && (buf_limit f <? buffered f + nbytes)
        then flush_data f (-1) false
        else Done (IB_OK, f)) ;;
    let f2 := buffer_chunk f1 input nbytes in
    if iobuf_mode_eqb (buffering f2) IOBUF_NOBUF then
      flush_data f2 (-1) false
    else if iobuf_mode_eqb (buffering f2) IOBUF_BUFFER_FLUSHPART
            && (buf_limit f2 <? buffered f2)
    then flush_data f2 (buffered f2 - buf_limit f2) false
    else Done (rc, f2).

(** *** process_data

    The data path of [process_data] for a filter context whose buffers exist
    ([fctx->output_buffer != NULL]); the two branches that create the buffers
    and choose the mode (lines 347-363 and 368-397) come with
    [process_data_call] below, and of the log only the error messages are
    kept. *)

(** [ibd->ibd->ib_notify_body]: the engine sees the raw bytes of a block; the
    rules it runs may add edits to the list.  It returns a status and the list
    as it then stands. *)
Variable ib_notify_body : list byte -> list edit_t -> ib_status_t * list edit_t.

Definition set_fctx (t : tsib_txn_ctx) (f : tsib_filter_ctx) : tsib_txn_ctx :=
  mk_txn f (input_nbytes t) (input_ndone t) (input_reader t) (tx_log t)
         (upstream t).

Definition log_error_tx (t : tsib_txn_ctx) (msg : string) : tsib_txn_ctx :=
  mk_txn (fctx t) (input_nbytes t) (input_ndone t) (input_reader t)
         (tx_log t ++ [msg]) (upstream t).

Definition TSContCall (t : tsib_txn_ctx) (ev : TSEvent) : tsib_txn_ctx :=
  mk_txn (fctx t) (input_nbytes t) (input_ndone t) (input_reader t) (tx_log t)
         (upstream t ++ [ev]).

Definition TSVIONTodoGet (t : tsib_txn_ctx) : Z := input_nbytes t - input_ndone t.

(** Lines 336-345: the [switch] after the flush of the null-input branch. *)
Definition log_flush_status (t : tsib_txn_ctx) (rc : ib_status_t) : tsib_txn_ctx :=
  match rc with
  | IB_OK => t
  | IB_EBADVAL => log_error_tx t "Bad/Inconsistent stream edit(s) ignored."
  | _ => log_error_tx t "Unhandled return value %d"
  end.

(** Lines 425-435: the [switch] after [buffer_data_chunk]. *)
Definition log_chunk_status (t : tsib_txn_ctx) (rc : ib_status_t) : tsib_txn_ctx :=
  match rc with
  | IB_EAGAIN | IB_OK => t
  | IB_EBADVAL => log_error_tx t "Bad/Inconsistent stream edit(s) ignored."
  | _ => log_error_tx t "Unhandled return value %d"
  end.

(** Lines 436-437: the block is consumed and counted as done. *)
Definition consume_block (t : tsib_txn_ctx) (rest : list (list byte)) (nbytes : Z)
  : tsib_txn_ctx :=
  mk_txn (fctx t) (input_nbytes t) (input_ndone t + nbytes) rest (tx_log t)
         (upstream t).

(** Lines 417-438: [while (navail = TSIOBufferReaderAvail(input_reader),
    navail > 0)].  [blocks] are the blocks the input reader holds, each
    non-empty in Traffic Server; [nbytes] is the size of the first. *)
Fixpoint process_blocks (blocks : list (list byte)) (t : tsib_txn_ctx)
  : run tsib_txn_ctx :=
  match blocks with
  | [] => Done t
  | buf :: rest =>
      if 0 <? TSIOBufferReaderAvail (concat blocks) then
        let nbytes := Z.of_nat (length buf) in
        let (rc0, es) := ib_notify_body buf (edits (fctx t)) in
        let t1 := if ib_status_eqb rc0 IB_OK then t
                  else log_error_tx t "Error %d notifying body data." in
        '(rc, f) <- buffer_data_chunk (set_edits (fctx t1) es) (concat blocks) nbytes ;;
        let t2 := log_chunk_status (set_fctx t1 f) rc in
        process_blocks rest (consume_block t2 rest nbytes)
      else Done t
  end.

Definition set_discard (f : tsib_filter_ctx) : tsib_filter_ctx :=
  mk_fctx (output_vio f) (output_buffer f) IOBUF_DISCARD (buf_limit f)
          (reader f) (buffered f) (edits f) (offs f) (bytes_done f) (applied f).

(** [flush_data(fctx, -1, 1);] then the write-complete call back (lines
    406-411 and 444-449): the status of the flush is not looked at. *)
Definition final_flush (t : tsib_txn_ctx) : run tsib_txn_ctx :=
  '(_, f) <- flush_data (fctx t) (-1) true ;;
  Done (TSContCall (set_fctx t f) TS_EVENT_VCONN_WRITE_COMPLETE).

(** [http_code] is [HTTP_CODE(txndata->status)]; [in_buf_null] is
    [in_buf == NULL]. *)
Definition process_data (http_code in_buf_null : bool) (t : tsib_txn_ctx)
  : run tsib_txn_ctx :=
  let t := if http_code then set_fctx t (set_discard (fctx t)) else t in
  if in_buf_null then
    '(rc, f) <- flush_data (fctx t) (-1) true ;;
    Done (log_flush_status (set_fctx t f) rc)
  else if TSVIONTodoGet t =? 0 then
    final_flush t
  else
    t1 <- process_blocks (input_reader t) t ;;
    if TSVIONTodoGet t1 =? 0
    then final_flush t1
    else Done (TSContCall t1 TS_EVENT_VCONN_WRITE_READY).

End WithQsort.

(** *** buffer_init *)

(** The two directions of [ibd->ibd->dir]. *)
Inductive ib_server_direction_t : Set :=
  | IBD_REQ
  | IBD_RESP.

(** The fields of [ib_core_cfg_t] that [buffer_init] reads; the limits are
    signed. *)
Record ib_core_cfg_t : Type := mk_corecfg {
  buffer_req : Z;
  buffer_res : Z;
  request_body_buffer_limit : Z;
  request_body_buffer_limit_action : Z;
  response_body_buffer_limit : Z;
  response_body_buffer_limit_action : Z
}.

(** The cast [(size_t)], on a machine where [size_t] has 64 bits. *)
Definition size_t_of_Z (z : Z) : Z := z mod 2 ^ 64.

Definition set_buffering (f : tsib_filter_ctx) (mode : iobuf_mode)
  : tsib_filter_ctx :=
  mk_fctx (output_vio f) (output_buffer f) mode (buf_limit f)
          (reader f) (buffered f) (edits f) (offs f) (bytes_done f) (applied f).

Definition set_buf_limit (f : tsib_filter_ctx) (limit : Z) : tsib_filter_ctx :=
  mk_fctx (output_vio f) (output_buffer f) (buffering f) limit
          (reader f) (buffered f) (edits f) (offs f) (bytes_done f) (applied f).

Section Init.

(** The constants and the flag tests of the engine that [buffer_init] uses
    ([core.h], [engine_types.h], [util.h]). *)
Variable IB_BUFFER_LIMIT_ACTION_FLUSH_ALL : Z.
Variable IB_TX_FALLOW_ALL : Z.
Variable IB_TX_FALLOW_REQUEST : Z.
Variable IB_TX_FINSPECT_REQBODY : Z.
Variable IB_TX_FINSPECT_REQHDR : Z.
Variable IB_TX_FINSPECT_RESBODY : Z.
Variable IB_TX_FINSPECT_RESHDR : Z.
Variable ib_flags_any : Z -> Z -> bool.
Variable ib_flags_all : Z -> Z -> bool.

(** The nested conditional of lines 255-261 and 265-271, which is the same
    for the two directions: [buffer_on] is [buffer_req] or [buffer_res],
    [limit] and [action] are those of the request or of the response
    body. *)
Definition configured_mode (buffer_on limit action : Z) : iobuf_mode :=
  if buffer_on =? 0 then IOBUF_NOBUF
  else if limit <? 0 then IOBUF_BUFFER_ALL
  else if action =? IB_BUFFER_LIMIT_ACTION_FLUSH_ALL then IOBUF_BUFFER_FLUSHALL
  else IOBUF_BUFFER_FLUSHPART.

(** Lines 277-297: the flags of the transaction that switch buffering
    off. *)
Definition buffering_disabled (dir : ib_server_direction_t) (flags : Z) : bool :=
  match dir with
  | IBD_REQ =>
      ib_flags_any flags (Z.lor IB_TX_FALLOW_ALL IB_TX_FALLOW_REQUEST)
      || (negb (ib_flags_all flags IB_TX_FINSPECT_REQBODY)
          && negb (ib_flags_all flags IB_TX_FINSPECT_REQHDR))
  | IBD_RESP =>
      ib_flags_any flags IB_TX_FALLOW_ALL
      || (negb (ib_flags_all flags IB_TX_FINSPECT_RESBODY)
          && negb (ib_flags_all flags IB_TX_FINSPECT_RESHDR))
  end.

(** [tx] is [None] for a null transaction and holds [tx->flags] otherwise;
    [config] is what [ib_core_context_config] returns: its status and the
    configuration it found. *)
Definition buffer_init (dir : ib_server_direction_t) (tx : option Z)
    (config : ib_status_t * ib_core_cfg_t) (t : tsib_txn_ctx) : tsib_txn_ctx :=
  match tx with
  | None => set_fctx t (set_buffering (fctx t) IOBUF_NOBUF)
  | Some flags =>
      let (rc, corecfg) := config in
      let t1 :=
        if negb (ib_status_eqb rc IB_OK) then
          log_error_tx t "Error determining buffering configuration."
        else
          match dir with
          | IBD_REQ =>
              set_fctx t
                (set_buf_limit
                   (set_buffering (fctx t)
                      (configured_mode (buffer_req corecfg)
                         (request_body_buffer_limit corecfg)
                         (request_body_buffer_limit_action corecfg)))
                   (size_t_of_Z (request_body_buffer_limit corecfg)))
          | IBD_RESP =>
              set_fctx t
                (set_buf_limit
                   (set_buffering (fctx t)
                      (configured_mode (buffer_res corecfg)
                         (response_body_buffer_limit corecfg)
                         (response_body_buffer_limit_action corecfg)))
                   (size_t_of_Z (response_body_buffer_limit corecfg)))
          end in
      if negb (iobuf_mode_eqb (buffering (fctx t1)) IOBUF_NOBUF)
         && buffering_disabled dir flags
      then set_fctx t1 (set_buffering (fctx t1) IOBUF_NOBUF)
      else t1
  end.

(** *** process_data, from the first call on *)

Variable qsort : (edit_t -> edit_t -> Z) -> list edit_t -> list edit_t.
Variable ib_notify_body : list byte -> list edit_t -> ib_status_t * list edit_t.

(** Lines 378-391: the output buffer, the output write-intent of
    [output_vio_sz] bytes, and the filter's own buffer with its reader. *)
Definition create_buffers (f : tsib_filter_ctx) (output_vio_sz : Z)
  : tsib_filter_ctx :=
  mk_fctx (mk_vio output_vio_sz 0) [] (buffering f) (buf_limit f) []
          (buffered f) (edits f) (offs f) (bytes_done f) (applied f).

(** Lines 356-362: the output buffer alone, a write-intent of no bytes, and
    [TSVIOReenable]. *)
Definition create_empty_output (f : tsib_filter_ctx) : tsib_filter_ctx :=
  mk_fctx (mk_vio 0 1) [] (buffering f) (buf_limit f) (reader f)
          (buffered f) (edits f) (offs f) (bytes_done f) (applied f).

(** The whole of [process_data].  [created] is
    [fctx->output_buffer != NULL]; the result says whether it holds
    afterwards.  The other arguments are those of [process_data] and of
    [buffer_init] above. *)
Definition process_data_call (created : bool) (dir : ib_server_direction_t)
    (tx : option Z) (config : ib_status_t * ib_core_cfg_t)
    (http_code in_buf_null : bool) (t : tsib_txn_ctx)
  : run (bool * tsib_txn_ctx) :=
  let t := if http_code then set_fctx t (set_discard (fctx t)) else t in
  if in_buf_null then
    if created then
      '(rc, f) <- flush_data qsort (fctx t) (-1) true ;;
      Done (true, log_flush_status (set_fctx t f) rc)
    else Done (true, set_fctx t (create_empty_output (fctx t)))
  else
    let t :=
      if created then t
      else
        let t1 := set_fctx t (create_buffers (fctx t) (input_nbytes t)) in
        if negb http_code then buffer_init dir tx config t1 else t1 in
    if TSVIONTodoGet t =? 0 then
      t1 <- final_flush qsort t ;; Done (true, t1)
    else
      t1 <- process_blocks qsort ib_notify_body (input_reader t) t ;;
      if TSVIONTodoGet t1 =? 0
      then t2 <- final_flush qsort t1 ;; Done (true, t2)
      else Done (true, TSContCall t1 TS_EVENT_VCONN_WRITE_READY).

(** *** data_event *)

(** The event [data_event] is given: one of the three it tells apart, or
    any other. *)
Inductive received_event : Type :=
  | Event (e : TSEvent)
  | OtherEvent (code : Z).

(** The calls [data_event] makes itself on a write-complete event. *)
Inductive completion_call : Set :=
  | TSVConnShutdown
  | ib_notify_end_call
  | ib_notify_post_call
  | ib_notify_log_call.

(** The flags of [engine_types.h] read on a write-complete event, and the
    call backs of the direction [ibd->ibd]: each is given [tx->flags] and
    returns the flags as the engine leaves them; [ib_notify_post] and
    [ib_notify_log] may be null. *)
Variable IB_TX_FREQ_FINISHED : Z.
Variable IB_TX_FRES_FINISHED : Z.
Variable IB_TX_FPOSTPROCESS : Z.
Variable IB_TX_FLOGGING : Z.
Variable ib_notify_end : Z -> Z.
Variable ib_notify_post : option (Z -> Z).
Variable ib_notify_log : option (Z -> Z).

(** What a call of [data_event] leaves: the flags of the transaction, the
    calls made on a write-complete event, and the filter with the
    transaction context, as [process_data] returns them when it is
    called. *)
Record data_event_result : Type := mk_event_result {
  flags_after : Z;
  completion_calls : list completion_call;
  data_after : run (bool * tsib_txn_ctx)
}.

(** Lines 502-533. *)
Definition write_complete (dir : ib_server_direction_t) (flags : Z)
  : Z * list completion_call :=
  let finished :=
    match dir with
    | IBD_REQ => IB_TX_FREQ_FINISHED
    | IBD_RESP => IB_TX_FRES_FINISHED
    end in
  let (flags1, calls1) :=
    if negb (ib_flags_all flags finished)
    then (ib_notify_end flags, [TSVConnShutdown; ib_notify_end_call])
    else (flags, [TSVConnShutdown]) in
  let (flags2, calls2) :=
    match ib_notify_post with
    | Some notify =>
        if negb (ib_flags_all flags1 IB_TX_FPOSTPROCESS)
        then (notify flags1, calls1 ++ [ib_notify_post_call])
        else (flags1, calls1)
    | None => (flags1, calls1)
    end in
  match ib_notify_log with
  | Some notify =>
      if negb (ib_flags_all flags2 IB_TX_FLOGGING)
      then (notify flags2, calls2 ++ [ib_notify_log_call])
      else (flags2, calls2)
  | None => (flags2, calls2)
  end.

(** [closed] is [TSVConnClosedGet(contp)]; [flags] is [tx->flags] when the
    event arrives; the arguments after [dir] are those of
    [process_data_call]. *)
Definition data_event (closed : bool) (event : received_event)
    (dir : ib_server_direction_t) (flags : Z) (created : bool)
    (config : ib_status_t * ib_core_cfg_t) (http_code in_buf_null : bool)
    (t : tsib_txn_ctx) : data_event_result :=
  if closed then mk_event_result flags [] (Done (created, t))
  else
    match event with
    | Event TS_EVENT_ERROR =>
        mk_event_result flags []
          (Done (created, TSContCall t TS_EVENT_ERROR))
    | Event TS_EVENT_VCONN_WRITE_COMPLETE =>
        let (flags1, calls) := write_complete dir flags in
        mk_event_result flags1 calls (Done (created, t))
    | _ =>
        mk_event_result flags []
          (process_data_call created dir (Some flags) config http_code
             in_buf_null t)
    end.

End Init.

End TsFilter.

Module Rules.

(** *** C strings and [ctype.h] *)

Definition cstr : Type := list ascii.

Definition cstr_of (s : string) : cstr := list_ascii_of_string s.

(** [isblank] and [isspace] in the C locale. *)
Definition isblank (c : ascii) : bool :=
  (c =? " ")%char || (c =? "009")%char.

Definition isspace (c : ascii) : bool :=
  (c =? " ")%char || (c =? "009")%char || (c =? "010")%char
  || (c =? "011")%char || (c =? "012")%char || (c =? "013")%char.

(** *** parse_operator *)

(** How the loop of lines 114-127 ends: with a character that is neither a
    blank, the first ['!'] nor ['@'] ([IB_EINVAL]); at the end of the string
    ([at] still [NULL]); or at the first ['@'], with the characters after it
    and the flags gathered. *)
Inductive scan_result : Type :=
  | ScanInvalid
  | ScanNoAt
  | ScanAt (tail : cstr) (flags : Z).

(** Lines 143-171 on a copy that holds a space: [space] points at the first
    space; the arguments start at the first character from there on that is
    not white space. *)
Fixpoint skip_isspace (s : cstr) : cstr :=
  match s with
  | [] => []
  | c :: s' => if isspace c then skip_isspace s' else s
  end.

(** [strchr(copy, ' ')]: the characters before the first space, and the string
    from that space on when there is one. *)
Fixpoint strchr_space (s : cstr) : cstr * option cstr :=
  match s with
  | [] => ([], None)
  | c :: s' =>
      if (c =? " ")%char then ([], Some s)
      else let (op, sp) := strchr_space s' in (c :: op, sp)
  end.

(** Lines 160-164, on the argument string read from its last character:
    [while ((end > args) && ( *end == ' ')) { *end = '\0'; --end; }]. *)
Fixpoint trim_end (r : cstr) : cstr :=
  match r with
  | c :: ((_ :: _) as r') => if (c =? " ")%char then trim_end r' else r
  | _ => r
  end.

(** The operator name and its arguments, from the copy of what follows
    ['@']. *)
Definition split_operator (copy : cstr) : cstr * option cstr :=
  match strchr_space copy with
  | (op, None) => (op, None)
  | (op, Some space) =>
      let args := skip_isspace space in
      let args := rev (trim_end (rev args)) in
      (op, match args with [] => None | _ :: _ => Some args end)
  end.

(** *** strtok *)

Definition is_delim (c : ascii) : bool := (c =? "|")%char || (c =? ",")%char.

(** The tokens that [strtok(copy, "|,")] and the calls [strtok(NULL, "|,")]
    after it return, in order: the maximal runs of characters that are not
    delimiters.  [cur] is the token being read, last character first. *)
Fixpoint strtok_all (cur : cstr) (s : cstr) : list cstr :=
  match s with
  | [] => match cur with [] => [] | _ :: _ => [rev cur] end
  | c :: s' =>
      if is_delim c
      then match cur with
           | [] => strtok_all [] s'
           | _ :: _ => rev cur :: strtok_all [] s'
           end
      else strtok_all (c :: cur) s'
  end.

(** [strchr(copy, ':')]: the characters before the first colon, and the
    string from that colon on when there is one. *)
Fixpoint strchr_colon (s : cstr) : cstr * option cstr :=
  match s with
  | [] => ([], None)
  | c :: s' =>
      if (c =? ":")%char then ([], Some s)
      else let (name, rest) := strchr_colon s' in (c :: name, rest)
  end.

(** [tolower] in the C locale, and [strcasecmp(a, b) == 0]. *)
Definition tolower (c : ascii) : ascii :=
  let n := nat_of_ascii c in
  if ((65 <=? n) && (n <=? 90))%nat then ascii_of_nat (n + 32) else c.

Fixpoint strcasecmp_eq (a b : cstr) : bool :=
  match a, b with
  | [], [] => true
  | x :: a', y :: b' => (tolower x =? tolower y)%char && strcasecmp_eq a' b'
  | _, _ => false
  end.

(** [ib_rule_phase_t] of [rule_defs.h], without the sentinels. *)
Inductive ib_rule_phase_t : Set :=
  | PHASE_NONE
  | PHASE_REQUEST_HEADER
  | PHASE_REQUEST_BODY
  | PHASE_RESPONSE_HEADER
  | PHASE_RESPONSE_BODY
  | PHASE_POSTPROCESS.

Inductive ib_rule_action_t : Set :=
  | RULE_ACTION_TRUE
  | RULE_ACTION_FALSE.

(** [#define IB_RULE_FLAG_CHAIN (1 << 1)] *)
Definition IB_RULE_FLAG_CHAIN : Z := Z.shiftl 1 1.

Section Parser.

(** The engine's rule objects and operator instances, and the calls of the
    engine made by the parser ([rule_engine.h], [operator.h], [mpool.h];
    their code is not part of these files).  Each call returns its status
    and what it wrote through its out parameter. *)
Variable ib_rule_t : Type.
Variable ib_operator_inst_t : Type.
Variable IB_OPINST_FLAG_NONE : Z.
Variable IB_OPINST_FLAG_INVERT : Z.
Variable ib_mpool_strdup : cstr -> option cstr.
Variable ib_operator_inst_create :
  cstr -> option cstr -> Z -> ib_status_t * ib_operator_inst_t.
Variable ib_rule_set_operator :
  ib_rule_t -> ib_operator_inst_t -> ib_status_t * ib_rule_t.
Variable ib_rule_add_input : ib_rule_t -> cstr -> ib_status_t * ib_rule_t.

(** Lines 114-127. *)
Fixpoint scan_operator (cptr : cstr) (bang : bool) (flags : Z) : scan_result :=
  match cptr with
  | [] => ScanNoAt
  | c :: cptr' =>
      if negb bang && (c =? "!")%char then
        scan_operator cptr' true (Z.lor flags IB_OPINST_FLAG_INVERT)
      else if (c =? "@")%char then ScanAt cptr' flags
      else if negb (isblank c) then ScanInvalid
      else scan_operator cptr' bang flags
  end.

Definition parse_operator (rule : ib_rule_t) (str : cstr) : ib_status_t * ib_rule_t :=
  match scan_operator str false IB_OPINST_FLAG_NONE with
  | ScanInvalid => (IB_EINVAL, rule)
  | ScanNoAt => (IB_EINVAL, rule)
  | ScanAt tail flags =>
      if (length tail =? 0)%nat then (IB_EINVAL, rule)
      else
        match ib_mpool_strdup tail with
        | None => (IB_EALLOC, rule)
        | Some copy =>
            let (op, args) := split_operator copy in
            let (rc, operator) := ib_operator_inst_create op args flags in
            if negb (ib_status_eqb rc IB_OK) then (rc, rule)
            else ib_rule_set_operator rule operator
        end
  end.

(** *** parse_inputs *)

(** Lines 234-244: the loop over the tokens. *)
Fixpoint add_inputs (toks : list cstr) (rule : ib_rule_t) (rc : ib_status_t)
  : ib_status_t * ib_rule_t :=
  match toks with
  | [] => (rc, rule)
  | cur :: toks' =>
      let (rc1, rule1) := ib_rule_add_input rule cur in
      if negb (ib_status_eqb rc1 IB_OK) then (rc1, rule1)
      else add_inputs toks' rule1 rc1
  end.

Definition parse_inputs (rule : ib_rule_t) (input_str : cstr)
  : ib_status_t * ib_rule_t :=
  match skip_isspace input_str with
  | [] => (IB_EINVAL, rule)
  | (_ :: _) as input_str1 =>
      match ib_mpool_strdup input_str1 with
      | None => (IB_EALLOC, rule)
      | Some copy => add_inputs (strtok_all [] copy) rule IB_OK
      end
  end.

(** *** parse_modifier and the Rule directive *)

(** More of the engine: the rule phases of [rule_defs.h], the kind of an
    action, and the calls that build and register a rule. *)
Variable ib_action_inst_t : Type.
Variable IB_ACTINST_FLAG_NONE : Z.
Variable FLAG_OP_OR : Z.
Variable ib_rule_create : ib_status_t * ib_rule_t.
Variable ib_rule_set_id : ib_rule_t -> cstr -> ib_status_t * ib_rule_t.
Variable ib_rule_update_flags : ib_rule_t -> Z -> Z -> ib_status_t * ib_rule_t.
Variable ib_action_inst_create :
  cstr -> option cstr -> Z -> ib_status_t * ib_action_inst_t.
Variable ib_rule_add_action :
  ib_rule_t -> ib_action_inst_t -> ib_rule_action_t -> ib_status_t * ib_rule_t.
Variable ib_rule_register : ib_rule_t -> ib_rule_phase_t -> ib_status_t.

(** Lines 283-295: the name and the value of a modifier.  The colon splits
    the two only when something follows it. *)
Definition split_modifier (copy : cstr) : cstr * option cstr :=
  match strchr_colon copy with
  | (name, Some (_ :: ((_ :: _) as after))) =>
      (name, match skip_isspace after with
             | [] => None
             | (_ :: _) as value => Some value
             end)
  | _ => (copy, None)
  end.

(** Lines 310-331: the phase a tag names. *)
Definition phase_of_tag (value : cstr) : option ib_rule_phase_t :=
  if strcasecmp_eq value (cstr_of "REQUEST_HEADER") then Some PHASE_REQUEST_HEADER
  else if strcasecmp_eq value (cstr_of "REQUEST") then Some PHASE_REQUEST_BODY
  else if strcasecmp_eq value (cstr_of "RESPONSE_HEADER") then Some PHASE_RESPONSE_HEADER
  else if strcasecmp_eq value (cstr_of "RESPONSE") then Some PHASE_RESPONSE_BODY
  else if strcasecmp_eq value (cstr_of "POSTPROCESS") then Some PHASE_POSTPROCESS
  else if strcasecmp_eq value (cstr_of "NONE") then Some PHASE_NONE
  else None.

Definition parse_modifier (rule : ib_rule_t) (phase : ib_rule_phase_t)
    (modifier_str : cstr) : ib_status_t * ib_rule_t * ib_rule_phase_t :=
  match ib_mpool_strdup modifier_str with
  | None => (IB_EALLOC, rule, phase)
  | Some copy =>
      let (name, value) := split_modifier copy in
      if strcasecmp_eq name (cstr_of "id") then
        match value with
        | None => (IB_EINVAL, rule, phase)
        | Some v => (IB_OK, snd (ib_rule_set_id rule v), phase)
        end
      else if strcasecmp_eq name (cstr_of "phase") then
        match value with
        | None => (IB_EINVAL, rule, phase)
        | Some v =>
            match phase_of_tag v with
            | Some ph => (IB_OK, rule, ph)
            | None => (IB_EINVAL, rule, phase)
            end
        end
      else if strcasecmp_eq name (cstr_of "chain") then
        (IB_OK, snd (ib_rule_update_flags rule FLAG_OP_OR IB_RULE_FLAG_CHAIN), phase)
      else
        let (name1, atype) :=
          match name with
          | c :: name' =>
              if (c =? "!")%char then (name', RULE_ACTION_FALSE)
              else (name, RULE_ACTION_TRUE)
          | [] => (name, RULE_ACTION_TRUE)
          end in
        let (rc, action) :=
          ib_action_inst_create name1 value IB_ACTINST_FLAG_NONE in
        if ib_status_eqb rc IB_EINVAL then (IB_EINVAL, rule, phase)
        else if negb (ib_status_eqb rc IB_OK) then (rc, rule, phase)
        else
          let (rc1, rule1) := ib_rule_add_action rule action atype in
          (rc1, rule1, phase)
  end.

(** Lines 699-709: the loop over the modifiers. *)
Fixpoint parse_modifiers (mods : list cstr) (rule : ib_rule_t)
    (phase : ib_rule_phase_t) : ib_status_t * ib_rule_t * ib_rule_phase_t :=
  match mods with
  | [] => (IB_OK, rule, phase)
  | m :: mods' =>
      let '(rc, rule1, phase1) := parse_modifier rule phase m in
      if negb (ib_status_eqb rc IB_OK) then (rc, rule1, phase1)
      else parse_modifiers mods' rule1 phase1
  end.

(** Lines 691-719 of [rules_rule_params]: the operator, the modifiers and
    the registration, once the inputs are parsed.  Beside the status, the
    result holds the rule and the phase the engine registered, when it did. *)
Definition rule_after_inputs (rule : ib_rule_t) (op : cstr) (mods : list cstr)
  : ib_status_t * option (ib_rule_t * ib_rule_phase_t) :=
  let (rc, rule1) := parse_operator rule op in
  if negb (ib_status_eqb rc IB_OK) then (rc, None)
  else
    let '(rc1, rule2, phase) := parse_modifiers mods rule1 PHASE_NONE in
    if negb (ib_status_eqb rc1 IB_OK) then (rc1, None)
    else
      let rc2 := ib_rule_register rule2 phase in
      if negb (ib_status_eqb rc2 IB_OK) then (rc2, None)
      else (IB_OK, Some (rule2, phase)).

(** [rules_rule_params]: [vars] are the arguments of the directive, each a
    string. *)
Definition rules_rule_params (vars : list cstr)
  : ib_status_t * option (ib_rule_t * ib_rule_phase_t) :=
  match vars with
  | [] => (IB_EINVAL, None)
  | inputs :: [] => (IB_EINVAL, None)
  | inputs :: op :: mods =>
      let (rc, rule) := ib_rule_create in
      if negb (ib_status_eqb rc IB_OK) then (rc, None)
      else
        let (rc1, rule1) := parse_inputs rule inputs in
        if negb (ib_status_eqb rc1 IB_OK) then (rc1, None)
        else rule_after_inputs rule1 op mods
  end.

End Parser.

(** *** The script gate *)

Section Lua.

(** [world] is what the lock and the Lua states are made of: the lock
    [g_lua_lock], the root state [g_ironbee_rules_lua] and the threads made
    from it.  The calls below are those of [lock.h] and [rules_lua.h]. *)
Variable world : Type.
Variable lua_State : Type.
Variable ib_lock_lock : world -> ib_status_t * world.
Variable ib_lock_unlock : world -> ib_status_t * world.

(** [critical_section_fn_t]: from the world and the thread held in [*L], a
    status and the thread [*L] then holds. *)
Definition critical_section_fn_t : Type :=
  world -> option lua_State -> ib_status_t * option lua_State * world.

Variable ib_lua_new_thread : critical_section_fn_t.
Variable ib_lua_join_thread : critical_section_fn_t.

(** [ib_lua_func_eval_int(ib, tx, L, func_name, &result_int)]: a status and
    the value of [result_int] after the call. *)
Variable ib_lua_func_eval_int :
  world -> option lua_State -> cstr -> ib_status_t * Z * world.

(** The world together with the error log of the engine. *)
Definition engine : Type := (world * list string)%type.

Definition ib_log_error (e : engine) (msg : string) : engine :=
  (fst e, snd e ++ [msg]).

Definition call_in_critical_section (e : engine) (fn : critical_section_fn_t)
    (L : option lua_State) : ib_status_t * option lua_State * engine :=
  let (ib_rc, w1) := ib_lock_lock (fst e) in
  if negb (ib_status_eqb ib_rc IB_OK) then
    (ib_rc, L, ib_log_error (w1, snd e) "Failed to lock Lua context.")
  else
    let '(critical_rc, L1, w2) := fn w1 L in
    let (ib_rc1, w3) := ib_lock_unlock w2 in
    let e1 := if negb (ib_status_eqb critical_rc IB_OK)
              then ib_log_error (w3, snd e) "Critical call failed: %d"
              else (w3, snd e) in
    if negb (ib_status_eqb ib_rc1 IB_OK) then
      (ib_rc1, L1, ib_log_error e1 "Failed to unlock Lua context.")
    else (critical_rc, L1, e1).

(** [result] is the value [*result] holds when the function is entered; the
    second component returned is the value it holds on return. *)
Definition ib_lua_func_eval_r (e : engine) (func_name : cstr) (result : Z)
  : ib_status_t * Z * engine :=
  let '(ib_rc, L, e1) := call_in_critical_section e ib_lua_new_thread None in
  if negb (ib_status_eqb ib_rc IB_OK) then (ib_rc, result, e1)
  else
    let '(ib_rc1, result_int, w2) := ib_lua_func_eval_int (fst e1) L func_name in
    let e2 : engine := (w2, snd e1) in
    if negb (ib_status_eqb ib_rc1 IB_OK) then (ib_rc1, result_int, e2)
    else
      let '(ib_rc2, _, e3) := call_in_critical_section e2 ib_lua_join_thread L in
      (ib_rc2, result_int, e3).

Definition lua_operator_execute (e : engine) (data : cstr) (result : Z)
  : ib_status_t * Z * engine :=
  ib_lua_func_eval_r e data result.

End Lua.

(** *** The RuleExt directive *)

(** [strncasecmp(a, b, n) == 0]: the two strings agree, capital and small
    letters taken as the same, on their first [n] characters, or up to
    their end when they end before. *)
Fixpoint strncasecmp_eq (a b : cstr) (n : nat) : bool :=
  match n with
  | O => true
  | S n' =>
      match a, b with
      | [], [] => true
      | x :: a', y :: b' =>
          (tolower x =? tolower y)%char && strncasecmp_eq a' b' n'
      | _, _ => false
      end
  end.

(** [#define IB_RULE_FLAG_EXTERNAL (1 << 0)] *)
Definition IB_RULE_FLAG_EXTERNAL : Z := Z.shiftl 1 0.

Section RuleExt.

(** The rule objects and the calls of [parse_modifier] are those of the
    Rule directive.  [ib_engine_t] stands for what the directive changes in
    the engine beside the rule: the root Lua state, into which
    [ib_lua_load_func] loads a file under a name, and the table of
    operators.  [ib_rule_id] is null ([None]) for a rule without an id;
    [set_data] is the assignment to [op_inst->data]. *)
Variable ib_rule_t : Type.
Variable ib_operator_inst_t : Type.
Variable ib_action_inst_t : Type.
Variable ib_engine_t : Type.
Variable ib_mpool_strdup : cstr -> option cstr.
Variable IB_ACTINST_FLAG_NONE : Z.
Variable FLAG_OP_OR : Z.
Variable ib_rule_create : ib_status_t * ib_rule_t.
Variable ib_rule_set_id : ib_rule_t -> cstr -> ib_status_t * ib_rule_t.
Variable ib_rule_update_flags : ib_rule_t -> Z -> Z -> ib_status_t * ib_rule_t.
Variable ib_action_inst_create :
  cstr -> option cstr -> Z -> ib_status_t * ib_action_inst_t.
Variable ib_rule_add_action :
  ib_rule_t -> ib_action_inst_t -> ib_rule_action_t -> ib_status_t * ib_rule_t.
Variable ib_rule_id : ib_rule_t -> option cstr.
Variable ib_lua_load_func :
  ib_engine_t -> cstr -> option cstr -> ib_status_t * ib_engine_t.
Variable ib_operator_register : ib_engine_t -> cstr -> ib_status_t * ib_engine_t.
Variable ib_operator_inst_create_in :
  ib_engine_t -> cstr -> option cstr -> Z -> ib_status_t * ib_operator_inst_t.
Variable set_data : ib_operator_inst_t -> option cstr -> ib_operator_inst_t.
Variable ib_rule_set_operator :
  ib_rule_t -> ib_operator_inst_t -> ib_status_t * ib_rule_t.
Variable ib_rule_register : ib_rule_t -> ib_rule_phase_t -> ib_status_t.

(** Lines 563-615: the rule is a Lua rule.  The file is loaded under the id
    of the rule, an operator is registered under the whole file name and
    instantiated, and the id of the rule becomes the data of the
    instance. *)
Definition stage_lua_rule (ib : ib_engine_t) (file_name : cstr)
    (rule : ib_rule_t) : ib_status_t * ib_engine_t * ib_rule_t :=
  let (rc, ib1) := ib_lua_load_func ib (skipn 4 file_name) (ib_rule_id rule) in
  if negb (ib_status_eqb rc IB_OK) then (rc, ib1, rule)
  else
    let (rc1, ib2) := ib_operator_register ib1 file_name in
    if negb (ib_status_eqb rc1 IB_OK) then (rc1, ib2, rule)
    else
      let (rc2, op_inst) := ib_operator_inst_create_in ib2 file_name None 0 in
      if negb (ib_status_eqb rc2 IB_OK) then (rc2, ib2, rule)
      else
        let op_inst1 := set_data op_inst (ib_rule_id rule) in
        let (rc3, rule1) := ib_rule_set_operator rule op_inst1 in
        (rc3, ib2, rule1).

(** [rules_ruleext_params]: [file_name] is the data of the first element of
    [vars], null when it is [None]; [mods] are the elements after it.
    Beside the status, the result holds the engine and, when a rule was
    registered, that rule and its phase. *)
Definition rules_ruleext_params (ib : ib_engine_t) (file_name : option cstr)
    (mods : list cstr)
  : ib_status_t * ib_engine_t * option (ib_rule_t * ib_rule_phase_t) :=
  match file_name with
  | None => (IB_EINVAL, ib, None)
  | Some file_name =>
      let (rc, rule) := ib_rule_create in
      if negb (ib_status_eqb rc IB_OK) then (rc, ib, None)
      else
        let rule1 :=
          snd (ib_rule_update_flags rule FLAG_OP_OR IB_RULE_FLAG_EXTERNAL) in
        let '(rc1, rule2, phase) :=
          parse_modifiers ib_rule_t ib_mpool_strdup ib_action_inst_t
            IB_ACTINST_FLAG_NONE FLAG_OP_OR ib_rule_set_id ib_rule_update_flags
            ib_action_inst_create ib_rule_add_action mods rule1 PHASE_NONE in
        if negb (ib_status_eqb rc1 IB_OK) then (rc1, ib, None)
        else if strncasecmp_eq file_name (cstr_of "lua:") 4 then
          let '(rc2, ib1, rule3) := stage_lua_rule ib file_name rule2 in
          if negb (ib_status_eqb rc2 IB_OK) then (rc2, ib1, None)
          else
            let rc3 := ib_rule_register rule3 phase in
            if negb (ib_status_eqb rc3 IB_OK) then (rc3, ib1, None)
            else (IB_OK, ib1, Some (rule3, phase))
        else (IB_EINVAL, ib, None)
  end.

End RuleExt.

End Rules.

(** * rules.c: the start of the module *)

Module RulesInit.
Import Rules.

(** *** Character arrays *)

(** A [char] array of [cap] bytes that holds the C string [str]: the
    characters of [str], then a NUL. *)
Record cbuf : Type := mk_cbuf {
  cap : nat;
  str : cstr
}.

(** [malloc(n)], when it does not fail; the first write will be at the
    start of the array. *)
Definition malloc (n : nat) : cbuf := mk_cbuf n [].

(** [strcpy(dst + off, src)] for [off <= strlen(dst)]: [None] when the
    characters of [src] and the NUL do not all fall inside the array. *)
Definition strcpy_at (dst : cbuf) (off : nat) (src : cstr) : option cbuf :=
  let s := firstn off (str dst) ++ src in
  if (length s <? cap dst)%nat then Some (mk_cbuf (cap dst) s) else None.

Definition strcpy (dst : cbuf) (src : cstr) : option cbuf := strcpy_at dst 0 src.

Definition strcat (dst : cbuf) (src : cstr) : option cbuf :=
  strcpy_at dst (length (str dst)) src.

(** [snprintf(dst, size, fmt, ...)] where the format produces [out]: at most
    [size - 1] characters are written, then a NUL. *)
Definition snprintf (dst : cbuf) (size : nat) (out : cstr) : option cbuf :=
  if (0 <? size)%nat && (size <=? cap dst)%nat
  then Some (mk_cbuf (cap dst) (firstn (size - 1) out))
  else None.

Definition then_ {A B : Type} (m : option A) (k : A -> option B) : option B :=
  match m with
  | Some a => k a
  | None => None
  end.

(** *** rules_init *)

Definition ffi_file_name : cstr := cstr_of "ironbee-ffi.lua".

(** Lines 792-804, once [malloc] has returned the array: the three
    [strcpy]. *)
Definition build_ffi_file_path (module_base_path : cstr) : option cbuf :=
  let ffi_file_path :=
    malloc (length module_base_path + length ffi_file_name + 2) in
  then_ (strcpy ffi_file_path module_base_path) (fun p1 =>
  then_ (strcpy_at p1 (length (str p1)) (cstr_of "/")) (fun p2 =>
  strcpy_at p2 (length (str p2)) ffi_file_name)).

(** What the calls made by [rules_init] return: the status of
    [ib_lock_init], whether [m] is null, whether [luaL_newstate] and
    [malloc] return null, the status of [ib_context_module_config] with the
    [module_base_path] of the configuration it finds, and the statuses of
    [ib_lua_load_eval] on a path and of the two [ib_lua_require]. *)
Record init_calls : Type := mk_init_calls {
  lock_init : ib_status_t;
  m_null : bool;
  newstate_null : bool;
  module_config : ib_status_t * cstr;
  malloc_null : bool;
  load_eval : cstr -> ib_status_t;
  require_ironbee : ib_status_t;
  require_ffi : ib_status_t
}.

(** What [rules_init] has done when it returns: its status, the error log
    (with apostrophes where the messages have quotation marks), the path it
    gave to [ib_lua_load_eval] if it got there, and how often it called
    [clean_up_ipc_mem] itself. *)
Record init_result : Type := mk_init_result {
  init_status : ib_status_t;
  init_log : list string;
  loaded_path : option cstr;
  cleaned_up : nat
}.

(** [None] stands for a write outside the path array. *)
Definition rules_init (c : init_calls) : option init_result :=
  let log0 :=
    if negb (ib_status_eqb (lock_init c) IB_OK)
    then ["Failed to initialize lua global lock."%string] else [] in
  if m_null c then Some (mk_init_result IB_EINVAL log0 None 1)
  else if newstate_null c then
    Some (mk_init_result IB_EALLOC
            (log0 ++ ["Failed to create LuaJIT state."%string]) None 0)
  else
    let (ib_rc, module_base_path) := module_config c in
    if negb (ib_status_eqb ib_rc IB_OK) then
      Some (mk_init_result ib_rc
              (log0 ++ ["Could not retrieve core module configuration."%string])
              None 0)
    else if malloc_null c then Some (mk_init_result IB_EALLOC log0 None 1)
    else
      then_ (build_ffi_file_path module_base_path) (fun ffi_file_path =>
      let path := str ffi_file_path in
      let ib_rc1 := load_eval c path in
      if negb (ib_status_eqb ib_rc1 IB_OK) then
        Some (mk_init_result ib_rc1
                (log0 ++ ["Failed to eval '%s' for Lua rule execution."%string])
                (Some path) 1)
      else
        let ib_rc2 := require_ironbee c in
        if negb (ib_status_eqb ib_rc2 IB_OK) then
          Some (mk_init_result ib_rc2
                  (log0 ++ ["Failed to require '%s' for Lua rule execution."%string])
                  (Some path) 1)
        else
          let ib_rc3 := require_ffi c in
          if negb (ib_status_eqb ib_rc3 IB_OK) then
            Some (mk_init_result ib_rc3
                    (log0 ++ ["Failed to load FFI for Lua rule execution."%string])
                    (Some path) 1)
          else Some (mk_init_result IB_OK log0 (Some path) 0)).

End RulesInit.

(** * engine_manager_log.c: the format of a log record *)

Module ManagerLog.
Import Rules RulesInit.

(** [static const size_t fmt_pad_size = 128;] *)
Definition fmt_pad_size : nat := 128.

(** Lines 144-146:
    [while ((file != NULL) && (strncmp(file, "../", 3) == 0)) file += 3;] *)
Fixpoint skip_parent_dirs (file : cstr) : cstr :=
  match file with
  | c1 :: c2 :: c3 :: rest =>
      if (c1 =? ".")%char && (c2 =? ".")%char && (c3 =? "/")%char
      then skip_parent_dirs rest
      else file
  | _ => file
  end.

(** Lines 147-150: [if (flen > 23) file += (flen - 23);] *)
Definition last_23 (file : cstr) : cstr :=
  let flen := length file in
  if (23 <? flen)%nat then skipn (flen - 23) file else file.

(** What [%-Ns] and [%Ns] produce: the string, with spaces after it or
    before it up to [w] characters. *)
Definition pad_right (w : nat) (s : cstr) : cstr :=
  s ++ repeat " "%char (w - length s).

Definition pad_left (w : nat) (s : cstr) : cstr :=
  repeat " "%char (w - length s) ++ s.

(** The fields of [ib_logger_rec_t] that are read: [level_string] is
    [ib_log_level_to_string(rec->level)], [rec_tx] is [tx->id] when [rec->tx]
    is not null. *)
Record ib_logger_rec_t : Type := mk_logger_rec {
  rec_level : Z;
  level_string : cstr;
  rec_tx : option cstr;
  rec_file : option cstr;
  rec_line_number : Z
}.

(** What the calls made by [manager_logger_format] return: the status of
    [ib_manager_engine_acquire], the levels of the two loggers, and whether
    the two [malloc] return null. *)
Record format_calls : Type := mk_format_calls {
  engine_acquire : ib_status_t;
  manager_level : Z;
  engine_level : Z;
  record_null : bool;
  msg_null : bool
}.

Record ib_manager_logger_record_t : Type := mk_logger_record {
  msg : cstr;
  msg_sz : nat;
  level : Z
}.

Section Format.
Variable IB_LOG_DEBUG : Z.

(** The characters [%d] produces for an [int]. *)
Variable decimal : Z -> cstr.

(** Lines 125-131: [char line_info[64]], then [strcpy] and two [strcat]. *)
Definition tx_line_info (id : cstr) : option cbuf :=
  then_ (strcpy (mk_cbuf 64 []) (cstr_of "[tx:")) (fun l1 =>
  then_ (strcat l1 id) (fun l2 =>
  strcat l2 (cstr_of "] "))).

(** Lines 139-157: [char line_info[35]] and
    [snprintf(line_info, 35, "(%23s:%-5d) ", file, (int)rec->line_number)]. *)
Definition file_line_info (file : cstr) (line_number : Z) : option cbuf :=
  let file1 := last_23 (skip_parent_dirs file) in
  snprintf (mk_cbuf 35 []) 35
    ("("%char :: pad_left 23 file1
       ++ ":"%char :: pad_right 5 (decimal (TsFilter.int_of_Z line_number))
       ++ cstr_of ") ").

(** [None] stands for a write outside an array; otherwise the result is the
    status returned and the record stored through [writer_record], if one
    was.  [msg_in] is the C string at [msg], [msg_in_sz] is [msg_sz]. *)
Definition manager_logger_format (c : format_calls) (rec : ib_logger_rec_t)
    (msg_in : cstr) (msg_in_sz : nat)
  : option (ib_status_t * option ib_manager_logger_record_t) :=
  let rc := engine_acquire c in
  let logger_level :=
    if ib_status_eqb rc IB_ENOENT then Some (manager_level c)
    else if ib_status_eqb rc IB_OK then Some (engine_level c)
    else None in
  match logger_level with
  | None => Some (rc, None)
  | Some logger_level =>
      if record_null c then Some (IB_EALLOC, None)
      else if msg_null c then Some (rc, None)
      else
        let buffer_sz := (msg_in_sz + fmt_pad_size)%nat in
        then_ (snprintf (malloc (buffer_sz + 1)) buffer_sz
                 (pad_right 10 (level_string rec) ++ cstr_of "- ")) (fun m1 =>
        then_ (match rec_tx rec with
               | Some id =>
                   then_ (tx_line_info id) (fun line_info =>
                   strcat m1 (str line_info))
               | None => Some m1
               end) (fun m2 =>
        then_ (match rec_file rec with
               | Some file =>
                   if (0 <? rec_line_number rec)
                      && (IB_LOG_DEBUG <=? logger_level)
                   then then_ (file_line_info file (rec_line_number rec))
                          (fun line_info => strcat m2 (str line_info))
                   else Some m2
               | None => Some m2
               end) (fun m3 =>
        then_ (strcat m3 msg_in) (fun m4 =>
        Some (rc, Some (mk_logger_record (str m4) (length (str m4))
                                         (rec_level rec)))))))
  end.

End Format.

End ManagerLog.

(** * The contract of qsort, and a sort that meets it *)

Module QsortFacts.

Section Pairs.
Variable A : Type.

(** Every pair of a list taken in list order is related. *)
Fixpoint pairwise (R : A -> A -> Prop) (l : list A) : Prop :=
  match l with
  | [] => True
  | a :: l' => Forall (R a) l' /\ pairwise R l'
  end.

Lemma pairwise_app R l1 l2 :
  pairwise R (l1 ++ l2) <->
  pairwise R l1 /\ pairwise R l2 /\
  (forall a b, In a l1 -> In b l2 -> R a b).
Proof.
  induction l1 as [|x l1 IH]; simpl.
  - intuition.
  - rewrite Forall_app, IH. repeat rewrite Forall_forall.
    split.
    + intros [[H1 H2] (H3 & H4 & H5)]. repeat split; auto.
      intros a b [->|Ha] Hb; auto.
    + intros ([H1 H3] & H4 & H5). repeat split; auto.
Qed.

Lemma pairwise_rev R l :
  pairwise R l -> pairwise (fun a b => R b a) (rev l).
Proof.
  induction l as [|x l IH]; simpl; [auto|].
  intros [H1 H2]. apply pairwise_app. repeat split; simpl; auto.
  intros a b Ha [<-|[]]. rewrite Forall_forall in H1. apply H1.
  apply in_rev. exact Ha.
Qed.

Lemma pairwise_In_impl (R1 R2 : A -> A -> Prop) l :
  (forall a b, In a l -> In b l -> R1 a b -> R2 a b) ->
  pairwise R1 l -> pairwise R2 l.
Proof.
  induction l as [|x l IH]; simpl; [auto|].
  intros H [H1 H2]. split.
  - rewrite Forall_forall in *. intros b Hb. apply H; auto.
  - apply IH; auto.
Qed.

Lemma pairwise_and (R1 R2 : A -> A -> Prop) l :
  pairwise R1 l -> pairwise R2 l -> pairwise (fun a b => R1 a b /\ R2 a b) l.
Proof.
  induction l as [|x l IH]; simpl; [auto|].
  intros [H1 H2] [H3 H4]. split; [|auto].
  rewrite Forall_forall in *. auto.
Qed.

Lemma pairwise_perm (R : A -> A -> Prop) l l' :
  (forall a b, R a b -> R b a) ->
  Permutation l l' -> pairwise R l -> pairwise R l'.
Proof.
  intros Hsym Hp. induction Hp as [|x l l' Hp IH|x y l|l l' l'' Hp1 IH1 Hp2 IH2];
    simpl; auto.
  - intros [H1 H2]. split; [|auto]. eapply Permutation_Forall; eauto.
  - intros [H1 [H2 H3]]. inversion H1; subst. repeat split; auto.
Qed.

Lemma StronglySorted_pairwise (R : A -> A -> Prop) l :
  StronglySorted R l -> pairwise R l.
Proof. induction 1; simpl; auto. Qed.

End Pairs.

Arguments pairwise {A} R l.

(** *** The insertion sort *)

Section Sorts.
Variable A : Type.
Variable cmp : A -> A -> Z.

Lemma insert_sorted_perm x l : Permutation (insert_sorted cmp x l) (x :: l).
Proof.
  induction l as [|y l IH]; simpl; [reflexivity|].
  destruct (cmp x y <=? 0); [reflexivity|].
  rewrite IH. apply perm_swap.
Qed.

Lemma stable_qsort_perm l : Permutation (stable_qsort cmp l) l.
Proof.
  induction l as [|x l IH]; simpl; [reflexivity|].
  rewrite insert_sorted_perm. apply perm_skip, IH.
Qed.

(** On a list, [cmp] orders: it is transitive and total on its elements. *)
Definition orders (l : list A) : Prop :=
  (forall a b c, In a l -> In b l -> In c l ->
                 cmp a b <= 0 -> cmp b c <= 0 -> cmp a c <= 0) /\
  (forall a b, In a l -> In b l -> cmp a b <= 0 \/ cmp b a <= 0).

Lemma orders_tail x l : orders (x :: l) -> orders l.
Proof.
  intros [Ht Ho]. split.
  - intros a b c Ha Hb Hc. apply Ht; simpl; auto.
  - intros a b Ha Hb. apply Ho; simpl; auto.
Qed.

Lemma insert_sorted_sorted x l :
  orders (x :: l) ->
  StronglySorted (fun a b => cmp a b <= 0) l ->
  StronglySorted (fun a b => cmp a b <= 0) (insert_sorted cmp x l).
Proof.
  induction l as [|y l IH]; intros Hord Hs; simpl.
  - constructor; constructor.
  - inversion Hs as [|? ? Hs' Hy]; subst.
    destruct Hord as [Ht Ho].
    destruct (Z.leb_spec (cmp x y) 0) as [Hxy|Hxy].
    + constructor; [assumption|]. constructor; [assumption|].
      rewrite Forall_forall in *. intros z Hz.
      apply (Ht x y z); simpl; auto.
    + constructor.
      * apply IH; [|assumption]. split.
        -- intros a b c Ha Hb Hc. apply Ht; simpl in *; tauto.
        -- intros a b Ha Hb. apply Ho; simpl in *; tauto.
      * rewrite Forall_forall in *. intros z Hz.
        apply (Permutation_in _ (insert_sorted_perm x l)) in Hz.
        destruct Hz as [<-|Hz]; [|auto].
        destruct (Ho x y); simpl; auto. lia.
Qed.

Lemma orders_perm l l' : Permutation l l' -> orders l -> orders l'.
Proof.
  intros Hp [Ht Ho]. symmetry in Hp. split.
  - intros a b c Ha Hb Hc.
    apply Ht; eapply Permutation_in; eauto.
  - intros a b Ha Hb. apply Ho; eapply Permutation_in; eauto.
Qed.

Lemma stable_qsort_sorted l :
  orders l -> StronglySorted (fun a b => cmp a b <= 0) (stable_qsort cmp l).
Proof.
  induction l as [|x l IH]; intros Hord; simpl; [constructor|].
  apply insert_sorted_sorted.
  - eapply orders_perm; [|exact Hord].
    apply perm_skip. symmetry. apply stable_qsort_perm.
  - apply IH. eapply orders_tail; eauto.
Qed.

(** Stability: elements that [cmp] does not tell apart keep their input
    order. *)
Lemma insert_sorted_filter (p : A -> bool) x l :
  (forall y, p x = true -> p y = true -> cmp x y <= 0) ->
  filter p (insert_sorted cmp x l) = filter p (x :: l).
Proof.
  intros Hp. induction l as [|y l IH]; simpl; [reflexivity|].
  destruct (Z.leb_spec (cmp x y) 0) as [Hxy|Hxy]; [reflexivity|].
  simpl. rewrite IH. simpl.
  destruct (p x) eqn:Ex, (p y) eqn:Ey; try reflexivity.
  specialize (Hp y eq_refl Ey). lia.
Qed.

Lemma stable_qsort_filter (p : A -> bool) l :
  (forall x y, p x = true -> p y = true -> cmp x y <= 0) ->
  filter p (stable_qsort cmp l) = filter p l.
Proof.
  intros Hp. induction l as [|x l IH]; simpl; [reflexivity|].
  rewrite insert_sorted_filter by (intros; apply Hp; assumption).
  simpl. rewrite IH. reflexivity.
Qed.

End Sorts.

Arguments orders {A} cmp l.

End QsortFacts.

(** * Properties of the body filter *)

Module TsFilterFacts.
Import TsFilter.

Definition avail (f : tsib_filter_ctx) : Z := TSIOBufferReaderAvail (reader f).

(** The context after [n] bytes went from the reader to the output buffer. *)
Definition advance (f : tsib_filter_ctx) (n : Z) : tsib_filter_ctx :=
  copied f (output_buffer f ++ firstn (Z.to_nat n) (reader f)) n.

Lemma avail_nonneg f : 0 <= avail f.
Proof. unfold avail, TSIOBufferReaderAvail. lia. Qed.

Lemma advance_0 f : advance f 0 = f.
Proof.
  destruct f; unfold advance, copied, TSIOBufferReaderConsume; simpl.
  rewrite app_nil_r, Z.sub_0_r, Z.add_0_r. reflexivity.
Qed.

Lemma set_edits_same f : set_edits f (edits f) = f.
Proof. destruct f. reflexivity. Qed.

Lemma avail_advance f n :
  0 <= n <= avail f -> avail (advance f n) = avail f - n.
Proof.
  unfold avail, advance, copied, TSIOBufferReaderAvail, TSIOBufferReaderConsume.
  simpl. intros H. rewrite length_skipn. lia.
Qed.

Lemma copy_to_edit_S fuel f nb s :
  copy_to_edit (S fuel) f nb s =
  if 0 <? s then
    if 0 <? Z.min s (avail f)
    then copy_to_edit fuel (advance f (Z.min s (avail f)))
                      (nb - Z.min s (avail f)) (s - Z.min s (avail f))
    else AssertFail
  else Done (f, nb).
Proof. reflexivity. Qed.

Lemma copy_to_edit_stop fuel f nb s :
  s <= 0 -> copy_to_edit fuel f nb s = Done (f, nb).
Proof.
  intros H. destruct fuel; simpl; destruct (Z.ltb_spec 0 s); auto; lia.
Qed.

Lemma copy_rest_S fuel f nb :
  copy_rest (S fuel) f nb =
  if 0 <? nb then
    if 0 <? Z.min nb (avail f)
    then copy_rest fuel (advance f (Z.min nb (avail f))) (nb - Z.min nb (avail f))
    else AssertFail
  else Done f.
Proof. reflexivity. Qed.

Lemma copy_rest_nonpos fuel f nb : nb <= 0 -> copy_rest fuel f nb = Done f.
Proof.
  intros H. destruct fuel; simpl; destruct (Z.ltb_spec 0 nb); auto; lia.
Qed.

Lemma copy_to_edit_ok fuel f nb s :
  0 <= s <= avail f ->
  copy_to_edit (S fuel) f nb s = Done (advance f s, nb - s).
Proof.
  intros H. rewrite copy_to_edit_S.
  destruct (Z.ltb_spec 0 s) as [Hs|Hs].
  - rewrite Z.min_l by lia.
    destruct (Z.ltb_spec 0 s); [|lia].
    apply copy_to_edit_stop. lia.
  - assert (s = 0) by lia. subst s.
    rewrite advance_0, Z.sub_0_r. reflexivity.
Qed.

Lemma copy_rest_ok fuel f nb :
  0 <= nb <= avail f ->
  copy_rest (S fuel) f nb = Done (advance f nb).
Proof.
  intros H. rewrite copy_rest_S.
  destruct (Z.ltb_spec 0 nb) as [Hs|Hs].
  - rewrite Z.min_l by lia.
    destruct (Z.ltb_spec 0 nb); [|lia].
    apply copy_rest_nonpos. lia.
  - assert (nb = 0) by lia. subst nb.
    rewrite advance_0. reflexivity.
Qed.

Lemma copy_fuel_S f : 0 < avail f -> exists k, copy_fuel f = S (S k).
Proof.
  unfold copy_fuel, avail, TSIOBufferReaderAvail.
  destruct (length (reader f)); intros H; [simpl in H; lia|eauto].
Qed.

Lemma copy_to_edit_abort f nb s :
  avail f < s ->
  copy_to_edit (copy_fuel f) f nb s = AssertFail.
Proof.
  intros H. pose proof (avail_nonneg f) as Hn.
  destruct (Z.ltb_spec 0 (avail f)) as [Hp|Hp].
  - destruct (copy_fuel_S f Hp) as [k ->].
    rewrite copy_to_edit_S.
    destruct (Z.ltb_spec 0 s); [|lia].
    rewrite Z.min_r by lia.
    destruct (Z.ltb_spec 0 (avail f)); [|lia].
    rewrite copy_to_edit_S.
    destruct (Z.ltb_spec 0 (s - avail f)); [|lia].
    rewrite avail_advance by lia.
    rewrite Z.min_r by lia. rewrite Z.sub_diag. reflexivity.
  - unfold copy_fuel. rewrite copy_to_edit_S.
    destruct (Z.ltb_spec 0 s); [|lia].
    rewrite Z.min_r by lia.
    destruct (Z.ltb_spec 0 (avail f)); [lia|reflexivity].
Qed.

Lemma copy_rest_abort f nb :
  avail f < nb ->
  copy_rest (copy_fuel f) f nb = AssertFail.
Proof.
  intros H. pose proof (avail_nonneg f) as Hn.
  destruct (Z.ltb_spec 0 (avail f)) as [Hp|Hp].
  - destruct (copy_fuel_S f Hp) as [k ->].
    rewrite copy_rest_S.
    destruct (Z.ltb_spec 0 nb); [|lia].
    rewrite Z.min_r by lia.
    destruct (Z.ltb_spec 0 (avail f)); [|lia].
    rewrite copy_rest_S.
    destruct (Z.ltb_spec 0 (nb - avail f)); [|lia].
    rewrite avail_advance by lia.
    rewrite Z.min_r by lia. rewrite Z.sub_diag. reflexivity.
  - unfold copy_fuel. rewrite copy_rest_S.
    destruct (Z.ltb_spec 0 nb); [|lia].
    rewrite Z.min_r by lia.
    destruct (Z.ltb_spec 0 (avail f)); [lia|reflexivity].
Qed.

(** The loop bounds are never the reason a copy loop stops. *)
Lemma copy_to_edit_fuel f nb s :
  copy_to_edit (copy_fuel f) f nb s <> OutOfFuel.
Proof.
  destruct (Z_le_gt_dec s (avail f)) as [H|H].
  - destruct (Z_le_gt_dec 0 s) as [H0|H0].
    + unfold copy_fuel. rewrite copy_to_edit_ok by lia. discriminate.
    + rewrite copy_to_edit_stop by lia. discriminate.
  - rewrite copy_to_edit_abort by lia. discriminate.
Qed.

Lemma copy_rest_fuel f nb :
  copy_rest (copy_fuel f) f nb <> OutOfFuel.
Proof.
  destruct (Z_le_gt_dec nb (avail f)) as [H|H].
  - destruct (Z_le_gt_dec 0 nb) as [H0|H0].
    + unfold copy_fuel. rewrite copy_rest_ok by lia. discriminate.
    + rewrite copy_rest_nonpos by lia. discriminate.
  - rewrite copy_rest_abort by lia. discriminate.
Qed.

(** One turn of the loop over the edits, with the copy loop resolved. *)
Lemma edit_loop_cons e todo f nb rc last :
  edit_loop (e :: todo) f nb rc last =
  if start e <? bytes_done f then
    edit_loop todo (pop_edit f) nb IB_EBADVAL last
  else if bytes_done f + nb <? start e + bytes e then
    if negb last
    then Done (f, start e - bytes_done f, IB_EAGAIN)
    else edit_loop todo (pop_edit f) nb IB_EBADVAL last
  else if start e - bytes_done f <=? avail f then
    edit_loop todo (splice (advance f (start e - bytes_done f)) e)
              (nb - (start e - bytes_done f) - bytes e) rc last
  else AssertFail.
Proof.
  cbn [edit_loop].
  destruct (Z.ltb_spec (start e) (bytes_done f)) as [H1|H1]; [reflexivity|].
  destruct (Z.ltb_spec (bytes_done f + nb) (start e + bytes e)) as [H2|H2];
    [reflexivity|].
  destruct (Z.leb_spec (start e - bytes_done f) (avail f)) as [H3|H3].
  - unfold copy_fuel. rewrite copy_to_edit_ok by lia. reflexivity.
  - rewrite copy_to_edit_abort by lia. reflexivity.
Qed.

(** What a run of the loop does to the reader and the counters: [k] bytes
    were consumed, and nothing but the buffers, the edits and the counters
    changed. *)
Definition consumed (f f' : tsib_filter_ctx) (k : Z) : Prop :=
  reader f' = skipn (Z.to_nat k) (reader f) /\
  buffered f' = buffered f - k /\
  bytes_done f' = bytes_done f + k /\
  buffering f' = buffering f /\
  buf_limit f' = buf_limit f.

Lemma consumed_refl f : consumed f f 0.
Proof. unfold consumed. simpl. repeat split; lia. Qed.

Lemma consumed_avail f f' k :
  0 <= k <= avail f -> consumed f f' k -> avail f' = avail f - k.
Proof.
  unfold consumed, avail, TSIOBufferReaderAvail. intros Hk (Hr & _).
  rewrite Hr, length_skipn. lia.
Qed.

Lemma consumed_pop f : consumed f (pop_edit f) 0.
Proof. unfold consumed. simpl. repeat split; lia. Qed.

Lemma consumed_trans f1 f2 f3 k1 k2 :
  0 <= k1 -> 0 <= k2 ->
  consumed f1 f2 k1 -> consumed f2 f3 k2 -> consumed f1 f3 (k1 + k2).
Proof.
  unfold consumed.
  intros H1 H2 (Ha & Hb & Hc & Hd & He) (Ha' & Hb' & Hc' & Hd' & He').
  repeat split; try congruence; try lia.
  rewrite Ha', Ha, skipn_skipn. f_equal. lia.
Qed.

Lemma consumed_advance f n : 0 <= n -> consumed f (advance f n) n.
Proof.
  unfold consumed, advance, copied, TSIOBufferReaderConsume. simpl.
  intros; repeat split.
Qed.

Lemma consumed_splice f e : consumed f (splice f e) (bytes e).
Proof.
  unfold consumed, splice, TSIOBufferReaderConsume. simpl. repeat split.
Qed.

Definition edits_wf (es : list edit_t) : Prop :=
  Forall (fun e => 0 <= bytes e) es.

(** *** The range of the counters

    [flush_data] forms [edit->start + edit->bytes] and
    [fctx->bytes_done + nbytes] (line 106), takes [edit->bytes] from
    [buffered] and adds it to [bytes_done] (lines 145-147), and adds
    [edit->repl_len - edit->bytes] to [offs] (line 154), all in 64 bits.  None
    of these can wrap on a context where every edit ends below 2^63, the
    bytes done and buffered together stay below 2^63, and [offs] with all
    that the edits of the list can add to it or take from it stays within
    2^63. *)
Definition edit_fits (e : edit_t) : Prop :=
  0 <= start e /\ 0 <= bytes e /\ start e + bytes e < 2 ^ 63.

Definition sum_sizes (es : list edit_t) : Z :=
  fold_right (fun e acc => bytes e + repl_len e + acc) 0 es.

Definition counters_fit (f : tsib_filter_ctx) : Prop :=
  0 <= bytes_done f /\ 0 <= buffered f /\
  bytes_done f + buffered f < 2 ^ 63 /\
  Forall edit_fits (edits f) /\
  Z.abs (offs f) + sum_sizes (edits f) < 2 ^ 63.

Lemma counters_fit_wf f : counters_fit f -> edits_wf (edits f).
Proof.
  intros (_ & _ & _ & H & _). unfold edits_wf.
  eapply Forall_impl; [|exact H]. intros e (_ & He & _). exact He.
Qed.

(** The loop over the edits always returns when it is asked for no more than
    the reader holds.  Unless it broke off with [IB_EAGAIN], it has consumed
    [k] of the [nb] bytes and leaves [nb - k] to be copied. *)
Lemma edit_loop_run todo : forall f nb rc last,
  0 <= nb <= avail f -> edits_wf todo ->
  exists f' nb' rc' k,
    edit_loop todo f nb rc last = Done (f', nb', rc') /\
    0 <= k <= nb /\ consumed f f' k /\
    ((rc' = IB_EAGAIN /\ last = false) \/
     (nb' = nb - k /\ (rc' = rc \/ rc' = IB_EBADVAL))).
Proof.
  induction todo as [|e todo IH]; intros f nb rc last Hnb Hwf.
  - exists f, nb, rc, 0. simpl.
    split; [reflexivity|]. split; [lia|]. split; [apply consumed_refl|].
    right. split; [lia|auto].
  - inversion Hwf as [|? ? He Hwf']; subst.
    rewrite edit_loop_cons.
    assert (Hpop : forall lst, exists f' nb' rc' k,
      edit_loop todo (pop_edit f) nb IB_EBADVAL lst = Done (f', nb', rc') /\
      0 <= k <= nb /\ consumed f f' k /\
      ((rc' = IB_EAGAIN /\ lst = false) \/
       (nb' = nb - k /\ (rc' = rc \/ rc' = IB_EBADVAL)))).
    { intros lst.
      destruct (IH (pop_edit f) nb IB_EBADVAL lst Hnb Hwf')
        as (f' & nb' & rc' & k & Hrun & Hk & Hc & Hrc).
      exists f', nb', rc', k.
      split; [exact Hrun|]. split; [lia|]. split.
      - replace k with (0 + k) by lia.
        eapply consumed_trans; eauto using consumed_pop; lia.
      - destruct Hrc as [Hrc|[Hn [Hrc|Hrc]]]; auto. }
    destruct (Z.ltb_spec (start e) (bytes_done f)) as [H1|H1]; [apply Hpop|].
    destruct (Z.ltb_spec (bytes_done f + nb) (start e + bytes e)) as [H2|H2].
    { destruct last; simpl; [apply Hpop|].
      exists f, (start e - bytes_done f), IB_EAGAIN, 0.
      split; [reflexivity|]. split; [lia|]. split; [apply consumed_refl|].
      left; auto. }
    destruct (Z.leb_spec (start e - bytes_done f) (avail f)) as [H3|H3]; [|lia].
    set (s := start e - bytes_done f) in *.
    assert (Hs : 0 <= s) by (unfold s; lia).
    set (f1 := splice (advance f s) e).
    assert (Hc1 : consumed f f1 (s + bytes e)).
    { eapply consumed_trans; [lia|lia|apply consumed_advance; lia|].
      apply consumed_splice. }
    assert (Ha1 : avail f1 = avail f - (s + bytes e)).
    { eapply consumed_avail; [|exact Hc1]. unfold s. lia. }
    destruct (IH f1 (nb - s - bytes e) rc last) as
      (f' & nb' & rc' & k & Hrun & Hk & Hc & Hrc); [unfold s in *; lia|assumption|].
    exists f', nb', rc', (s + bytes e + k).
    split; [exact Hrun|]. split; [unfold s in *; lia|]. split.
    + eapply consumed_trans; eauto; lia.
    + destruct Hrc as [Hrc|[Hn Hrc]]; [left; exact Hrc|right].
      split; [lia|exact Hrc].
Qed.

(** *** The offset delta and the size of the output *)

Definition edit_delta (e : edit_t) : Z := repl_len e - bytes e.

Definition sum_delta (es : list edit_t) : Z :=
  fold_right (fun e acc => edit_delta e + acc) 0 es.

Definition emitted (f : tsib_filter_ctx) : Z :=
  Z.of_nat (length (output_buffer f)).

(** [offs] is the sum of the size changes of the edits applied so far, and
    the output buffer has received [bytes_done + offs] bytes. *)
Definition filter_inv (f : tsib_filter_ctx) : Prop :=
  offs f = sum_delta (applied f) /\ emitted f = bytes_done f + offs f.

(** A context to which nothing has happened yet. *)
Definition fresh_fctx (mode : iobuf_mode) (limit : Z) (es : list edit_t)
  : tsib_filter_ctx :=
  mk_fctx (mk_vio 0 0) [] mode limit [] 0 es 0 0 [].

Lemma sum_delta_app es1 es2 :
  sum_delta (es1 ++ es2) = sum_delta es1 + sum_delta es2.
Proof.
  induction es1 as [|e es1 IH]; simpl; [reflexivity|]. rewrite IH. lia.
Qed.

Lemma filter_inv_fresh mode limit es : filter_inv (fresh_fctx mode limit es).
Proof. split; reflexivity. Qed.

Lemma length_firstn_Z (A : Type) (l : list A) (n : Z) :
  0 <= n <= Z.of_nat (length l) ->
  Z.of_nat (length (firstn (Z.to_nat n) l)) = n.
Proof. intros H. rewrite length_firstn. lia. Qed.

Lemma filter_inv_advance f n :
  0 <= n <= avail f -> filter_inv f -> filter_inv (advance f n).
Proof.
  unfold filter_inv, emitted, advance, copied, avail, TSIOBufferReaderAvail.
  simpl. intros Hn [Ho He]. split; [exact Ho|].
  rewrite length_app, Nat2Z.inj_add, length_firstn_Z by lia. lia.
Qed.

Lemma filter_inv_splice f e : filter_inv f -> filter_inv (splice f e).
Proof.
  unfold filter_inv, emitted, splice, TSIOBufferWrite. simpl.
  intros [Ho He]. split.
  - rewrite sum_delta_app. simpl. unfold edit_delta. lia.
  - rewrite length_app, Nat2Z.inj_add. unfold repl_len. lia.
Qed.

Lemma filter_inv_pop f : filter_inv f -> filter_inv (pop_edit f).
Proof. unfold filter_inv, emitted. simpl. auto. Qed.

Lemma filter_inv_set_edits f es : filter_inv f -> filter_inv (set_edits f es).
Proof. unfold filter_inv, emitted. simpl. auto. Qed.

Lemma filter_inv_finish f last : filter_inv f -> filter_inv (finish f last).
Proof. unfold filter_inv, emitted. simpl. auto. Qed.

Lemma edit_loop_inv todo : forall f nb rc last f' nb' rc',
  edit_loop todo f nb rc last = Done (f', nb', rc') ->
  filter_inv f -> filter_inv f'.
Proof.
  induction todo as [|e todo IH]; intros f nb rc last f' nb' rc' Hrun Hinv.
  - simpl in Hrun. congruence.
  - rewrite edit_loop_cons in Hrun.
    destruct (Z.ltb_spec (start e) (bytes_done f)) as [H1|H1].
    { eapply IH; eauto using filter_inv_pop. }
    destruct (Z.ltb_spec (bytes_done f + nb) (start e + bytes e)) as [H2|H2].
    { destruct last; simpl in Hrun.
      - eapply IH; eauto using filter_inv_pop.
      - congruence. }
    destruct (Z.leb_spec (start e - bytes_done f) (avail f)) as [H3|H3];
      [|discriminate].
    eapply IH; [exact Hrun|].
    apply filter_inv_splice, filter_inv_advance; [lia|assumption].
Qed.

Lemma sum_sizes_perm es1 es2 :
  Permutation es1 es2 -> sum_sizes es1 = sum_sizes es2.
Proof.
  induction 1; simpl; lia.
Qed.

Lemma edit_loop_offs todo : forall f nb rc last f' nb' rc',
  edit_loop todo f nb rc last = Done (f', nb', rc') ->
  edits_wf todo ->
  Z.abs (offs f' - offs f) <= sum_sizes todo.
Proof.
  induction todo as [|e todo IH]; intros f nb rc last f' nb' rc' Hrun Hwf.
  - simpl in Hrun. inversion Hrun; subst. simpl. lia.
  - inversion Hwf as [|? ? He Hwf']; subst.
    assert (Hr : 0 <= repl_len e) by (unfold repl_len; lia).
    assert (Hs : 0 <= sum_sizes todo).
    { clear -Hwf'. induction todo as [|a l IHl]; simpl; [lia|].
      inversion Hwf'; subst. unfold repl_len. specialize (IHl H2). lia. }
    rewrite edit_loop_cons in Hrun.
    cbn [sum_sizes fold_right]. fold (sum_sizes todo).
    destruct (Z.ltb_spec (start e) (bytes_done f)) as [H1|H1].
    { pose proof (IH _ _ _ _ _ _ _ Hrun Hwf') as H.
      cbn [pop_edit offs] in H. lia. }
    destruct (Z.ltb_spec (bytes_done f + nb) (start e + bytes e)) as [H2|H2].
    { destruct last; simpl in Hrun.
      - pose proof (IH _ _ _ _ _ _ _ Hrun Hwf') as H.
        cbn [pop_edit offs] in H. lia.
      - inversion Hrun; subst. lia. }
    destruct (Z.leb_spec (start e - bytes_done f) (avail f)) as [H3|H3];
      [|discriminate].
    pose proof (IH _ _ _ _ _ _ _ Hrun Hwf') as H.
    change (offs (splice (advance f (start e - bytes_done f)) e))
      with (offs f + (repl_len e - bytes e)) in H.
    lia.
Qed.

Lemma copy_rest_Done f nb f' :
  copy_rest (copy_fuel f) f nb = Done f' ->
  (nb <= 0 /\ f' = f) \/ (0 < nb <= avail f /\ f' = advance f nb).
Proof.
  intros H.
  destruct (Z_le_gt_dec nb 0) as [H0|H0].
  - rewrite copy_rest_nonpos in H by lia. left. split; congruence.
  - destruct (Z_le_gt_dec nb (avail f)) as [H1|H1].
    + unfold copy_fuel in H. rewrite copy_rest_ok in H by lia.
      right. split; [lia|congruence].
    + rewrite copy_rest_abort in H by lia. discriminate.
Qed.

Lemma copy_rest_inv f nb f' :
  copy_rest (copy_fuel f) f nb = Done f' -> filter_inv f -> filter_inv f'.
Proof.
  intros H Hinv. apply copy_rest_Done in H.
  destruct H as [[_ ->]|[Hn ->]]; [assumption|].
  apply filter_inv_advance; [lia|assumption].
Qed.

Section Flush.
Variable qsort : (edit_t -> edit_t -> Z) -> list edit_t -> list edit_t.

(** The steps of [flush_data], for the proofs that follow it through. *)
Lemma flush_data_Done f nbytes last rc f' :
  flush_data qsort f nbytes last = Done (rc, f') ->
  exists f1 nb1 f2,
    match edits f with
    | [] => Done (f, (if nbytes =? -1 then buffered f else nbytes), IB_OK)
    | _ :: _ =>
        edit_loop (rev (qsort qcompare (edits f)))
                  (set_edits f (qsort qcompare (edits f)))
                  (if nbytes =? -1 then buffered f else nbytes) IB_OK last
    end = Done (f1, nb1, rc) /\
    copy_rest (copy_fuel f1) f1 nb1 = Done f2 /\
    f' = finish f2 last.
Proof.
  unfold flush_data. intros H.
  match type of H with
  | run_bind ?m _ = _ => destruct m as [[[f1 nb1] rc1]| |] eqn:E1
  end; cbn [run_bind] in H; try discriminate.
  destruct (copy_rest (copy_fuel f1) f1 nb1) as [f2| |] eqn:E2;
    cbn [run_bind] in H; try discriminate.
  inversion H; subst. exists f1, nb1, f2.
  split; [|split; [exact E2|reflexivity]].
  destruct (edits f); exact E1.
Qed.

Lemma consumed_finish f f' k last :
  consumed f f' k -> consumed f (finish f' last) k.
Proof. unfold consumed. simpl. auto. Qed.

Lemma consumed_set_edits f es : consumed f (set_edits f es) 0.
Proof. unfold consumed. simpl. repeat split; lia. Qed.

(** The byte count [flush_data] works with: [-1] stands for all that is
    buffered. *)
Definition requested (f : tsib_filter_ctx) (nbytes : Z) : Z :=
  if nbytes =? -1 then buffered f else nbytes.

(** With an empty edit list a flush moves the bytes it was asked for, as they
    are. *)
Lemma flush_data_no_edits f nbytes last :
  edits f = [] ->
  0 <= requested f nbytes <= avail f ->
  flush_data qsort f nbytes last =
  Done (IB_OK, finish (advance f (requested f nbytes)) last).
Proof.
  intros He Hn. unfold flush_data. fold (requested f nbytes). rewrite He.
  cbn [run_bind]. unfold copy_fuel. rewrite copy_rest_ok by lia. reflexivity.
Qed.

(** What the C library promises of [qsort] whatever the comparison function:
    the array holds the same elements afterwards. *)
Definition qsort_permutes : Prop :=
  forall cmp l, Permutation (qsort cmp l) l.

(** A flush that is asked for no more than the reader holds either returns a
    status other than [IB_EAGAIN], having consumed exactly what it was asked
    for, or it is not the last one and an edit made it break off: it then
    returns [IB_EAGAIN] or fails the [assert] of the copy loop. *)
Lemma flush_data_run f nbytes last :
  qsort_permutes ->
  edits_wf (edits f) ->
  0 <= requested f nbytes <= avail f ->
  (exists rc f', flush_data qsort f nbytes last = Done (rc, f') /\
                 rc <> IB_EAGAIN /\ consumed f f' (requested f nbytes)) \/
  (last = false /\
   (flush_data qsort f nbytes last = AssertFail \/
    exists f', flush_data qsort f nbytes last = Done (IB_EAGAIN, f'))).
Proof.
  intros Hq Hwf Hn.
  destruct (edits f) as [|e0 es] eqn:He.
  { left. exists IB_OK, (finish (advance f (requested f nbytes)) last).
    split; [apply flush_data_no_edits; assumption|].
    split; [discriminate|]. apply consumed_finish, consumed_advance. lia. }
  unfold flush_data. fold (requested f nbytes). rewrite He.
  cbn [edits set_edits].
  set (f0 := set_edits f (qsort qcompare (e0 :: es))).
  assert (Hwf0 : edits_wf (rev (qsort qcompare (e0 :: es)))).
  { apply Forall_rev. eapply Permutation_Forall; [|exact Hwf].
    symmetry. apply Hq. }
  destruct (edit_loop_run (rev (qsort qcompare (e0 :: es))) f0
              (requested f nbytes) IB_OK last Hn Hwf0)
    as (f1 & nb1 & rc1 & k & Hrun & Hk & Hc & Hrc).
  rewrite Hrun. cbn [run_bind].
  assert (Ha1 : avail f1 = avail f - k).
  { replace (avail f) with (avail f0) by reflexivity.
    eapply consumed_avail; [|exact Hc]. unfold f0, avail. simpl.
    unfold avail in Hn. lia. }
  destruct Hrc as [[-> ->]|[-> Hrc]].
  - right. split; [reflexivity|].
    pose proof (copy_rest_fuel f1 nb1) as Hfuel.
    destruct (copy_rest (copy_fuel f1) f1 nb1) as [f2| |]; cbn [run_bind].
    + right. eauto.
    + left. reflexivity.
    + congruence.
  - left. unfold copy_fuel. rewrite copy_rest_ok by lia. cbn [run_bind].
    exists rc1, (finish (advance f1 (requested f nbytes - k)) last).
    split; [reflexivity|]. split.
    + destruct Hrc as [->| ->]; discriminate.
    + apply consumed_finish.
      replace (requested f nbytes) with (0 + (k + (requested f nbytes - k)))
        at 2 by lia.
      eapply consumed_trans; [lia|lia|apply consumed_set_edits|].
      eapply consumed_trans; [lia|lia|exact Hc|].
      apply consumed_advance. lia.
Qed.

(** A last flush always returns; of the C code this holds where the counters
    fit, and the theorems that use it say so. *)
Lemma flush_data_last f nbytes :
  qsort_permutes ->
  edits_wf (edits f) ->
  0 <= requested f nbytes <= avail f ->
  exists rc f', flush_data qsort f nbytes true = Done (rc, f') /\
                rc <> IB_EAGAIN /\ consumed f f' (requested f nbytes).
Proof.
  intros Hq Hwf Hn.
  destruct (flush_data_run f nbytes true Hq Hwf Hn) as [H|[H _]];
    [exact H|discriminate].
Qed.

Lemma flush_data_inv f nbytes last rc f' :
  flush_data qsort f nbytes last = Done (rc, f') ->
  filter_inv f -> filter_inv f'.
Proof.
  intros H Hinv. apply flush_data_Done in H.
  destruct H as (f1 & nb1 & f2 & H1 & H2 & ->).
  apply filter_inv_finish. eapply copy_rest_inv; [exact H2|].
  destruct (edits f).
  - inversion H1; subst. assumption.
  - eapply edit_loop_inv; [exact H1|]. apply filter_inv_set_edits, Hinv.
Qed.

Lemma flush_data_committed f nbytes rc f' :
  flush_data qsort f nbytes true = Done (rc, f') ->
  vio_nbytes (output_vio f') = bytes_done f' + offs f'.
Proof.
  intros H. apply flush_data_Done in H.
  destruct H as (f1 & nb1 & f2 & H1 & H2 & ->). reflexivity.
Qed.

(** [offs] moves by no more than the sizes of the edits of the list. *)
Lemma flush_data_offs f nbytes last rc f' :
  qsort_permutes ->
  flush_data qsort f nbytes last = Done (rc, f') ->
  edits_wf (edits f) ->
  Z.abs (offs f' - offs f) <= sum_sizes (edits f).
Proof.
  intros Hq H Hwf. apply flush_data_Done in H.
  destruct H as (f1 & nb1 & f2 & H1 & H2 & ->).
  apply copy_rest_Done in H2.
  assert (Ho2 : offs f2 = offs f1)
    by (destruct H2 as [[_ ->]|[_ ->]]; reflexivity).
  cbn [finish offs]. rewrite Ho2.
  destruct (edits f) as [|e0 es] eqn:He.
  { inversion H1; subst. simpl. lia. }
  pose proof (edit_loop_offs _ _ _ _ _ _ _ _ H1) as Hl.
  cbn [set_edits offs] in Hl.
  rewrite sum_sizes_perm with (es2 := e0 :: es) in Hl.
  - apply Hl. apply Forall_rev. eapply Permutation_Forall; [|exact Hwf].
    symmetry. apply Hq.
  - rewrite <- Permutation_rev. apply Hq.
Qed.

(** On a context whose counters fit, [offs] still fits after a flush. *)
Lemma flush_data_offs_fits f nbytes last rc f' :
  qsort_permutes -> counters_fit f ->
  flush_data qsort f nbytes last = Done (rc, f') ->
  - 2 ^ 63 < offs f' < 2 ^ 63.
Proof.
  intros Hq Hfit H.
  pose proof (flush_data_offs f nbytes last rc f' Hq H (counters_fit_wf f Hfit)).
  destruct Hfit as (_ & _ & _ & _ & Ho). lia.
Qed.

End Flush.

(** *** Edit semantics *)

(** In the words of the specification: the result of replacing
    [s[at : at+del]] by [r]. *)
Definition replace_range (s : list byte) (at_ del : Z) (r : list byte)
  : list byte :=
  firstn (Z.to_nat at_) s ++ r ++ skipn (Z.to_nat (at_ + del)) s.

(** In the words of the specification: the edits of [es], taken in the order
    of the list, each replace their range of the input.  The offsets of an
    edit are offsets of the input, so they are moved by [shift], the size
    changes of the edits before it. *)
Fixpoint replace_ascending (s : list byte) (shift : Z) (es : list edit_t)
  : list byte :=
  match es with
  | [] => s
  | e :: es' =>
      replace_ascending (replace_range s (start e + shift) (bytes e) (repl e))
                        (shift + edit_delta e) es'
  end.

Definition edit_end (e : edit_t) : Z := start e + bytes e.

(** The edits of [order] follow one another from offset [pos] on: none
    starts before the one before it ends. *)
Fixpoint chained (pos : Z) (order : list edit_t) : Prop :=
  match order with
  | [] => True
  | e :: order' => pos <= start e /\ 0 <= bytes e /\ chained (edit_end e) order'
  end.

Fixpoint chain_end (pos : Z) (order : list edit_t) : Z :=
  match order with
  | [] => pos
  | e :: order' => chain_end (edit_end e) order'
  end.

(** What the loop over the edits writes when every edit of [order] is
    applied: [r] is what the reader holds, from stream offset [pos] on. *)
Fixpoint stream_out (r : list byte) (pos : Z) (order : list edit_t) : list byte :=
  match order with
  | [] => []
  | e :: order' =>
      firstn (Z.to_nat (start e - pos)) r ++ repl e ++
      stream_out (skipn (Z.to_nat (bytes e)) (skipn (Z.to_nat (start e - pos)) r))
                 (edit_end e) order'
  end.

Lemma chain_end_ge order : forall pos, chained pos order -> pos <= chain_end pos order.
Proof.
  induction order as [|e order IH]; simpl; intros pos H; [lia|].
  destruct H as (H1 & H2 & H3). apply IH in H3. unfold edit_end in *. lia.
Qed.

Lemma edit_loop_chain order : forall f nb rc last base,
  chained (bytes_done f) order ->
  Forall (fun e => edit_end e <= bytes_done f + nb) order ->
  nb <= avail f ->
  edits f = base ++ rev order ->
  exists f',
    edit_loop order f nb rc last =
      Done (f', nb - (chain_end (bytes_done f) order - bytes_done f), rc) /\
    output_buffer f' =
      output_buffer f ++ stream_out (reader f) (bytes_done f) order /\
    consumed f f' (chain_end (bytes_done f) order - bytes_done f) /\
    edits f' = base /\
    offs f' = offs f + sum_delta order /\
    applied f' = applied f ++ order /\
    output_vio f' = output_vio f.
Proof.
  induction order as [|e order IH]; intros f nb rc last base Hch Hr Hnb He.
  - exists f. simpl. rewrite Z.sub_diag, Z.sub_0_r, !app_nil_r, Z.add_0_r.
    simpl in He. rewrite app_nil_r in He.
    split; [reflexivity|]. split; [reflexivity|].
    split; [apply consumed_refl|]. auto.
  - destruct Hch as (H1 & H2 & H3). inversion Hr as [|? ? Hr1 Hr2]; subst.
    unfold edit_end in Hr1.
    rewrite edit_loop_cons.
    destruct (Z.ltb_spec (start e) (bytes_done f)); [lia|].
    destruct (Z.ltb_spec (bytes_done f + nb) (start e + bytes e)); [lia|].
    destruct (Z.leb_spec (start e - bytes_done f) (avail f)); [|lia].
    set (s := start e - bytes_done f) in *.
    set (f1 := splice (advance f s) e).
    assert (Hbd : bytes_done f1 = edit_end e)
      by (unfold f1, edit_end, s; simpl; lia).
    assert (Hc1 : consumed f f1 (s + bytes e)).
    { eapply consumed_trans; [lia|lia|apply consumed_advance; lia|].
      apply consumed_splice. }
    destruct (IH f1 (nb - s - bytes e) rc last base) as
      (f' & Hrun & Hout & Hc & Hed & Hof & Hap & Hvio).
    + rewrite Hbd. exact H3.
    + rewrite Hbd. eapply Forall_impl; [|exact Hr2].
      intros a Ha. simpl in Ha. unfold edit_end in *. unfold s. lia.
    + assert (Ha1 : avail f1 = avail f - (s + bytes e))
        by (eapply consumed_avail; [|exact Hc1]; unfold s; lia).
      rewrite Ha1. lia.
    + unfold f1. simpl. rewrite He. simpl. rewrite app_assoc.
      apply removelast_last.
    + exists f'. rewrite Hbd in *. cbn [chain_end].
      assert (Hge := chain_end_ge _ _ H3).
      split.
      { rewrite Hrun. f_equal. f_equal. f_equal. unfold s, edit_end in *. lia. }
      split.
      { rewrite Hout. unfold f1, splice, advance, copied, TSIOBufferWrite,
          TSIOBufferReaderConsume. cbn [output_buffer reader stream_out].
        fold s. rewrite <- !app_assoc. reflexivity. }
      split.
      { replace (chain_end (edit_end e) order - bytes_done f)
          with ((s + bytes e) + (chain_end (edit_end e) order - edit_end e))
          by (unfold s, edit_end; lia).
        eapply consumed_trans; [lia|unfold edit_end in *; lia|exact Hc1|exact Hc]. }
      split; [exact Hed|]. split.
      { rewrite Hof. unfold f1.
        change (sum_delta (e :: order)) with (edit_delta e + sum_delta order).
        cbn [offs splice advance copied TSIOBufferWrite].
        unfold edit_delta. lia. }
      split.
      { rewrite Hap. unfold f1. simpl. rewrite <- app_assoc. reflexivity. }
      rewrite Hvio. reflexivity.
Qed.

Lemma firstn_app_len (A : Type) (l1 l2 : list A) (k : nat) :
  firstn (length l1 + k) (l1 ++ l2) = l1 ++ firstn k l2.
Proof. induction l1 as [|x l1 IH]; simpl; [reflexivity|]. now rewrite IH. Qed.

Lemma skipn_app_len (A : Type) (l1 l2 : list A) (k : nat) :
  skipn (length l1 + k) (l1 ++ l2) = skipn k l2.
Proof. induction l1 as [|x l1 IH]; simpl; [reflexivity|]. exact IH. Qed.

(** The streaming output is the replacement in ascending order of the
    specification. *)
Lemma replace_ascending_stream order : forall out r pos,
  chained pos order ->
  Forall (fun e => edit_end e - pos <= Z.of_nat (length r)) order ->
  replace_ascending (out ++ r) (Z.of_nat (length out) - pos) order =
  out ++ stream_out r pos order ++
  skipn (Z.to_nat (chain_end pos order - pos)) r.
Proof.
  induction order as [|e order IH]; intros out r pos Hch Hr.
  - simpl. rewrite Z.sub_diag. reflexivity.
  - destruct Hch as (H1 & H2 & H3). inversion Hr as [|? ? Hr1 Hr2]; subst.
    unfold edit_end in Hr1.
    assert (Hge := chain_end_ge _ _ H3).
    cbn [replace_ascending stream_out chain_end].
    set (s := start e - pos) in *.
    set (out' := out ++ firstn (Z.to_nat s) r ++ repl e).
    set (r' := skipn (Z.to_nat (bytes e)) (skipn (Z.to_nat s) r)).
    assert (Hr' : r' = skipn (Z.to_nat (s + bytes e)) r).
    { unfold r'. rewrite skipn_skipn. f_equal. unfold s. lia. }
    assert (Hrep : replace_range (out ++ r) (start e + (Z.of_nat (length out) - pos))
                     (bytes e) (repl e) = out' ++ r').
    { unfold replace_range, out'.
      replace (Z.to_nat (start e + (Z.of_nat (length out) - pos)))
        with (length out + Z.to_nat s)%nat by (unfold s; lia).
      replace (Z.to_nat (start e + (Z.of_nat (length out) - pos) + bytes e))
        with (length out + Z.to_nat (s + bytes e))%nat by (unfold s; lia).
      rewrite firstn_app_len, skipn_app_len, Hr', <- !app_assoc. reflexivity. }
    assert (Hlen : Z.of_nat (length out') = Z.of_nat (length out) + s + repl_len e).
    { unfold out'. rewrite !length_app, !Nat2Z.inj_add, length_firstn_Z.
      - unfold repl_len. lia.
      - unfold s. lia. }
    rewrite Hrep.
    replace (Z.of_nat (length out) - pos + edit_delta e)
      with (Z.of_nat (length out') - edit_end e)
      by (rewrite Hlen; unfold edit_delta, edit_end, s; lia).
    rewrite IH; [|exact H3|].
    + unfold out'. rewrite <- !app_assoc. do 4 f_equal.
      rewrite Hr', skipn_skipn. f_equal. unfold edit_end, s in *. lia.
    + eapply Forall_impl; [|exact Hr2]. intros a Ha. simpl in Ha.
      rewrite Hr', length_skipn. unfold edit_end, s in *. lia.
Qed.

(** *** The order in which the edits are applied *)

Import QsortFacts.

(** Two edits do not overlap: one ends where or before the other starts. *)
Definition separated (a b : edit_t) : Prop :=
  edit_end a <= start b \/ edit_end b <= start a.

(** Two edits that start at the same offset both delete nothing. *)
Definition tie_free (a b : edit_t) : Prop :=
  start a = start b -> bytes a = 0 /\ bytes b = 0.

Definition non_overlapping (es : list edit_t) : Prop := pairwise separated es.

Definition ties_insert_only (es : list edit_t) : Prop := pairwise tie_free es.

(** The offsets are such that their differences fit the [int] returned by
    [qcompare]. *)
Definition starts_fit_int (es : list edit_t) : Prop :=
  Forall (fun e => 0 <= start e < 2 ^ 31) es.

Definition starts_at (k : Z) (e : edit_t) : bool := start e =? k.

Lemma int_of_Z_small z : - 2 ^ 31 <= z < 2 ^ 31 -> int_of_Z z = z.
Proof.
  intros H. unfold int_of_Z. rewrite Z.mod_small; lia.
Qed.

Lemma qcompare_small a b :
  0 <= start a < 2 ^ 31 -> 0 <= start b < 2 ^ 31 ->
  qcompare a b = start b - start a.
Proof. intros Ha Hb. unfold qcompare. apply int_of_Z_small. lia. Qed.

Lemma qcompare_orders es : starts_fit_int es -> orders qcompare es.
Proof.
  unfold starts_fit_int. rewrite Forall_forall. intros H. split.
  - intros a b c Ha Hb Hc.
    rewrite !qcompare_small by auto. lia.
  - intros a b Ha Hb. rewrite !qcompare_small by auto. lia.
Qed.

Lemma qcompare_tie a b : start a = start b -> qcompare a b <= 0.
Proof.
  intros H. unfold qcompare. rewrite H, Z.sub_diag. vm_compute. discriminate.
Qed.

Lemma chained_of_pairwise order : forall pos,
  Forall (fun e => pos <= start e /\ 0 <= bytes e) order ->
  pairwise (fun a b => edit_end a <= start b) order ->
  chained pos order.
Proof.
  induction order as [|e order IH]; intros pos Hf Hp; simpl; [exact I|].
  inversion Hf as [|? ? [H1 H2] Hf']; subst. destruct Hp as [Hp1 Hp2].
  repeat split; auto. apply IH; [|exact Hp2].
  rewrite Forall_forall in *. intros b Hb. split; [auto|]. apply Hf'; exact Hb.
Qed.

Lemma chain_end_le order : forall pos h,
  pos <= h -> Forall (fun e => edit_end e <= h) order ->
  chain_end pos order <= h.
Proof.
  induction order as [|e order IH]; intros pos h Hp Hf; simpl; [exact Hp|].
  inversion Hf; subst. apply IH; assumption.
Qed.

Section Order.
Variable qsort : (edit_t -> edit_t -> Z) -> list edit_t -> list edit_t.

(** What the C library promises of [qsort] when the comparison function
    orders the elements: the array is sorted by it. *)
Definition qsort_sorts : Prop :=
  forall cmp l, orders cmp l ->
    StronglySorted (fun a b => cmp a b <= 0) (qsort cmp l).

Definition qsort_contract : Prop := qsort_permutes qsort /\ qsort_sorts.

(** A [qsort] that keeps elements in their input order when the comparison
    function does not tell them apart (the C library does not promise it). *)
Definition qsort_stable : Prop :=
  forall cmp (p : edit_t -> bool) l,
    (forall x y, p x = true -> p y = true -> cmp x y <= 0) ->
    filter p (qsort cmp l) = filter p l.

(** The order in which [flush_data] meets the edits: the sorted array, from
    its end. *)
Definition apply_order (es : list edit_t) : list edit_t :=
  rev (qsort qcompare es).

Lemma apply_order_perm es :
  qsort_permutes qsort -> Permutation (apply_order es) es.
Proof.
  intros Hq. unfold apply_order. rewrite <- Permutation_rev. apply Hq.
Qed.

Lemma apply_order_ascending es :
  qsort_contract -> starts_fit_int es ->
  pairwise (fun a b => start a <= start b) (apply_order es).
Proof.
  intros [Hq Hs] Hfit. unfold apply_order.
  pose proof (Hs qcompare es (qcompare_orders es Hfit)) as Hsorted.
  apply StronglySorted_pairwise, pairwise_rev in Hsorted.
  eapply pairwise_In_impl; [|exact Hsorted].
  intros a b Ha Hb Hab. simpl in Hab.
  unfold starts_fit_int in Hfit. rewrite Forall_forall in Hfit.
  assert (Ha' : In a es)
    by (eapply Permutation_in; [apply (apply_order_perm es Hq)|exact Ha]).
  assert (Hb' : In b es)
    by (eapply Permutation_in; [apply (apply_order_perm es Hq)|exact Hb]).
  rewrite qcompare_small in Hab by auto. lia.
Qed.

Lemma apply_order_chained es :
  qsort_contract -> starts_fit_int es -> edits_wf es ->
  non_overlapping es -> ties_insert_only es ->
  chained 0 (apply_order es).
Proof.
  intros Hq Hfit Hwf Hno Hties.
  assert (Hperm : Permutation es (apply_order es))
    by (symmetry; apply apply_order_perm, Hq).
  apply chained_of_pairwise.
  - eapply Permutation_Forall; [exact Hperm|].
    unfold starts_fit_int, edits_wf in *. rewrite Forall_forall in *.
    intros e He. split; [apply Hfit; exact He|apply Hwf; exact He].
  - pose proof (apply_order_ascending es Hq Hfit) as Hasc.
    assert (Hsep : pairwise separated (apply_order es)).
    { eapply pairwise_perm; [|exact Hperm|exact Hno].
      unfold separated. intros a b [H|H]; auto. }
    assert (Htie : pairwise tie_free (apply_order es)).
    { eapply pairwise_perm; [|exact Hperm|exact Hties].
      unfold tie_free. intros a b H Heq. symmetry in Heq. tauto. }
    pose proof (pairwise_and _ _ _ _ Hasc (pairwise_and _ _ _ _ Hsep Htie)) as Hall.
    eapply pairwise_In_impl; [|exact Hall].
    intros a b Ha Hb (H1 & H2 & H3). simpl in *.
    assert (Hba : 0 <= bytes a /\ 0 <= bytes b).
    { unfold edits_wf in Hwf. rewrite Forall_forall in Hwf.
      split; apply Hwf; eapply Permutation_in; try (symmetry; exact Hperm); auto. }
    unfold separated, tie_free, edit_end in *.
    destruct H2 as [H2|H2]; [exact H2|].
    assert (Heq : start a = start b) by lia.
    destruct (H3 Heq) as [Hz _]. lia.
Qed.

Lemma apply_order_ties es k :
  qsort_stable ->
  filter (starts_at k) (apply_order es) = rev (filter (starts_at k) es).
Proof.
  intros Hst. unfold apply_order. rewrite filter_rev. f_equal.
  apply Hst. unfold starts_at. intros x y Hx Hy.
  apply qcompare_tie. apply Z.eqb_eq in Hx, Hy. congruence.
Qed.

End Order.

Lemma stable_qsort_contract : qsort_contract (@stable_qsort edit_t).
Proof.
  split.
  - intros cmp l. apply stable_qsort_perm.
  - intros cmp l Ho. apply stable_qsort_sorted, Ho.
Qed.

Lemma stable_qsort_stable : qsort_stable (@stable_qsort edit_t).
Proof. intros cmp p l H. apply stable_qsort_filter, H. Qed.

(** The last flush of a stream that is buffered whole, with every edit in
    range and no two of them in each other's way. *)
Lemma flush_whole_stream qsort f :
  qsort_contract qsort ->
  bytes_done f = 0 -> output_buffer f = [] -> buffered f = avail f ->
  starts_fit_int (edits f) -> edits_wf (edits f) ->
  Forall (fun e => edit_end e <= avail f) (edits f) ->
  non_overlapping (edits f) -> ties_insert_only (edits f) ->
  exists f',
    flush_data qsort f (-1) true = Done (IB_OK, f') /\
    output_buffer f' =
      replace_ascending (reader f) 0 (apply_order qsort (edits f)) /\
    edits f' = [] /\ reader f' = [].
Proof.
  intros Hq Hbd Hout Hbuf Hfit Hwf Hrange Hno Hties.
  pose proof (avail_nonneg f) as Hav.
  assert (Hreq : requested f (-1) = avail f) by (unfold requested; simpl; lia).
  destruct (edits f) as [|e0 es] eqn:He.
  { exists (finish (advance f (requested f (-1))) true).
    split; [apply flush_data_no_edits; [exact He|lia]|].
    assert (Hnil : apply_order qsort [] = []).
    { unfold apply_order.
      rewrite (Permutation_nil (Permutation_sym (proj1 Hq qcompare []))).
      reflexivity. }
    rewrite Hnil, Hreq. simpl. rewrite Hout, He. simpl.
    unfold avail, TSIOBufferReaderAvail, TSIOBufferReaderConsume.
    rewrite Nat2Z.id, firstn_all, skipn_all. auto. }
  rewrite <- He in *.
  set (order := apply_order qsort (edits f)).
  set (f0 := set_edits f (qsort qcompare (edits f))).
  assert (Hperm : Permutation order (edits f))
    by (apply apply_order_perm, Hq).
  assert (Hch : chained 0 order) by (apply apply_order_chained; assumption).
  assert (Hr : Forall (fun e => edit_end e <= avail f) order)
    by (eapply Permutation_Forall; [symmetry; exact Hperm|exact Hrange]).
  destruct (edit_loop_chain order f0 (avail f) IB_OK true []) as
    (f1 & Hrun & Hout1 & Hc & Hed & _ & _ & _).
  { unfold f0. simpl. rewrite Hbd. exact Hch. }
  { unfold f0. simpl. rewrite Hbd. exact Hr. }
  { unfold f0, avail. simpl. lia. }
  { unfold f0, order, apply_order. simpl. rewrite rev_involutive. reflexivity. }
  replace (bytes_done f0) with 0 in * by (unfold f0; simpl; lia).
  set (ce := chain_end 0 order) in *.
  assert (Hce : 0 <= ce <= avail f).
  { split; [apply chain_end_ge, Hch|apply chain_end_le; [lia|exact Hr]]. }
  assert (Ha1 : avail f1 = avail f - (ce - 0)).
  { replace (avail f) with (avail f0) by reflexivity.
    eapply consumed_avail; [|exact Hc]. unfold f0, avail. simpl.
    unfold avail in Hce. lia. }
  exists (finish (advance f1 (avail f - (ce - 0))) true).
  split.
  { unfold flush_data. fold (requested f (-1)). rewrite Hreq, He.
    rewrite <- He. fold f0. unfold f0 at 1. cbn [edits set_edits].
    fold (apply_order qsort (edits f)). fold order.
    rewrite Hrun. cbn [run_bind]. unfold copy_fuel.
    rewrite copy_rest_ok by lia. reflexivity. }
  destruct Hc as (Hrd & _).
  split.
  { cbn [finish output_buffer advance copied]. rewrite Hout1.
    change (output_buffer f0) with (output_buffer f).
    change (reader f0) with (reader f) in *.
    rewrite Hout. simpl app.
    pose proof (replace_ascending_stream order [] (reader f) 0 Hch) as Hspec.
    simpl in Hspec. rewrite Hspec.
    - f_equal. rewrite Hrd. fold ce.
      rewrite !Z.sub_0_r. apply firstn_all2. rewrite length_skipn.
      unfold avail, TSIOBufferReaderAvail in *. lia.
    - eapply Forall_impl; [|exact Hr]. intros a Ha. simpl in Ha.
      unfold avail, TSIOBufferReaderAvail in Ha. lia. }
  split.
  { cbn [finish edits advance copied]. exact Hed. }
  cbn [finish reader advance copied]. unfold TSIOBufferReaderConsume.
  apply skipn_all2. rewrite Hrd, length_skipn.
  change (reader f0) with (reader f).
  unfold avail, TSIOBufferReaderAvail in *. lia.
Qed.

(** *** What a flush leaves alone *)

Lemma edit_loop_frame todo : forall f nb rc last f' nb' rc',
  edit_loop todo f nb rc last = Done (f', nb', rc') ->
  buffering f' = buffering f /\ buf_limit f' = buf_limit f /\
  (rc' = IB_EAGAIN \/ rc' = IB_EBADVAL \/ rc' = rc).
Proof.
  induction todo as [|e todo IH]; intros f nb rc last f' nb' rc' Hrun.
  - simpl in Hrun. inversion Hrun; subst. auto.
  - rewrite edit_loop_cons in Hrun.
    destruct (Z.ltb_spec (start e) (bytes_done f)) as [H1|H1].
    { apply IH in Hrun. simpl in Hrun. intuition. }
    destruct (Z.ltb_spec (bytes_done f + nb) (start e + bytes e)) as [H2|H2].
    { destruct last; simpl in Hrun.
      - apply IH in Hrun. simpl in Hrun. intuition.
      - inversion Hrun; subst. auto. }
    destruct (Z.leb_spec (start e - bytes_done f) (avail f)) as [H3|H3];
      [|discriminate].
    apply IH in Hrun. simpl in Hrun. exact Hrun.
Qed.

Lemma flush_data_frame qsort f nbytes last rc f' :
  flush_data qsort f nbytes last = Done (rc, f') ->
  buffering f' = buffering f /\ buf_limit f' = buf_limit f.
Proof.
  intros H. apply flush_data_Done in H.
  destruct H as (f1 & nb1 & f2 & H1 & H2 & ->).
  apply copy_rest_Done in H2.
  assert (Hf1 : buffering f1 = buffering f /\ buf_limit f1 = buf_limit f).
  { destruct (edits f).
    - inversion H1; subst. auto.
    - apply edit_loop_frame in H1. simpl in H1. tauto. }
  destruct H2 as [[_ ->]|[_ ->]]; simpl; exact Hf1.
Qed.

Lemma filter_inv_discard f : filter_inv f -> filter_inv (discard_buffered f).
Proof.
  unfold discard_buffered. destruct (0 <? buffered f); [|auto].
  unfold filter_inv, emitted. simpl. auto.
Qed.

Lemma filter_inv_buffer_chunk f input n :
  filter_inv f -> filter_inv (buffer_chunk f input n).
Proof. unfold filter_inv, emitted. simpl. auto. Qed.

Lemma buffer_data_chunk_inv qsort f input n rc f' :
  buffer_data_chunk qsort f input n = Done (rc, f') ->
  filter_inv f -> filter_inv f'.
Proof.
  unfold buffer_data_chunk. intros H Hinv.
  destruct (iobuf_mode_eqb (buffering f) IOBUF_DISCARD).
  { inversion H; subst. apply filter_inv_discard, Hinv. }
  match type of H with
  | run_bind ?m _ = _ => destruct m as [[rc1 f1]| |] eqn:E1
  end; cbn [run_bind] in H; try discriminate.
  assert (Hinv1 : filter_inv f1).
  { destruct (iobuf_mode_eqb (buffering f) IOBUF_BUFFER_FLUSHALL
              && (buf_limit f <? buffered f + n)).
    - eapply flush_data_inv; eauto.
    - inversion E1; subst. exact Hinv. }
  pose proof (filter_inv_buffer_chunk f1 input n Hinv1) as Hinv2.
  destruct (iobuf_mode_eqb (buffering (buffer_chunk f1 input n)) IOBUF_NOBUF).
  { eapply flush_data_inv; eauto. }
  destruct (iobuf_mode_eqb (buffering (buffer_chunk f1 input n))
              IOBUF_BUFFER_FLUSHPART
            && (buf_limit (buffer_chunk f1 input n)
                <? buffered (buffer_chunk f1 input n))).
  { eapply flush_data_inv; eauto. }
  inversion H; subst. exact Hinv2.
Qed.

(** *** Buffering with an empty edit list *)

(** The context is consistent and holds no edit: [buffered] counts what the
    reader holds, and the limit is a [size_t]. *)
Definition plain (f : tsib_filter_ctx) : Prop :=
  edits f = [] /\ buffered f = avail f /\ 0 <= buf_limit f.

(** [f'] is [f] further down the same stream: same mode and limit, still
    plain, and the bytes emitted followed by the bytes buffered are those of
    [f] followed by [more]. *)
Definition extends (f f' : tsib_filter_ctx) (more : list byte) : Prop :=
  plain f' /\ buffering f' = buffering f /\ buf_limit f' = buf_limit f /\
  output_buffer f' ++ reader f' = output_buffer f ++ reader f ++ more.

Lemma flush_data_plain qsort f nbytes last :
  plain f -> 0 <= requested f nbytes <= avail f ->
  exists f',
    flush_data qsort f nbytes last = Done (IB_OK, f') /\
    extends f f' [] /\
    output_buffer f' =
      output_buffer f ++ firstn (Z.to_nat (requested f nbytes)) (reader f) /\
    reader f' = skipn (Z.to_nat (requested f nbytes)) (reader f).
Proof.
  intros (He & Hb & Hl) Hn.
  exists (finish (advance f (requested f nbytes)) last).
  split; [apply flush_data_no_edits; assumption|].
  split; [|split; reflexivity].
  unfold extends, plain.
  cbn [finish advance copied edits buffered buf_limit buffering output_buffer reader].
  unfold TSIOBufferReaderConsume.
  repeat split; auto.
  - unfold avail, TSIOBufferReaderAvail in *.
    cbn [finish advance copied reader]. unfold TSIOBufferReaderConsume.
    rewrite length_skipn. lia.
  - rewrite app_nil_r, <- app_assoc, firstn_skipn. reflexivity.
Qed.

Lemma buffer_chunk_plain f input n :
  plain f -> 0 <= n ->
  extends f (buffer_chunk f input n) (firstn (Z.to_nat n) input).
Proof.
  intros (He & Hb & Hl) Hn. unfold extends, plain, buffer_chunk, TSIOBufferCopy.
  cbn [edits buffered buf_limit buffering output_buffer reader].
  assert (Hf : firstn (Z.to_nat (Z.min n (TSIOBufferReaderAvail input))) input
               = firstn (Z.to_nat n) input).
  { unfold TSIOBufferReaderAvail.
    destruct (Z_le_gt_dec n (Z.of_nat (length input))).
    - rewrite Z.min_l by lia. reflexivity.
    - rewrite Z.min_r by lia. rewrite Nat2Z.id.
      rewrite firstn_all, firstn_all2 by lia. reflexivity. }
  rewrite Hf. repeat split; auto.
  unfold avail, TSIOBufferReaderAvail in *. cbn [reader].
  rewrite length_app, Nat2Z.inj_add, Hb, <- Hf, length_firstn. lia.
Qed.

Lemma extends_trans f1 f2 f3 m1 m2 :
  extends f1 f2 m1 -> extends f2 f3 m2 -> extends f1 f3 (m1 ++ m2).
Proof.
  unfold extends. intros (Hp & Hm & Hl & Ho) (Hp' & Hm' & Hl' & Ho').
  split; [exact Hp'|]. split; [congruence|]. split; [congruence|].
  rewrite Ho', app_assoc, Ho, <- !app_assoc. reflexivity.
Qed.

Lemma extends_refl f : plain f -> extends f f [].
Proof. unfold extends. intros H. rewrite !app_nil_r. auto. Qed.

Lemma mode_eqb_eq a b : iobuf_mode_eqb a b = true <-> a = b.
Proof. destruct a, b; simpl; split; congruence. Qed.

(** With no edit in the list and in every mode but [discard], a chunk is
    taken without loss and with status [IB_OK]. *)
Lemma buffer_data_chunk_plain qsort f input n :
  plain f -> buffering f <> IOBUF_DISCARD -> 0 <= n ->
  exists f',
    buffer_data_chunk qsort f input n = Done (IB_OK, f') /\
    extends f f' (firstn (Z.to_nat n) input).
Proof.
  intros Hp Hmode Hn. unfold buffer_data_chunk.
  destruct (iobuf_mode_eqb (buffering f) IOBUF_DISCARD) eqn:Ed.
  { apply mode_eqb_eq in Ed. contradiction. }
  assert (H1 : exists f1,
    (if iobuf_mode_eqb (buffering f) IOBUF_BUFFER_FLUSHALL
        && (buf_limit f <? buffered f + n)
     then flush_data qsort f (-1) false else Done (IB_OK, f))
    = Done (IB_OK, f1) /\ extends f f1 []).
  { destruct (iobuf_mode_eqb (buffering f) IOBUF_BUFFER_FLUSHALL
              && (buf_limit f <? buffered f + n)).
    - destruct (flush_data_plain qsort f (-1) false Hp) as (f1 & Hr & He & _).
      + destruct Hp as (_ & Hb & _).
        change (requested f (-1)) with (buffered f).
        pose proof (avail_nonneg f). lia.
      + eauto.
    - exists f. split; [reflexivity|apply extends_refl, Hp]. }
  destruct H1 as (f1 & -> & He1). cbn [run_bind].
  pose proof (buffer_chunk_plain f1 input n (proj1 He1) Hn) as He2.
  set (f2 := buffer_chunk f1 input n) in *.
  pose proof (extends_trans _ _ _ _ _ He1 He2) as He12. simpl in He12.
  destruct (proj1 He2) as (He & Hb & Hl).
  destruct (iobuf_mode_eqb (buffering f2) IOBUF_NOBUF).
  { destruct (flush_data_plain qsort f2 (-1) false (proj1 He2)) as (f3 & Hr & He3 & _).
    - change (requested f2 (-1)) with (buffered f2).
      pose proof (avail_nonneg f2). lia.
    - exists f3. split; [exact Hr|].
      pose proof (extends_trans _ _ _ _ _ He12 He3) as H. rewrite app_nil_r in H.
      exact H. }
  destruct (iobuf_mode_eqb (buffering f2) IOBUF_BUFFER_FLUSHPART
            && (buf_limit f2 <? buffered f2)) eqn:Ep.
  { apply andb_prop in Ep. destruct Ep as [_ Ep]. apply Z.ltb_lt in Ep.
    destruct (flush_data_plain qsort f2 (buffered f2 - buf_limit f2) false
                (proj1 He2)) as (f3 & Hr & He3 & _).
    - unfold requested.
      destruct (Z.eqb_spec (buffered f2 - buf_limit f2) (-1)); lia.
    - exists f3. split; [exact Hr|].
      pose proof (extends_trans _ _ _ _ _ He12 He3) as H. rewrite app_nil_r in H.
      exact H. }
  exists f2. split; [reflexivity|exact He12].
Qed.

(** *** A stream of blocks with an empty edit list *)

Section Stream.
Variable qsort : (edit_t -> edit_t -> Z) -> list edit_t -> list edit_t.
Variable ib_notify_body : list byte -> list edit_t -> ib_status_t * list edit_t.

(** The engine adds no edit to an empty list. *)
Definition keeps_empty : Prop := forall buf, snd (ib_notify_body buf []) = [].

Lemma length_concat_0 (blocks : list (list byte)) :
  length (concat blocks) = 0%nat -> concat blocks = [].
Proof. destruct (concat blocks); [reflexivity|discriminate]. Qed.

Lemma process_blocks_plain blocks : forall t,
  keeps_empty -> plain (fctx t) -> buffering (fctx t) <> IOBUF_DISCARD ->
  exists t',
    process_blocks qsort ib_notify_body blocks t = Done t' /\
    extends (fctx t) (fctx t') (concat blocks) /\
    input_ndone t' = input_ndone t + Z.of_nat (length (concat blocks)) /\
    input_nbytes t' = input_nbytes t /\
    upstream t' = upstream t.
Proof.
  induction blocks as [|buf rest IH]; intros t Hk Hp Hm.
  - exists t. simpl. rewrite Z.add_0_r.
    split; [reflexivity|]. split; [apply extends_refl, Hp|]. auto.
  - cbn [process_blocks].
    destruct (Z.ltb_spec 0 (TSIOBufferReaderAvail (concat (buf :: rest))))
      as [Hav|Hav].
    + destruct (ib_notify_body buf (edits (fctx t))) as [rc0 es] eqn:En.
      assert (Hes : es = edits (fctx t)).
      { destruct Hp as (He & _). rewrite He in *.
        pose proof (Hk buf) as H. rewrite En in H. simpl in H. congruence. }
      subst es.
      set (t1 := if ib_status_eqb rc0 IB_OK then t
                 else log_error_tx t "Error %d notifying body data.").
      assert (Ht1 : fctx t1 = fctx t /\ input_ndone t1 = input_ndone t /\
                    input_nbytes t1 = input_nbytes t /\ upstream t1 = upstream t)
        by (unfold t1; destruct (ib_status_eqb rc0 IB_OK); simpl; auto).
      destruct Ht1 as (Hf1 & Hd1 & Hn1 & Hu1).
      rewrite Hf1, set_edits_same.
      destruct (buffer_data_chunk_plain qsort (fctx t) (concat (buf :: rest))
                  (Z.of_nat (length buf)) Hp Hm) as (f' & Hrun & Hext); [lia|].
      rewrite Hrun. cbn [run_bind log_chunk_status].
      rewrite Nat2Z.id in Hext.
      assert (Hfirst : firstn (length buf) (concat (buf :: rest)) = buf).
      { simpl. rewrite firstn_app, Nat.sub_diag, firstn_all. simpl.
        apply app_nil_r. }
      rewrite Hfirst in Hext.
      destruct (IH (consume_block (set_fctx t1 f') rest (Z.of_nat (length buf))) Hk)
        as (t' & Hrun' & Hext' & Hd' & Hn' & Hu').
      * simpl. apply Hext.
      * simpl. destruct Hext as (_ & -> & _). exact Hm.
      * exists t'. split; [exact Hrun'|]. simpl in *.
        split; [eapply extends_trans; eauto|].
        rewrite Hd', Hn', Hu', length_app, Nat2Z.inj_add.
        split; [lia|]. split; [exact Hn1|exact Hu1].
    + exists t. unfold TSIOBufferReaderAvail in Hav.
      assert (Hnil : concat (buf :: rest) = [])
        by (apply length_concat_0; lia).
      rewrite Hnil. simpl. rewrite Z.add_0_r.
      split; [reflexivity|]. split; [apply extends_refl, Hp|]. auto.
Qed.

End Stream.

(** *** Stale edits, and the edit that makes a flush break off *)

(** Edits that start before [bytes_done] are dropped one after the other:
    nothing but the edit list changes, and the status is [IB_EBADVAL] once
    one was dropped. *)
Lemma edit_loop_stale pre : forall f nb rc last rest base,
  Forall (fun e => start e < bytes_done f) pre ->
  edits f = base ++ rev (pre ++ rest) ->
  edit_loop (pre ++ rest) f nb rc last =
  edit_loop rest (set_edits f (base ++ rev rest)) nb
            (match pre with [] => rc | _ :: _ => IB_EBADVAL end) last.
Proof.
  induction pre as [|e pre IH]; intros f nb rc last rest base Hst He.
  - simpl in *. rewrite <- He, set_edits_same. reflexivity.
  - inversion Hst as [|? ? H1 H2]; subst.
    change ((e :: pre) ++ rest) with (e :: (pre ++ rest)).
    rewrite edit_loop_cons.
    destruct (Z.ltb_spec (start e) (bytes_done f)); [|lia].
    rewrite (IH (pop_edit f) nb IB_EBADVAL last rest base).
    + destruct pre; reflexivity.
    + exact H2.
    + simpl. rewrite He. simpl. rewrite app_assoc. apply removelast_last.
Qed.

Section Again.
Variable qsort : (edit_t -> edit_t -> Z) -> list edit_t -> list edit_t.

Lemma flush_data_nonempty f nbytes last :
  edits f <> [] ->
  flush_data qsort f nbytes last =
  ('(f1, nb1, rc) <-
     edit_loop (apply_order qsort (edits f))
               (set_edits f (qsort qcompare (edits f)))
               (requested f nbytes) IB_OK last ;;
   f2 <- copy_rest (copy_fuel f1) f1 nb1 ;;
   Done (rc, finish f2 last)).
Proof.
  intros Hne. unfold flush_data. destruct (edits f); [congruence|reflexivity].
Qed.

(** The loop drops the stale edits [pre] and breaks off at [E], which it
    leaves in the array with the edits [post] behind it. *)
Lemma flush_data_break f nbytes pre E post :
  edits f <> [] ->
  apply_order qsort (edits f) = pre ++ E :: post ->
  Forall (fun e => start e < bytes_done f) pre ->
  bytes_done f <= start E ->
  bytes_done f + requested f nbytes < edit_end E ->
  flush_data qsort f nbytes false =
  (f2 <- copy_rest (copy_fuel f) (set_edits f (rev (E :: post)))
                   (start E - bytes_done f) ;;
   Done (IB_EAGAIN, finish f2 false)).
Proof.
  intros Hne Hord Hst Hlo Hhi. rewrite flush_data_nonempty by exact Hne.
  rewrite Hord.
  rewrite (edit_loop_stale pre _ _ _ _ (E :: post) []).
  - rewrite edit_loop_cons. cbn [bytes_done set_edits app].
    destruct (Z.ltb_spec (start E) (bytes_done f)); [lia|].
    unfold edit_end in Hhi.
    destruct (Z.ltb_spec (bytes_done f + requested f nbytes) (start E + bytes E));
      [|lia].
    reflexivity.
  - exact Hst.
  - cbn [edits set_edits app]. rewrite <- Hord. unfold apply_order.
    rewrite rev_involutive. reflexivity.
Qed.

(** When the reader holds the bytes before [E], they are flushed and the
    status is [IB_EAGAIN]. *)
Lemma flush_data_again f nbytes pre E post :
  edits f <> [] ->
  apply_order qsort (edits f) = pre ++ E :: post ->
  Forall (fun e => start e < bytes_done f) pre ->
  bytes_done f <= start E ->
  bytes_done f + requested f nbytes < edit_end E ->
  start E - bytes_done f <= avail f ->
  flush_data qsort f nbytes false =
  Done (IB_EAGAIN,
        finish (advance (set_edits f (rev (E :: post)))
                        (start E - bytes_done f)) false).
Proof.
  intros Hne Hord Hst Hlo Hhi Hav.
  rewrite (flush_data_break f nbytes pre E post) by assumption.
  unfold copy_fuel. rewrite copy_rest_ok; [reflexivity|].
  unfold avail in *. simpl. lia.
Qed.

(** When [E] starts beyond what the reader holds, the copy loop runs out of
    bytes and its [assert] fails. *)
Lemma flush_data_beyond f nbytes pre E post :
  edits f <> [] ->
  apply_order qsort (edits f) = pre ++ E :: post ->
  Forall (fun e => start e < bytes_done f) pre ->
  bytes_done f + requested f nbytes < edit_end E ->
  avail f < start E - bytes_done f ->
  flush_data qsort f nbytes false = AssertFail.
Proof.
  intros Hne Hord Hst Hhi Hav. pose proof (avail_nonneg f).
  rewrite (flush_data_break f nbytes pre E post) by (assumption || lia).
  change (copy_fuel f) with (copy_fuel (set_edits f (rev (E :: post)))).
  rewrite copy_rest_abort; [reflexivity|].
  unfold avail in *. simpl. lia.
Qed.

End Again.

(** *** Examples *)

(** Proves [Forall P es] for a list that is written out, one element after
    the other. *)
Ltac each_edit tac :=
  repeat (apply Forall_cons; [tac|]); apply Forall_nil.

(** Proves [counters_fit f] for a context that is written out. *)
Ltac edit_in_range :=
  unfold edit_fits; split; [|split];
  [vm_compute; discriminate|vm_compute; discriminate|vm_compute; reflexivity].

Ltac counters_in_range :=
  unfold counters_fit; split; [|split; [|split; [|split]]];
  [vm_compute; discriminate|vm_compute; discriminate|vm_compute; reflexivity
  |each_edit edit_in_range|vm_compute; reflexivity].

Definition bytes_of (s : string) : list byte := list_byte_of_string s.

(** A context that holds the whole of [input] in its buffer, nothing of it
    flushed yet, with the edits [es] waiting. *)
Definition whole_stream (input : list byte) (es : list edit_t) : tsib_filter_ctx :=
  mk_fctx (mk_vio 0 0) [] IOBUF_BUFFER_ALL 0 input (Z.of_nat (length input))
          es 0 0 [].

(** The status a flush returned and the output buffer it left. *)
Definition flush_output (r : run (ib_status_t * tsib_filter_ctx))
  : option (ib_status_t * list byte) :=
  match r with
  | Done (rc, f) => Some (rc, output_buffer f)
  | _ => None
  end.

(** In the words of the specification: the edits sorted by [start]
    ascending, with ties broken by insertion order. *)
Definition ascending_insertion_order (es : list edit_t) : list edit_t :=
  stable_qsort (fun a b => start a - start b) es.

(** Scenario S2 of the specification. *)
Definition hello_there : tsib_filter_ctx :=
  whole_stream (bytes_of "HelloWorld") [mk_edit 5 5 (bytes_of "There")].

(** Two insertions at the same offset, ["X"] put in the list before ["Y"]. *)
Definition two_insertions : tsib_filter_ctx :=
  whole_stream (bytes_of "ab")
               [mk_edit 1 0 (bytes_of "X"); mk_edit 1 0 (bytes_of "Y")].

(** An insertion and, put in the list after it, a replacement at the same
    offset. *)
Definition insertion_then_replacement : tsib_filter_ctx :=
  whole_stream (bytes_of "ab")
               [mk_edit 1 0 (bytes_of "X"); mk_edit 1 1 (bytes_of "Y")].

Example hello_there_flush :
  flush_output (flush_data (@stable_qsort edit_t) hello_there (-1) true)
  = Some (IB_OK, bytes_of "HelloThere").
Proof. vm_compute. reflexivity. Qed.

(** With a stable [qsort] an insertion is lost to a replacement at the same
    offset that was put in the list after it: the replacement is met first,
    and the insertion then starts before [bytes_done]. *)
Example insertion_then_replacement_flush :
  non_overlapping (edits insertion_then_replacement) /\
  flush_output (flush_data (@stable_qsort edit_t) insertion_then_replacement (-1) true)
  = Some (IB_EBADVAL, bytes_of "aY").
Proof.
  split.
  - unfold non_overlapping, separated, edit_end. simpl.
    repeat constructor. simpl. lia.
  - vm_compute. reflexivity.
Qed.

(** ** The claims about the edits *)

(** C1, as the code has it.  When a stream is buffered whole and its last
    flush finds edits that lie within the stream, do not overlap, share a
    start offset only if they are pure insertions, and whose offsets fit an
    [int], then, for every [qsort] that meets the C library's contract, the
    flush emits the result of replacing [I[start : start+delete]] by the
    replacement for each edit in the order [apply_order]: the sorted array
    read from its end.  That order is a permutation of the edit list, it is
    ascending in [start], and under a stable [qsort] edits with the same
    start come in the reverse of insertion order. *)
Theorem C1_edits_applied_in_ascending_start_order :
  forall qsort (f : tsib_filter_ctx),
    qsort_contract qsort ->
    bytes_done f = 0 -> output_buffer f = [] -> buffered f = avail f ->
    starts_fit_int (edits f) -> edits_wf (edits f) ->
    Forall (fun e => edit_end e <= avail f) (edits f) ->
    non_overlapping (edits f) -> ties_insert_only (edits f) ->
    Permutation (apply_order qsort (edits f)) (edits f) /\
    pairwise (fun a b => start a <= start b) (apply_order qsort (edits f)) /\
    (qsort_stable qsort ->
     forall k, filter (starts_at k) (apply_order qsort (edits f))
               = rev (filter (starts_at k) (edits f))) /\
    exists f',
      flush_data qsort f (-1) true = Done (IB_OK, f') /\
      output_buffer f' =
        replace_ascending (reader f) 0 (apply_order qsort (edits f)) /\
      edits f' = [] /\ reader f' = [].
Proof.
  intros qsort f Hq Hbd Hout Hbuf Hfit Hwf Hrange Hno Hties.
  split; [apply apply_order_perm, Hq|].
  split; [apply apply_order_ascending; assumption|].
  split; [intros Hst k; apply apply_order_ties, Hst|].
  apply flush_whole_stream; assumption.
Qed.

(** Three edits on ["HelloWorld"], not in the order of their offsets: a
    replacement that grows the stream, a replacement of the first byte and
    an insertion. *)
Definition three_edits : tsib_filter_ctx :=
  whole_stream (bytes_of "HelloWorld")
    [mk_edit 6 1 (bytes_of "xy"); mk_edit 0 1 (bytes_of "J");
     mk_edit 3 0 (bytes_of "-")].

Lemma C1_witness :
  Permutation (apply_order (@stable_qsort edit_t) (edits three_edits))
              (edits three_edits) /\
  pairwise (fun a b => start a <= start b)
           (apply_order (@stable_qsort edit_t) (edits three_edits)) /\
  (qsort_stable (@stable_qsort edit_t) ->
   forall k, filter (starts_at k)
                    (apply_order (@stable_qsort edit_t) (edits three_edits))
             = rev (filter (starts_at k) (edits three_edits))) /\
  exists f',
    flush_data (@stable_qsort edit_t) three_edits (-1) true = Done (IB_OK, f') /\
    output_buffer f' =
      replace_ascending (reader three_edits) 0
        (apply_order (@stable_qsort edit_t) (edits three_edits)) /\
    edits f' = [] /\ reader f' = [].
Proof.
  apply (C1_edits_applied_in_ascending_start_order (@stable_qsort edit_t) three_edits).
  - apply stable_qsort_contract.
  - reflexivity.
  - reflexivity.
  - reflexivity.
  - each_edit ltac:(simpl; lia).
  - each_edit ltac:(simpl; lia).
  - each_edit ltac:(unfold edit_end, avail, TSIOBufferReaderAvail; simpl; lia).
  - split; [each_edit ltac:(unfold separated, edit_end; simpl; lia)|].
    split; [each_edit ltac:(unfold separated, edit_end; simpl; lia)|].
    split; [apply Forall_nil|exact I].
  - split; [each_edit ltac:(unfold tie_free; simpl; lia)|].
    split; [each_edit ltac:(unfold tie_free; simpl; lia)|].
    split; [apply Forall_nil|exact I].
Defined.

Example three_edits_flush :
  apply_order (@stable_qsort edit_t) (edits three_edits)
  = [mk_edit 0 1 (bytes_of "J"); mk_edit 3 0 (bytes_of "-");
     mk_edit 6 1 (bytes_of "xy")] /\
  flush_output (flush_data (@stable_qsort edit_t) three_edits (-1) true)
  = Some (IB_OK, bytes_of "Jel-loWxyrld").
Proof. split; vm_compute; reflexivity. Qed.

(** C1 as stated fails on ties.  The two insertions do not overlap; the
    specification applies them in insertion order and yields ["aXYb"]; the
    flush, with a stable [qsort], emits ["aYXb"]. *)
Lemma C1_counterexample :
  non_overlapping (edits two_insertions) /\
  replace_ascending (reader two_insertions) 0
    (ascending_insertion_order (edits two_insertions)) = bytes_of "aXYb" /\
  flush_output (flush_data (@stable_qsort edit_t) two_insertions (-1) true)
  = Some (IB_OK, bytes_of "aYXb").
Proof.
  split; [|split].
  - unfold non_overlapping, separated, edit_end. simpl.
    repeat constructor. simpl. lia.
  - vm_compute. reflexivity.
  - vm_compute. reflexivity.
Qed.

(** ** The claim about the offset delta and the committed size *)

(** C5.  [offs] is the sum of replacement length minus deleted length over
    the edits applied so far, and the output buffer holds [bytes_done + offs]
    bytes: this holds of a fresh context and every [flush_data] and
    [buffer_data_chunk] that returns keeps it.  On a context whose counters
    fit their 64 bits and whose [buffered] is what its reader holds, a last
    flush always returns, and the byte count it sets on the output
    write-intent is [bytes_done + offs], the number of bytes emitted; [offs]
    still fits. *)
Theorem C5_offs_and_committed_size :
  forall qsort (f : tsib_filter_ctx),
    qsort_permutes qsort -> filter_inv f ->
    counters_fit f -> buffered f = avail f ->
    (exists rc f',
        flush_data qsort f (-1) true = Done (rc, f') /\
        offs f' = sum_delta (applied f') /\
        - 2 ^ 63 < offs f' < 2 ^ 63 /\
        vio_nbytes (output_vio f') = bytes_done f' + offs f' /\
        vio_nbytes (output_vio f') = emitted f') /\
    (forall nbytes last rc f',
        flush_data qsort f nbytes last = Done (rc, f') -> filter_inv f') /\
    (forall input nbytes rc f',
        buffer_data_chunk qsort f input nbytes = Done (rc, f') -> filter_inv f').
Proof.
  intros qsort f Hq Hinv Hfit Hbuf.
  pose proof (counters_fit_wf f Hfit) as Hwf. split; [|split].
  - destruct (flush_data_last qsort f (-1) Hq Hwf) as (rc & f' & Hrun & _).
    { unfold requested. simpl. pose proof (avail_nonneg f). lia. }
    exists rc, f'. split; [exact Hrun|].
    destruct (flush_data_inv qsort f (-1) true rc f' Hrun Hinv) as [Ho He].
    pose proof (flush_data_committed qsort f (-1) rc f' Hrun) as Hc.
    pose proof (flush_data_offs_fits qsort f (-1) true rc f' Hq Hfit Hrun).
    repeat split; auto; lia.
  - intros nbytes last rc f' Hrun. eapply flush_data_inv; eauto.
  - intros input nbytes rc f' Hrun. eapply buffer_data_chunk_inv; eauto.
Qed.

(** ["Hello, World"] with the comma and the blank taken out and an
    exclamation mark put at the end: the sizes change by -2 and +1. *)
Definition hello_comma_world : tsib_filter_ctx :=
  whole_stream (bytes_of "Hello, World")
               [mk_edit 12 0 (bytes_of "!"); mk_edit 5 2 []].

Lemma C5_witness :
  exists rc f',
    flush_data (@stable_qsort edit_t) hello_comma_world (-1) true
    = Done (rc, f') /\
    offs f' = sum_delta (applied f') /\
    - 2 ^ 63 < offs f' < 2 ^ 63 /\
    vio_nbytes (output_vio f') = bytes_done f' + offs f' /\
    vio_nbytes (output_vio f') = emitted f'.
Proof.
  apply (C5_offs_and_committed_size (@stable_qsort edit_t) hello_comma_world).
  - intros cmp l. apply stable_qsort_perm.
  - split; reflexivity.
  - counters_in_range.
  - reflexivity.
Defined.

Example hello_comma_world_flush :
  match flush_data (@stable_qsort edit_t) hello_comma_world (-1) true with
  | Done (rc, f') =>
      rc = IB_OK /\ output_buffer f' = bytes_of "HelloWorld!" /\
      offs f' = -1 /\ bytes_done f' = 12 /\ vio_nbytes (output_vio f') = 11
  | _ => False
  end.
Proof. vm_compute. repeat split. Qed.

(** ** The claims about a flush that meets an edit it cannot apply *)

(** An edit on the second half of ["HelloWorld"], waiting when the first
    chunk ["Hello"] arrives. *)
Definition edit_ahead : tsib_filter_ctx :=
  fresh_fctx IOBUF_NOBUF 0 [mk_edit 7 2 (bytes_of "xy")].

(** A stale edit and, behind it, an edit that straddles the end of the
    data: 5 bytes were flushed before, ["World"] is buffered. *)
Definition stale_then_straddling : tsib_filter_ctx :=
  mk_fctx (mk_vio 0 0) (bytes_of "Hello") IOBUF_BUFFER_ALL 0
          (bytes_of "World") 5
          [mk_edit 8 4 (bytes_of "p!"); mk_edit 2 1 (bytes_of "x")]
          0 5 [].

(** C3 on an edit that starts beyond the buffered data: in mode [nobuf] the
    first chunk ["Hello"] arrives while an edit at offset 7 waits.  The
    flush sets [nbytes] to 7, the copy loop moves the five bytes there are
    and then fails its [assert]: the call does not return [IB_EAGAIN]. *)
Theorem C3_edit_beyond_buffered_data :
  buffer_data_chunk (@stable_qsort edit_t) edit_ahead (bytes_of "Hello") 5
  = AssertFail /\
  flush_data (@stable_qsort edit_t)
             (buffer_chunk edit_ahead (bytes_of "Hello") 5) (-1) false
  = AssertFail.
Proof. split; vm_compute; reflexivity. Qed.


Fixpoint reached (pos : Z) (order : list edit_t) : Z :=
  match order with
  | [] => pos
  | e :: order' =>
      if start e <? pos then reached pos order'
      else reached (start e + bytes e) order'
  end.





(** ["Hello"] buffered whole with three edits: the second overlaps the first,
    the third reaches beyond the five bytes there are. *)
Definition overlap_then_straddling : tsib_filter_ctx :=
  whole_stream (bytes_of "Hello")
    [mk_edit 0 3 (bytes_of "J"); mk_edit 1 1 (bytes_of "x");
     mk_edit 4 5 (bytes_of "p!")].


Example overlap_then_straddling_flush :
  flush_output (flush_data (@stable_qsort edit_t) overlap_then_straddling (-1) false)
  = Some (IB_EAGAIN, bytes_of "Jl").
Proof. vm_compute. reflexivity. Qed.

Example stale_then_straddling_flush :
  flush_output (flush_data (@stable_qsort edit_t) stale_then_straddling (-1) false)
  = Some (IB_EAGAIN, bytes_of "HelloWor").
Proof. vm_compute. reflexivity. Qed.

(** ** The claims about buffering *)

Definition no_rules (buf : list byte) (es : list edit_t)
  : ib_status_t * list edit_t := (IB_OK, es).

(** A transaction at the start of a body that will arrive as [blocks]. *)
Definition start_txn (mode : iobuf_mode) (limit : Z) (es : list edit_t)
    (blocks : list (list byte)) : tsib_txn_ctx :=
  mk_txn (fresh_fctx mode limit es) (Z.of_nat (length (concat blocks))) 0
         blocks [] [].

(** The output buffer a call of [process_data] left. *)
Definition data_output (r : run tsib_txn_ctx) : option (list byte) :=
  match r with
  | Done t => Some (output_buffer (fctx t))
  | _ => None
  end.

(** C2, as the code has it.  Whatever the blocks of a body and whatever the
    mode among [nobuf], [buffer_all], [buffer_flushall] and
    [buffer_flushpart], when the edit list stays empty the bytes copied to
    the output buffer by all the flushes, the last one included, are the
    bytes of the blocks in order; nothing stays buffered and the write is
    reported complete. *)
Theorem C2_bytes_conserved_without_edits :
  forall qsort ib_notify_body mode limit blocks,
    mode <> IOBUF_DISCARD -> 0 <= limit -> keeps_empty ib_notify_body ->
    exists t',
      process_data qsort ib_notify_body false false
                   (start_txn mode limit [] blocks) = Done t' /\
      output_buffer (fctx t') = concat blocks /\
      reader (fctx t') = [] /\
      upstream t' = [TS_EVENT_VCONN_WRITE_COMPLETE].
Proof.
  intros qsort notify mode limit blocks Hmode Hlimit Hk.
  set (t0 := start_txn mode limit [] blocks).
  assert (Hp0 : plain (fctx t0)) by (repeat split; simpl; auto).
  assert (Hfinal : forall t, plain (fctx t) ->
    exists t', final_flush qsort t = Done t' /\
      output_buffer (fctx t') = output_buffer (fctx t) ++ reader (fctx t) /\
      reader (fctx t') = [] /\
      upstream t' = upstream t ++ [TS_EVENT_VCONN_WRITE_COMPLETE]).
  { intros t Hp. unfold final_flush.
    destruct (flush_data_plain qsort (fctx t) (-1) true Hp)
      as (f' & Hrun & _ & Hout & Hrd).
    - change (requested (fctx t) (-1)) with (buffered (fctx t)).
      destruct Hp as (_ & -> & _). pose proof (avail_nonneg (fctx t)). lia.
    - rewrite Hrun. cbn [run_bind]. eexists. split; [reflexivity|].
      change (requested (fctx t) (-1)) with (buffered (fctx t)) in *.
      destruct Hp as (_ & Hb & _). rewrite Hb in *.
      unfold avail, TSIOBufferReaderAvail in *. rewrite Nat2Z.id in *.
      rewrite firstn_all in Hout. rewrite skipn_all in Hrd.
      simpl. auto. }
  unfold process_data. cbn [negb].
  destruct (Z.eqb_spec (TSVIONTodoGet t0) 0) as [Hz|Hz].
  - destruct (Hfinal t0 Hp0) as (t' & Hrun & Hout & Hrd & Hup).
    exists t'. split; [exact Hrun|].
    unfold TSVIONTodoGet, t0 in Hz. simpl in Hz.
    rewrite (length_concat_0 blocks) by lia.
    rewrite Hout, Hup. simpl. auto.
  - destruct (process_blocks_plain qsort notify blocks t0 Hk Hp0 Hmode)
      as (t1 & Hrun1 & Hext & Hd & Hn & Hu).
    change (input_reader t0) with blocks. rewrite Hrun1. cbn [run_bind].
    assert (Hz1 : TSVIONTodoGet t1 = 0)
      by (unfold TSVIONTodoGet; rewrite Hd, Hn; simpl; lia).
    rewrite Hz1. cbn [Z.eqb].
    destruct Hext as (Hp1 & _ & _ & Hcat).
    destruct (Hfinal t1 Hp1) as (t' & Hrun & Hout & Hrd & Hup).
    exists t'. split; [exact Hrun|].
    rewrite Hout, Hcat, Hup, Hu. simpl. auto.
Qed.

Lemma C2_witness :
  exists t',
    process_data (@stable_qsort edit_t) no_rules false false
                 (start_txn IOBUF_BUFFER_FLUSHPART 3 []
                    [bytes_of "He"; bytes_of "llo"; bytes_of "World"])
    = Done t' /\
    output_buffer (fctx t')
    = concat [bytes_of "He"; bytes_of "llo"; bytes_of "World"] /\
    reader (fctx t') = [] /\
    upstream t' = [TS_EVENT_VCONN_WRITE_COMPLETE].
Proof.
  apply (C2_bytes_conserved_without_edits (@stable_qsort edit_t) no_rules
           IOBUF_BUFFER_FLUSHPART 3
           [bytes_of "He"; bytes_of "llo"; bytes_of "World"]).
  - discriminate.
  - lia.
  - intros buf. reflexivity.
Defined.

(** C2 as stated fails in mode [discard].  In the first run the block
    ["Hi"] is dropped; in the second ["Hello"] was buffered before the
    status became an error, and the call that brings ["Hi"] drops both. *)
Lemma C2_counterexample :
  data_output
    (process_data (@stable_qsort edit_t) no_rules true false
                  (start_txn IOBUF_DISCARD 0 [] [bytes_of "Hi"]))
  = Some [] /\
  data_output
    (process_data (@stable_qsort edit_t) no_rules true false
       (mk_txn (whole_stream (bytes_of "Hello") []) 7 5 [bytes_of "Hi"] [] []))
  = Some [].
Proof. split; vm_compute; reflexivity. Qed.

(** The status a call of [buffer_data_chunk] returned, the output buffer and
    what stays in the filter's own buffer. *)
Definition chunk_result (r : run (ib_status_t * tsib_filter_ctx))
  : option (ib_status_t * list byte * list byte) :=
  match r with
  | Done (rc, f) => Some (rc, output_buffer f, reader f)
  | _ => None
  end.

(** A pending edit that reaches beyond the bytes to flush, in the two modes
    with a limit. *)
Definition flushpart_straddle : tsib_filter_ctx :=
  fresh_fctx IOBUF_BUFFER_FLUSHPART 2 [mk_edit 1 5 []].

Definition flushall_straddle : tsib_filter_ctx :=
  mk_fctx (mk_vio 0 0) [] IOBUF_BUFFER_FLUSHALL 4 (bytes_of "Hel") 3
          [mk_edit 1 5 []] 0 0 [].

Lemma buffer_chunk_fields f input n :
  0 <= n <= Z.of_nat (length input) ->
  reader (buffer_chunk f input n) = reader f ++ firstn (Z.to_nat n) input /\
  buffered (buffer_chunk f input n) = buffered f + n /\
  avail (buffer_chunk f input n) = avail f + n.
Proof.
  intros Hn. unfold buffer_chunk, TSIOBufferCopy, avail, TSIOBufferReaderAvail.
  cbn [reader buffered]. rewrite Z.min_l by lia.
  repeat split. rewrite length_app, Nat2Z.inj_add, length_firstn_Z by lia. lia.
Qed.

(** C6, as the code has it.  When the chunk would take the buffer over the
    limit, mode [buffer_flushall] runs a non-final flush of all that is
    buffered before it copies the chunk in, and mode [buffer_flushpart]
    copies the chunk in and runs a non-final flush of
    [buffered - buf_limit] bytes.  Unless that flush breaks off at an edit
    that reaches beyond the bytes to flush (status [IB_EAGAIN]), it consumes
    exactly these bytes: afterwards the buffer holds the chunk alone in the
    first mode and exactly [buf_limit] bytes in the second.  With an empty
    edit list the flush never breaks off and the status is [IB_OK]. *)
Theorem C6_flush_when_limit_exceeded :
  forall qsort (f : tsib_filter_ctx) input n,
    qsort_permutes qsort -> edits_wf (edits f) ->
    buffered f = avail f -> 0 <= buf_limit f ->
    0 <= n <= Z.of_nat (length input) ->
    buf_limit f < buffered f + n ->
    (buffering f = IOBUF_BUFFER_FLUSHALL ->
       buffer_data_chunk qsort f input n =
         ('(rc, f1) <- flush_data qsort f (-1) false ;;
          Done (rc, buffer_chunk f1 input n)) /\
       forall rc f',
         buffer_data_chunk qsort f input n = Done (rc, f') ->
         rc <> IB_EAGAIN ->
         reader f' = firstn (Z.to_nat n) input /\ buffered f' = n /\
         bytes_done f' = bytes_done f + buffered f) /\
    (buffering f = IOBUF_BUFFER_FLUSHPART ->
       buffer_data_chunk qsort f input n =
         flush_data qsort (buffer_chunk f input n)
                    (buffered f + n - buf_limit f) false /\
       forall rc f',
         buffer_data_chunk qsort f input n = Done (rc, f') ->
         rc <> IB_EAGAIN ->
         reader f' = skipn (Z.to_nat (buffered f + n - buf_limit f))
                           (reader f ++ firstn (Z.to_nat n) input) /\
         buffered f' = buf_limit f /\ avail f' = buf_limit f) /\
    (edits f = [] ->
     buffering f = IOBUF_BUFFER_FLUSHALL \/
     buffering f = IOBUF_BUFFER_FLUSHPART ->
     exists f', buffer_data_chunk qsort f input n = Done (IB_OK, f')).
Proof.
  intros qsort f input n Hq Hwf Hb Hl Hn Hover.
  pose proof (avail_nonneg f) as Hav.
  split; [|split].
  - intros Hmode.
    assert (Heq : buffer_data_chunk qsort f input n =
                  ('(rc, f1) <- flush_data qsort f (-1) false ;;
                   Done (rc, buffer_chunk f1 input n))).
    { unfold buffer_data_chunk. rewrite Hmode. cbn [iobuf_mode_eqb andb].
      destruct (Z.ltb_spec (buf_limit f) (buffered f + n)); [|lia].
      destruct (flush_data qsort f (-1) false) as [[rc1 f1]| |] eqn:E;
        cbn [run_bind]; try reflexivity.
      apply flush_data_frame in E. destruct E as [Em _].
      change (buffering (buffer_chunk f1 input n)) with (buffering f1).
      rewrite Em, Hmode. reflexivity. }
    split; [exact Heq|].
    intros rc f' Hrun Hrc. rewrite Heq in Hrun.
    destruct (flush_data_run qsort f (-1) false Hq Hwf) as
      [(rc1 & f1 & Hr1 & _ & Hc)|[_ [Hr1|[f1 Hr1]]]].
    + change (requested f (-1)) with (buffered f). lia.
    + rewrite Hr1 in Hrun. cbn [run_bind] in Hrun. inversion Hrun; subst.
      change (requested f (-1)) with (buffered f) in Hc.
      destruct Hc as (Hrd & Hbf & Hbd & _).
      destruct (buffer_chunk_fields f1 input n Hn) as (H1 & H2 & _).
      change (bytes_done (buffer_chunk f1 input n)) with (bytes_done f1).
      rewrite H1, H2, Hrd, Hbf, Hbd, Hb.
      unfold avail, TSIOBufferReaderAvail. rewrite Nat2Z.id, skipn_all.
      simpl. repeat split; lia.
    + rewrite Hr1 in Hrun. discriminate.
    + rewrite Hr1 in Hrun. cbn [run_bind] in Hrun. inversion Hrun; subst.
      congruence.
  - intros Hmode.
    destruct (buffer_chunk_fields f input n Hn) as (H1 & H2 & H3).
    set (f2 := buffer_chunk f input n) in *.
    assert (Heq : buffer_data_chunk qsort f input n =
                  flush_data qsort f2 (buffered f + n - buf_limit f) false).
    { unfold buffer_data_chunk. rewrite Hmode. cbn [iobuf_mode_eqb andb run_bind].
      fold f2. change (buffering f2) with (buffering f).
      change (buf_limit f2) with (buf_limit f).
      rewrite Hmode. cbn [iobuf_mode_eqb andb]. rewrite H2.
      destruct (Z.ltb_spec (buf_limit f) (buffered f + n)); [reflexivity|lia]. }
    split; [exact Heq|].
    intros rc f' Hrun Hrc. rewrite Heq in Hrun.
    assert (Hreq : requested f2 (buffered f + n - buf_limit f)
                   = buffered f + n - buf_limit f).
    { unfold requested.
      destruct (Z.eqb_spec (buffered f + n - buf_limit f) (-1)); [lia|reflexivity]. }
    destruct (flush_data_run qsort f2 (buffered f + n - buf_limit f) false Hq)
      as [(rc1 & f1 & Hr1 & _ & Hc)|[_ [Hr1|[f1 Hr1]]]].
    + exact Hwf.
    + rewrite Hreq. lia.
    + rewrite Hr1 in Hrun. inversion Hrun; subst.
      rewrite Hreq in Hc.
      assert (Ha : avail f' = avail f2 - (buffered f + n - buf_limit f))
        by (eapply consumed_avail; [|exact Hc]; lia).
      destruct Hc as (Hrd & Hbf & _).
      rewrite Hrd, Hbf, Ha, H1, H2, H3. repeat split; lia.
    + rewrite Hr1 in Hrun. discriminate.
    + rewrite Hr1 in Hrun. inversion Hrun; subst. congruence.
  - intros He Hmode.
    destruct (buffer_data_chunk_plain qsort f input n) as (f' & Hrun & _).
    + repeat split; assumption.
    + destruct Hmode as [-> | ->]; discriminate.
    + lia.
    + eauto.
Qed.

Lemma C6_witness :
  exists f',
    buffer_data_chunk (@stable_qsort edit_t)
      (fresh_fctx IOBUF_BUFFER_FLUSHPART 2 []) (bytes_of "Hello") 5
    = Done (IB_OK, f').
Proof.
  apply (C6_flush_when_limit_exceeded (@stable_qsort edit_t)
           (fresh_fctx IOBUF_BUFFER_FLUSHPART 2 []) (bytes_of "Hello") 5).
  - intros cmp l. apply stable_qsort_perm.
  - apply Forall_nil.
  - reflexivity.
  - simpl. lia.
  - simpl. lia.
  - simpl. lia.
  - reflexivity.
  - right. reflexivity.
Defined.

Example flushpart_keeps_limit :
  chunk_result (buffer_data_chunk (@stable_qsort edit_t)
                  (fresh_fctx IOBUF_BUFFER_FLUSHPART 2 []) (bytes_of "Hello") 5)
  = Some (IB_OK, bytes_of "Hel", bytes_of "lo").
Proof. vm_compute. reflexivity. Qed.

(** C6 as stated fails when an edit reaches beyond the bytes to flush.  In
    mode [buffer_flushpart] with a limit of 2 the chunk ["Hello"] should
    leave 2 bytes buffered and leaves 4; in mode [buffer_flushall] the
    buffered ["Hel"] should be flushed whole before ["lo"] is copied in, and
    only ["H"] is. *)
Lemma C6_counterexample :
  chunk_result (buffer_data_chunk (@stable_qsort edit_t) flushpart_straddle
                                  (bytes_of "Hello") 5)
  = Some (IB_EAGAIN, bytes_of "H", bytes_of "ello") /\
  chunk_result (buffer_data_chunk (@stable_qsort edit_t) flushall_straddle
                                  (bytes_of "lo") 2)
  = Some (IB_EAGAIN, bytes_of "H", bytes_of "ello").
Proof. split; vm_compute; reflexivity. Qed.

(** *** Edits on a body that is buffered whole *)

Section BufferAll.
Variable qsort : (edit_t -> edit_t -> Z) -> list edit_t -> list edit_t.
Variable ib_notify_body : list byte -> list edit_t -> ib_status_t * list edit_t.

(** The edit list after the engine has seen the blocks, one after the
    other. *)
Fixpoint notified (blocks : list (list byte)) (es : list edit_t) : list edit_t :=
  match blocks with
  | [] => es
  | buf :: rest =>
      if 0 <? TSIOBufferReaderAvail (concat blocks)
      then notified rest (snd (ib_notify_body buf es))
      else es
  end.

(** The context with [more] added to its buffer and [es] for its edits. *)
Definition buffered_more (f : tsib_filter_ctx) (more : list byte)
    (es : list edit_t) : tsib_filter_ctx :=
  mk_fctx (output_vio f) (output_buffer f) (buffering f) (buf_limit f)
          (reader f ++ more) (buffered f + Z.of_nat (length more)) es
          (offs f) (bytes_done f) (applied f).

Lemma buffered_more_nil f : buffered_more f [] (edits f) = f.
Proof.
  destruct f. unfold buffered_more. simpl.
  rewrite app_nil_r, Z.add_0_r. reflexivity.
Qed.

Lemma buffered_more_more f m1 m2 es1 es2 :
  buffered_more (buffered_more f m1 es1) m2 es2 = buffered_more f (m1 ++ m2) es2.
Proof.
  unfold buffered_more. simpl.
  rewrite app_assoc, length_app, Nat2Z.inj_add, Z.add_assoc. reflexivity.
Qed.

Lemma buffer_data_chunk_buffer_all f buf rest :
  buffering f = IOBUF_BUFFER_ALL ->
  buffer_data_chunk qsort f (buf ++ rest) (Z.of_nat (length buf))
  = Done (IB_OK, buffered_more f buf (edits f)).
Proof.
  intros Hm. unfold buffer_data_chunk. rewrite Hm. cbn [iobuf_mode_eqb andb run_bind].
  change (buffering (buffer_chunk f (buf ++ rest) (Z.of_nat (length buf))))
    with (buffering f).
  rewrite Hm. cbn [iobuf_mode_eqb andb].
  unfold buffer_chunk, TSIOBufferCopy, TSIOBufferReaderAvail, buffered_more.
  rewrite Z.min_l by (rewrite length_app; lia).
  rewrite Nat2Z.id, firstn_app, Nat.sub_diag, firstn_all. simpl.
  rewrite app_nil_r. reflexivity.
Qed.

(** In mode [buffer_all] the blocks gather in the buffer and nothing is
    flushed. *)
Lemma process_blocks_buffer_all blocks : forall t,
  buffering (fctx t) = IOBUF_BUFFER_ALL ->
  exists t',
    process_blocks qsort ib_notify_body blocks t = Done t' /\
    fctx t' = buffered_more (fctx t) (concat blocks)
                            (notified blocks (edits (fctx t))) /\
    input_ndone t' = input_ndone t + Z.of_nat (length (concat blocks)) /\
    input_nbytes t' = input_nbytes t /\
    upstream t' = upstream t.
Proof.
  induction blocks as [|buf rest IH]; intros t Hm.
  - exists t. simpl. rewrite buffered_more_nil, Z.add_0_r. auto.
  - cbn [process_blocks notified].
    destruct (Z.ltb_spec 0 (TSIOBufferReaderAvail (concat (buf :: rest))))
      as [Hav|Hav].
    + destruct (ib_notify_body buf (edits (fctx t))) as [rc0 es] eqn:En.
      set (t1 := if ib_status_eqb rc0 IB_OK then t
                 else log_error_tx t "Error %d notifying body data.").
      assert (Ht1 : fctx t1 = fctx t /\ input_ndone t1 = input_ndone t /\
                    input_nbytes t1 = input_nbytes t /\ upstream t1 = upstream t)
        by (unfold t1; destruct (ib_status_eqb rc0 IB_OK); simpl; auto).
      destruct Ht1 as (Hf1 & Hd1 & Hn1 & Hu1).
      rewrite Hf1. cbn [concat snd].
      rewrite buffer_data_chunk_buffer_all by exact Hm.
      cbn [run_bind log_chunk_status].
      destruct (IH (consume_block
                      (set_fctx t1 (buffered_more (set_edits (fctx t) es) buf
                                      (edits (set_edits (fctx t) es))))
                      rest (Z.of_nat (length buf))))
        as (t' & Hrun' & Hf' & Hd' & Hn' & Hu').
      * simpl. exact Hm.
      * exists t'. split; [exact Hrun'|]. simpl in *.
        rewrite Hf', Hd', Hn', Hu', length_app, Nat2Z.inj_add.
        split; [|split; [lia|auto]].
        unfold buffered_more. simpl.
        rewrite app_assoc, length_app, Nat2Z.inj_add, Z.add_assoc. reflexivity.
    + exists t. unfold TSIOBufferReaderAvail in Hav.
      assert (Hnil : concat (buf :: rest) = []).
      { destruct (concat (buf :: rest)); [reflexivity|simpl in Hav; lia]. }
      rewrite Hnil. simpl. rewrite buffered_more_nil, Z.add_0_r. auto.
Qed.

End BufferAll.

(** The edit semantics from end to end in mode [buffer_all]: however the
    body is cut into blocks and whenever the rules add their edits, if the
    edits in the list at the end of the body lie within it, do not overlap,
    share a start only as pure insertions and have starts that fit an [int],
    then [process_data] emits the body with every edit applied, in
    [apply_order], and reports the write complete. *)
Theorem edits_applied_to_buffered_body :
  forall qsort ib_notify_body limit es0 blocks,
    qsort_contract qsort ->
    starts_fit_int (notified ib_notify_body blocks es0) ->
    edits_wf (notified ib_notify_body blocks es0) ->
    Forall (fun e => edit_end e <= Z.of_nat (length (concat blocks)))
           (notified ib_notify_body blocks es0) ->
    non_overlapping (notified ib_notify_body blocks es0) ->
    ties_insert_only (notified ib_notify_body blocks es0) ->
    exists t',
      process_data qsort ib_notify_body false false
                   (start_txn IOBUF_BUFFER_ALL limit es0 blocks) = Done t' /\
      output_buffer (fctx t') =
        replace_ascending (concat blocks) 0
          (apply_order qsort (notified ib_notify_body blocks es0)) /\
      upstream t' = [TS_EVENT_VCONN_WRITE_COMPLETE].
Proof.
  intros qsort notify limit es0 blocks Hq Hfit Hwf Hr Hno Hties.
  set (es := notified notify blocks es0) in *.
  set (t0 := start_txn IOBUF_BUFFER_ALL limit es0 blocks).
  assert (Hfinal : forall t,
    fctx t = buffered_more (fctx t0) (concat blocks) es ->
    exists t', final_flush qsort t = Done t' /\
      output_buffer (fctx t') =
        replace_ascending (concat blocks) 0 (apply_order qsort es) /\
      upstream t' = upstream t ++ [TS_EVENT_VCONN_WRITE_COMPLETE]).
  { intros t Ht. unfold final_flush.
    destruct (flush_whole_stream qsort (fctx t) Hq) as (f' & Hrun & Hout & _).
    - rewrite Ht. reflexivity.
    - rewrite Ht. reflexivity.
    - rewrite Ht. unfold avail, TSIOBufferReaderAvail. simpl. lia.
    - rewrite Ht. exact Hfit.
    - rewrite Ht. exact Hwf.
    - rewrite Ht. unfold avail, TSIOBufferReaderAvail. simpl. exact Hr.
    - rewrite Ht. exact Hno.
    - rewrite Ht. exact Hties.
    - rewrite Hrun. cbn [run_bind]. eexists. split; [reflexivity|].
      simpl. rewrite Hout, Ht. simpl. auto. }
  unfold process_data. cbn [negb].
  destruct (Z.eqb_spec (TSVIONTodoGet t0) 0) as [Hz|Hz].
  - unfold TSVIONTodoGet, t0 in Hz. simpl in Hz.
    assert (Hnil : concat blocks = []) by (apply length_concat_0; lia).
    assert (Hes : es = es0).
    { unfold es. destruct blocks as [|buf rest]; [reflexivity|].
      cbn [notified]. rewrite Hnil. reflexivity. }
    destruct (Hfinal t0) as (t' & Hrun & Hout & Hup).
    + rewrite Hnil, Hes. symmetry. apply buffered_more_nil.
    + exists t'. rewrite Hup. auto.
  - destruct (process_blocks_buffer_all qsort notify blocks t0 eq_refl)
      as (t1 & Hrun1 & Hf1 & Hd & Hn & Hu).
    change (input_reader t0) with blocks. rewrite Hrun1. cbn [run_bind].
    assert (Hz1 : TSVIONTodoGet t1 = 0)
      by (unfold TSVIONTodoGet; rewrite Hd, Hn; simpl; lia).
    rewrite Hz1. cbn [Z.eqb].
    destruct (Hfinal t1 Hf1) as (t' & Hrun & Hout & Hup).
    exists t'. rewrite Hup, Hu. auto.
Qed.

(** A rule that, on seeing the first block, asks for ["World"] to be
    replaced. *)
Definition replace_world (buf : list byte) (es : list edit_t)
  : ib_status_t * list edit_t :=
  (IB_OK, match es with [] => [mk_edit 5 5 (bytes_of "There")] | _ => es end).

(** A rule that, on seeing the first block, asks for two replacements, the
    later one in the stream first. *)
Definition greet_there (buf : list byte) (es : list edit_t)
  : ib_status_t * list edit_t :=
  (IB_OK,
   match es with
   | [] => [mk_edit 5 5 (bytes_of "There"); mk_edit 0 1 (bytes_of "J")]
   | _ => es
   end).

Lemma edits_applied_to_buffered_body_witness :
  exists t',
    process_data (@stable_qsort edit_t) greet_there false false
      (start_txn IOBUF_BUFFER_ALL 0 [] [bytes_of "Hell"; bytes_of "oWorld"])
    = Done t' /\
    output_buffer (fctx t') =
      replace_ascending (concat [bytes_of "Hell"; bytes_of "oWorld"]) 0
        (apply_order (@stable_qsort edit_t)
           (notified greet_there [bytes_of "Hell"; bytes_of "oWorld"] [])) /\
    upstream t' = [TS_EVENT_VCONN_WRITE_COMPLETE].
Proof.
  apply (edits_applied_to_buffered_body (@stable_qsort edit_t) greet_there 0 []
           [bytes_of "Hell"; bytes_of "oWorld"]).
  - apply stable_qsort_contract.
  - each_edit ltac:(simpl; lia).
  - each_edit ltac:(simpl; lia).
  - each_edit ltac:(unfold edit_end; simpl; lia).
  - split; [each_edit ltac:(unfold separated, edit_end; simpl; lia)|].
    split; [apply Forall_nil|exact I].
  - split; [each_edit ltac:(unfold tie_free; simpl; lia)|].
    split; [apply Forall_nil|exact I].
Defined.

Example greeting_output :
  data_output
    (process_data (@stable_qsort edit_t) greet_there false false
       (start_txn IOBUF_BUFFER_ALL 0 [] [bytes_of "Hell"; bytes_of "oWorld"]))
  = Some (bytes_of "JelloThere").
Proof. vm_compute. reflexivity. Qed.

Example buffered_body_output :
  data_output
    (process_data (@stable_qsort edit_t) replace_world false false
       (start_txn IOBUF_BUFFER_ALL 0 [] [bytes_of "Hell"; bytes_of "oWorld"]))
  = Some (bytes_of "HelloThere").
Proof. vm_compute. reflexivity. Qed.

(** Scenario S1 of the specification: five blocks of two bytes in mode
    [nobuf]; and scenario S3: ["Hello"] then ["World"] with an edit across
    the two, which makes the first flush return [IB_EAGAIN]. *)
Example five_blocks_nobuf :
  data_output
    (process_data (@stable_qsort edit_t) no_rules false false
       (start_txn IOBUF_NOBUF 0 []
          [bytes_of "He"; bytes_of "ll"; bytes_of "oW"; bytes_of "or";
           bytes_of "ld"]))
  = Some (bytes_of "HelloWorld").
Proof. vm_compute. reflexivity. Qed.

Example edit_across_two_blocks :
  chunk_result
    (buffer_data_chunk (@stable_qsort edit_t)
       (fresh_fctx IOBUF_NOBUF 0 [mk_edit 3 4 (bytes_of "p!")])
       (bytes_of "Hello") 5)
  = Some (IB_EAGAIN, bytes_of "Hel", bytes_of "lo") /\
  match process_data (@stable_qsort edit_t) no_rules false false
          (start_txn IOBUF_NOBUF 0 [mk_edit 3 4 (bytes_of "p!")]
             [bytes_of "Hello"; bytes_of "World"]) with
  | Done t => Some (output_buffer (fctx t), offs (fctx t))
  | _ => None
  end = Some (bytes_of "Help!rld", -2).
Proof. split; vm_compute; reflexivity. Qed.

(** *** The counters of the context *)

(** [buffered] counts what the reader holds, the limit is a [size_t], and no
    edit deletes a negative number of bytes. *)
Definition consistent (f : tsib_filter_ctx) : Prop :=
  buffered f = avail f /\ 0 <= buf_limit f /\ edits_wf (edits f).

Lemma edits_wf_removelast l : edits_wf l -> edits_wf (removelast l).
Proof.
  intros Hl. unfold edits_wf in *. rewrite Forall_forall in *.
  intros x Hx. apply Hl.
  destruct l as [|y l]; [contradiction|].
  rewrite (app_removelast_last y (l := y :: l)) by discriminate.
  apply in_or_app. left. exact Hx.
Qed.

Lemma edit_loop_edits_wf todo : forall g nb rc last g' nb' rc',
  edit_loop todo g nb rc last = Done (g', nb', rc') ->
  edits_wf (edits g) -> edits_wf (edits g').
Proof.
  induction todo as [|e todo IH]; intros g nb rc last g' nb' rc' Hloop Hg.
  - simpl in Hloop. inversion Hloop; subst. exact Hg.
  - rewrite edit_loop_cons in Hloop.
    destruct (Z.ltb_spec (start e) (bytes_done g)).
    { eapply IH; [exact Hloop|]. apply edits_wf_removelast, Hg. }
    destruct (Z.ltb_spec (bytes_done g + nb) (start e + bytes e)).
    { destruct last; simpl in Hloop.
      - eapply IH; [exact Hloop|]. apply edits_wf_removelast, Hg.
      - inversion Hloop; subst. exact Hg. }
    destruct (Z.leb_spec (start e - bytes_done g) (avail g)); [|discriminate].
    eapply IH; [exact Hloop|]. simpl. apply edits_wf_removelast, Hg.
Qed.

Lemma flush_data_consumed qsort f nbytes last rc f' :
  qsort_permutes qsort -> edits_wf (edits f) ->
  0 <= requested f nbytes <= avail f ->
  flush_data qsort f nbytes last = Done (rc, f') ->
  exists k, 0 <= k <= avail f /\ consumed f f' k /\ edits_wf (edits f').
Proof.
  intros Hq Hwf Hn Hrun.
  destruct (edits f) as [|e0 es] eqn:He.
  { rewrite flush_data_no_edits in Hrun by assumption.
    inversion Hrun; subst. exists (requested f nbytes).
    split; [lia|]. split; [apply consumed_finish, consumed_advance; lia|].
    simpl. rewrite He. constructor. }
  assert (Hne : edits f <> []) by congruence.
  rewrite flush_data_nonempty in Hrun by exact Hne.
  set (f0 := set_edits f (qsort qcompare (edits f))) in *.
  assert (Hwf0 : edits_wf (apply_order qsort (edits f))).
  { unfold apply_order. apply Forall_rev.
    eapply Permutation_Forall; [symmetry; apply Hq|]. rewrite He. exact Hwf. }
  destruct (edit_loop_run (apply_order qsort (edits f)) f0
              (requested f nbytes) IB_OK last Hn Hwf0)
    as (f1 & nb1 & rc1 & k & Hloop & Hk & Hc & _).
  rewrite Hloop in Hrun. cbn [run_bind] in Hrun.
  destruct (copy_rest (copy_fuel f1) f1 nb1) as [f2| |] eqn:E2;
    cbn [run_bind] in Hrun; try discriminate.
  inversion Hrun; subst.
  assert (Ha1 : avail f1 = avail f - k).
  { change (avail f) with (avail f0). eapply consumed_avail; [|exact Hc].
    change (avail f0) with (avail f). lia. }
  assert (Hed : edits_wf (edits f1)).
  { eapply edit_loop_edits_wf; [exact Hloop|].
    unfold f0. simpl. eapply Permutation_Forall; [symmetry; apply Hq|].
    rewrite He. exact Hwf. }
  apply copy_rest_Done in E2. destruct E2 as [[Hnb ->]|[Hnb ->]].
  - exists k. split; [lia|]. split; [|exact Hed].
    apply consumed_finish.
    replace k with (0 + k) by lia.
    eapply consumed_trans; [lia|lia|apply consumed_set_edits|exact Hc].
  - exists (k + nb1). split; [lia|]. split; [|exact Hed].
    apply consumed_finish.
    replace (k + nb1) with (0 + (k + nb1)) by lia.
    eapply consumed_trans; [lia|lia|apply consumed_set_edits|].
    eapply consumed_trans; [lia|lia|exact Hc|apply consumed_advance; lia].
Qed.

Lemma consistent_consumed f f' k :
  consistent f -> 0 <= k <= avail f -> consumed f f' k ->
  edits_wf (edits f') -> consistent f' /\ bytes_done f <= bytes_done f'.
Proof.
  intros (Hb & Hl & _) Hk Hc Hwf.
  pose proof (consumed_avail f f' k Hk Hc) as Ha.
  destruct Hc as (_ & Hbf & Hbd & _ & Hlim).
  repeat split; try assumption; lia.
Qed.

(** The counters of the filter: whatever [flush_data] and
    [buffer_data_chunk] are asked, when they return [bytes_done] has not
    decreased and [buffered] still counts what the reader holds. *)
Theorem counters_kept :
  forall qsort (f : tsib_filter_ctx),
    qsort_permutes qsort -> consistent f ->
    (forall nbytes last rc f',
        0 <= requested f nbytes <= avail f ->
        flush_data qsort f nbytes last = Done (rc, f') ->
        consistent f' /\ bytes_done f <= bytes_done f') /\
    (forall input nbytes rc f',
        0 <= nbytes ->
        buffer_data_chunk qsort f input nbytes = Done (rc, f') ->
        consistent f' /\ bytes_done f <= bytes_done f').
Proof.
  intros qsort f Hq Hcons.
  assert (Hflush : forall g nbytes last rc g',
    consistent g -> 0 <= requested g nbytes <= avail g ->
    flush_data qsort g nbytes last = Done (rc, g') ->
    consistent g' /\ bytes_done g <= bytes_done g').
  { intros g nbytes last rc g' Hg Hn Hrun.
    destruct (flush_data_consumed qsort g nbytes last rc g' Hq (proj2 (proj2 Hg))
                Hn Hrun) as (k & Hk & Hc & Hwf).
    eapply consistent_consumed; eauto. }
  assert (Hall : forall g, consistent g -> 0 <= requested g (-1) <= avail g).
  { intros g (Hb & _). change (requested g (-1)) with (buffered g).
    pose proof (avail_nonneg g). lia. }
  split; [intros; eapply Hflush; eauto|].
  intros input n rc f' Hn Hrun. unfold buffer_data_chunk in Hrun.
  destruct (iobuf_mode_eqb (buffering f) IOBUF_DISCARD).
  { inversion Hrun; subst. destruct Hcons as (Hb & Hl & Hwf).
    unfold discard_buffered. destruct (Z.ltb_spec 0 (buffered f)).
    - unfold consistent, avail, TSIOBufferReaderAvail, TSIOBufferReaderConsume.
      simpl. rewrite length_skipn.
      unfold avail, TSIOBufferReaderAvail in Hb. repeat split; auto; lia.
    - repeat split; auto; lia. }
  match type of Hrun with
  | run_bind ?m _ = _ => destruct m as [[rc1 f1]| |] eqn:E1
  end; cbn [run_bind] in Hrun; try discriminate.
  assert (H1 : consistent f1 /\ bytes_done f <= bytes_done f1).
  { destruct (iobuf_mode_eqb (buffering f) IOBUF_BUFFER_FLUSHALL
              && (buf_limit f <? buffered f + n)).
    - eapply Hflush; eauto.
    - inversion E1; subst. split; [exact Hcons|lia]. }
  destruct H1 as [Hc1 Hm1].
  set (f2 := buffer_chunk f1 input n) in *.
  assert (Hc2 : consistent f2 /\ bytes_done f2 = bytes_done f1).
  { destruct Hc1 as (Hb & Hl & Hwf).
    unfold f2, consistent, buffer_chunk, TSIOBufferCopy, avail,
      TSIOBufferReaderAvail in *. simpl.
    rewrite length_app, Nat2Z.inj_add, length_firstn. repeat split; auto. lia. }
  destruct Hc2 as [Hc2 Hbd2].
  destruct (iobuf_mode_eqb (buffering f2) IOBUF_NOBUF).
  { destruct (Hflush f2 (-1) false rc f' Hc2 (Hall f2 Hc2) Hrun). split; [auto|lia]. }
  destruct (iobuf_mode_eqb (buffering f2) IOBUF_BUFFER_FLUSHPART
            && (buf_limit f2 <? buffered f2)) eqn:Ep.
  { apply andb_prop in Ep. destruct Ep as [_ Ep]. apply Z.ltb_lt in Ep.
    destruct (Hflush f2 (buffered f2 - buf_limit f2) false rc f' Hc2) as [Ha Hb];
      [|exact Hrun|split; [auto|lia]].
    destruct Hc2 as (Hb & Hl & _). unfold requested.
    destruct (Z.eqb_spec (buffered f2 - buf_limit f2) (-1)); lia. }
  inversion Hrun; subst. split; [exact Hc2|lia].
Qed.

Lemma counters_kept_witness :
  consistent (finish (advance (set_edits stale_then_straddling
                                 [mk_edit 8 4 (bytes_of "p!")]) 3) false) /\
  bytes_done stale_then_straddling
  <= bytes_done (finish (advance (set_edits stale_then_straddling
                                    [mk_edit 8 4 (bytes_of "p!")]) 3) false).
Proof.
  assert (Hq : qsort_permutes (@stable_qsort edit_t))
    by (intros cmp l; apply stable_qsort_perm).
  assert (Hc : consistent stale_then_straddling).
  { split; [reflexivity|]. split; [simpl; lia|]. each_edit ltac:(simpl; lia). }
  apply (proj1 (counters_kept (@stable_qsort edit_t) stale_then_straddling Hq Hc)
               (-1) false IB_EAGAIN).
  - vm_compute. split; discriminate.
  - vm_compute. reflexivity.
Defined.

(** An edit that ends exactly where the bytes to flush end is applied: the
    bytes before it are copied, its range is consumed, its replacement is
    written, and nothing is left to copy after it. *)
Lemma edit_at_horizon_applied e todo f nb rc last :
  bytes_done f <= start e -> 0 <= bytes e ->
  edit_end e = bytes_done f + nb -> nb <= avail f ->
  edit_loop (e :: todo) f nb rc last =
  edit_loop todo (splice (advance f (start e - bytes_done f)) e) 0 rc last.
Proof.
  intros H1 H2 H3 H4. unfold edit_end in H3. rewrite edit_loop_cons.
  destruct (Z.ltb_spec (start e) (bytes_done f)); [lia|].
  destruct (Z.ltb_spec (bytes_done f + nb) (start e + bytes e)); [lia|].
  destruct (Z.leb_spec (start e - bytes_done f) (avail f)); [|lia].
  f_equal. lia.
Qed.

(** An insertion at the very end of the buffered data, in a flush that is
    not the last. *)
Example insertion_at_horizon :
  flush_output
    (flush_data (@stable_qsort edit_t)
       (whole_stream (bytes_of "Hello") [mk_edit 5 0 (bytes_of "!")]) (-1) false)
  = Some (IB_OK, bytes_of "Hello!").
Proof. vm_compute. reflexivity. Qed.

(** The difference of two starts that are 2^32 apart wraps to 0 in the
    [int] that [qcompare] returns: the two edits compare equal. *)
Example qcompare_wraps :
  qcompare (mk_edit 0 0 []) (mk_edit (2 ^ 32) 0 []) = 0 /\
  qcompare (mk_edit 0 0 []) (mk_edit (2 ^ 31) 0 []) = - 2 ^ 31.
Proof. split; vm_compute; reflexivity. Qed.

(** ** The claim about edits that are dropped *)

(** The error log, the output buffer and the events sent upstream that a
    call of [process_data] left. *)
Definition data_result (r : run tsib_txn_ctx)
  : option (list string * list byte * list TSEvent) :=
  match r with
  | Done t => Some (tx_log t, output_buffer (fctx t), upstream t)
  | _ => None
  end.

(** An edit that starts before [bytes_done] is dropped by the loop: the edit
    list loses it, nothing else changes, and the status becomes
    [IB_EBADVAL]. *)
Lemma stale_edit_dropped e todo f nb rc last :
  start e < bytes_done f ->
  edit_loop (e :: todo) f nb rc last =
  edit_loop todo (set_edits f (removelast (edits f))) nb IB_EBADVAL last.
Proof.
  intros H. rewrite edit_loop_cons.
  destruct (Z.ltb_spec (start e) (bytes_done f)); [reflexivity|lia].
Qed.

(** So is, on the last flush, an edit that reaches beyond the bytes there
    are. *)
Lemma edit_beyond_end_dropped e todo f nb rc :
  bytes_done f <= start e ->
  bytes_done f + nb < edit_end e ->
  edit_loop (e :: todo) f nb rc true =
  edit_loop todo (set_edits f (removelast (edits f))) nb IB_EBADVAL true.
Proof.
  intros H1 H2. unfold edit_end in H2. rewrite edit_loop_cons.
  destruct (Z.ltb_spec (start e) (bytes_done f)); [lia|].
  destruct (Z.ltb_spec (bytes_done f + nb) (start e + bytes e)); [reflexivity|lia].
Qed.

(** When [buffer_data_chunk] returns [IB_EBADVAL], [process_data] logs the
    error, consumes the block and goes on with the next one. *)
Lemma invalid_edit_logged qsort notify buf rest t f' :
  0 < TSIOBufferReaderAvail (concat (buf :: rest)) ->
  notify buf (edits (fctx t)) = (IB_OK, edits (fctx t)) ->
  buffer_data_chunk qsort (fctx t) (concat (buf :: rest))
                    (Z.of_nat (length buf)) = Done (IB_EBADVAL, f') ->
  process_blocks qsort notify (buf :: rest) t =
  process_blocks qsort notify rest
    (consume_block
       (log_error_tx (set_fctx t f') "Bad/Inconsistent stream edit(s) ignored.")
       rest (Z.of_nat (length buf))).
Proof.
  intros Hav Hn Hrun. cbn [process_blocks].
  destruct (Z.ltb_spec 0 (TSIOBufferReaderAvail (concat (buf :: rest)))); [|lia].
  rewrite Hn. cbn [ib_status_eqb]. rewrite set_edits_same, Hrun. reflexivity.
Qed.

(** Scenario S4 of the specification, in mode [nobuf]: the second of two
    overlapping edits is dropped, the error is logged and the data goes
    through. *)
Example overlapping_edits_logged :
  data_result
    (process_data (@stable_qsort edit_t) no_rules false false
       (start_txn IOBUF_NOBUF 0
          [mk_edit 0 3 (bytes_of "x"); mk_edit 1 2 (bytes_of "y")]
          [bytes_of "Hello"]))
  = Some (["Bad/Inconsistent stream edit(s) ignored."%string],
          bytes_of "xlo", [TS_EVENT_VCONN_WRITE_COMPLETE]).
Proof. vm_compute. reflexivity. Qed.

(** C4 on the last flush at the end of the stream.  The whole of ["Hello"]
    is buffered and an edit reaches two bytes beyond it.  The last flush
    drops the edit and returns [IB_EBADVAL]; [process_data], which calls it
    once all the input is consumed (line 444), does not look at the status,
    so nothing is logged.  The branch for a null input buffer (lines
    335-341) makes the same call and logs the error. *)
Theorem C4_last_flush_error_not_logged :
  flush_output
    (flush_data (@stable_qsort edit_t)
       (whole_stream (bytes_of "Hello") [mk_edit 3 4 (bytes_of "p!")])
       (-1) true)
  = Some (IB_EBADVAL, bytes_of "Hello") /\
  data_result
    (process_data (@stable_qsort edit_t) no_rules false false
       (start_txn IOBUF_BUFFER_ALL 0 [mk_edit 3 4 (bytes_of "p!")]
                  [bytes_of "Hello"]))
  = Some ([], bytes_of "Hello", [TS_EVENT_VCONN_WRITE_COMPLETE]) /\
  data_result
    (process_data (@stable_qsort edit_t) no_rules false true
       (mk_txn (whole_stream (bytes_of "Hello") [mk_edit 3 4 (bytes_of "p!")])
               5 5 [] [] []))
  = Some (["Bad/Inconsistent stream edit(s) ignored."%string],
          bytes_of "Hello", []).
Proof. repeat split; vm_compute; reflexivity. Qed.

End TsFilterFacts.

(** * Properties of the rules module *)

Module RulesFacts.
Import Rules.

(** ** The script gate *)

Section Gate.
Variable world : Type.
Variable lua_State : Type.
Variable ib_lock_lock : world -> ib_status_t * world.
Variable ib_lock_unlock : world -> ib_status_t * world.
Variable ib_lua_new_thread : critical_section_fn_t world lua_State.
Variable ib_lua_join_thread : critical_section_fn_t world lua_State.
Variable ib_lua_func_eval_int :
  world -> option lua_State -> cstr -> ib_status_t * Z * world.

Lemma status_neq rc : rc <> IB_OK -> negb (ib_status_eqb rc IB_OK) = true.
Proof. destruct rc; simpl; congruence. Qed.

(** When the lock cannot be taken, the critical call is not made. *)
Lemma call_in_critical_section_locked w log fn L rc w1 :
  ib_lock_lock w = (rc, w1) -> rc <> IB_OK ->
  call_in_critical_section world lua_State ib_lock_lock ib_lock_unlock
    (w, log) fn L
  = (rc, L, (w1, log ++ ["Failed to lock Lua context."%string])).
Proof.
  intros Hl Hrc. unfold call_in_critical_section. cbn [fst snd].
  rewrite Hl, (status_neq rc Hrc). reflexivity.
Qed.

Lemma call_in_critical_section_ok w log fn L w1 L1 w2 w3 :
  ib_lock_lock w = (IB_OK, w1) -> fn w1 L = (IB_OK, L1, w2) ->
  ib_lock_unlock w2 = (IB_OK, w3) ->
  call_in_critical_section world lua_State ib_lock_lock ib_lock_unlock
    (w, log) fn L
  = (IB_OK, L1, (w3, log)).
Proof.
  intros Hl Hf Hu. unfold call_in_critical_section. cbn [fst snd].
  rewrite Hl. cbn [ib_status_eqb negb]. rewrite Hf, Hu. reflexivity.
Qed.

End Gate.

(** A world for examples: the statuses the next attempts to take the lock
    will return (none left: [IB_OK]).  Threads are made and joined without
    fail and the script returns 1. *)
Definition scripted_lock (w : list ib_status_t) : ib_status_t * list ib_status_t :=
  match w with
  | [] => (IB_OK, [])
  | rc :: w' => (rc, w')
  end.

Definition easy_unlock (w : list ib_status_t) : ib_status_t * list ib_status_t :=
  (IB_OK, w).

Definition easy_thread : critical_section_fn_t (list ib_status_t) unit :=
  fun w _ => (IB_OK, Some tt, w).

Definition script_true (w : list ib_status_t) (L : option unit) (name : cstr)
  : ib_status_t * Z * list ib_status_t := (IB_OK, 1, w).

Definition run_script (w : list ib_status_t) (result : Z)
  : ib_status_t * Z * engine (list ib_status_t) :=
  lua_operator_execute (list ib_status_t) unit scripted_lock easy_unlock
    easy_thread easy_thread script_true (w, []) (cstr_of "99") result.

(** C8, as the code has it.  When the lock cannot be taken to create the
    Lua thread, [lua_operator_execute] returns the status of the lock and
    logs the failure; the script is not run and [*result] is not written: it
    holds what the caller had put there.  When the lock cannot be taken to
    dispose of the thread, after the script ran, the status of the lock is
    returned and [*result] holds the result of the script. *)
Theorem C8_gate_failure_returns_lock_status :
  forall world lua_State ib_lock_lock ib_lock_unlock
         (ib_lua_new_thread ib_lua_join_thread : critical_section_fn_t world lua_State)
         ib_lua_func_eval_int w log func_name result rc,
    rc <> IB_OK ->
    (forall w1,
       ib_lock_lock w = (rc, w1) ->
       lua_operator_execute world lua_State ib_lock_lock ib_lock_unlock
         ib_lua_new_thread ib_lua_join_thread ib_lua_func_eval_int
         (w, log) func_name result
       = (rc, result, (w1, log ++ ["Failed to lock Lua context."%string]))) /\
    (forall w1 L w2 w3 v w4 w5,
       ib_lock_lock w = (IB_OK, w1) ->
       ib_lua_new_thread w1 None = (IB_OK, L, w2) ->
       ib_lock_unlock w2 = (IB_OK, w3) ->
       ib_lua_func_eval_int w3 L func_name = (IB_OK, v, w4) ->
       ib_lock_lock w4 = (rc, w5) ->
       lua_operator_execute world lua_State ib_lock_lock ib_lock_unlock
         ib_lua_new_thread ib_lua_join_thread ib_lua_func_eval_int
         (w, log) func_name result
       = (rc, v, (w5, log ++ ["Failed to lock Lua context."%string]))).
Proof.
  intros world lua_State lock unlock newt joint eval w log name result rc Hrc.
  split.
  - intros w1 Hl. unfold lua_operator_execute, ib_lua_func_eval_r.
    rewrite (call_in_critical_section_locked _ _ _ _ w log newt None rc w1 Hl Hrc).
    rewrite (status_neq rc Hrc). reflexivity.
  - intros w1 L w2 w3 v w4 w5 Hl Hn Hu He Hl2.
    unfold lua_operator_execute, ib_lua_func_eval_r.
    rewrite (call_in_critical_section_ok _ _ _ _ w log newt None w1 L w2 w3 Hl Hn Hu).
    cbn [ib_status_eqb negb fst snd]. rewrite He. cbn [ib_status_eqb negb].
    rewrite (call_in_critical_section_locked _ _ _ _ w4 log joint L rc w5 Hl2 Hrc).
    reflexivity.
Qed.

Lemma C8_witness :
  run_script [IB_EUNKNOWN] 0
  = (IB_EUNKNOWN, 0, ([], ["Failed to lock Lua context."%string])).
Proof.
  apply (C8_gate_failure_returns_lock_status (list ib_status_t) unit
           scripted_lock easy_unlock easy_thread easy_thread script_true
           [IB_EUNKNOWN] [] (cstr_of "99") 0 IB_EUNKNOWN).
  - discriminate.
  - reflexivity.
Defined.

(** C8 as stated fails: the result is not set to 0.  A caller that enters
    with [*result = 1] finds 1 after the lock failed; and when the lock
    fails for the disposal of the thread, the caller finds the 1 of the
    script together with the error status. *)
Lemma C8_counterexample :
  run_script [IB_EUNKNOWN] 1
  = (IB_EUNKNOWN, 1, ([], ["Failed to lock Lua context."%string])) /\
  run_script [IB_OK; IB_EUNKNOWN] 0
  = (IB_EUNKNOWN, 1, ([], ["Failed to lock Lua context."%string])).
Proof. split; reflexivity. Qed.

(** ** parse_inputs *)

(** ** parse_operator *)

(** In the words of the specification: optional white space, an optional
    single ['!'], then ['@'] followed by a non-empty tail. *)
Definition claimed_operator_syntax (str : cstr) : bool :=
  match skip_isspace str with
  | c1 :: c2 :: _ :: _ =>
      (c1 =? "@")%char || ((c1 =? "!")%char && (c2 =? "@")%char)
  | c1 :: _ :: _ => (c1 =? "@")%char
  | _ => false
  end.

(** What the code accepts before ['@']: blanks (space or tab) with at most
    one ['!'] among them. *)
Definition is_bang (c : ascii) : bool := (c =? "!")%char.

Definition blank_or_bang (c : ascii) : bool := isblank c || is_bang c.

Definition bangs (pre : cstr) : nat := length (filter is_bang pre).

Definition operator_prefix (pre : cstr) : Prop :=
  forallb blank_or_bang pre = true /\ (bangs pre <= 1)%nat.

(** The operator string is [pre], ['@'] and a non-empty [tail]. *)
Definition operator_syntax (str pre tail : cstr) : Prop :=
  str = pre ++ "@"%char :: tail /\ operator_prefix pre /\ tail <> [].

(** In the words of the specification: the name is what stands before the
    first space of the tail; the arguments are what stands after it, with
    leading white space and trailing spaces stripped, and absent when
    nothing is left. *)
Fixpoint operator_name (tail : cstr) : cstr :=
  match tail with
  | [] => []
  | c :: tail' => if (c =? " ")%char then [] else c :: operator_name tail'
  end.

Fixpoint after_first_space (tail : cstr) : option cstr :=
  match tail with
  | [] => None
  | c :: tail' => if (c =? " ")%char then Some tail' else after_first_space tail'
  end.

Fixpoint drop_trailing_spaces (s : cstr) : cstr :=
  match s with
  | [] => []
  | c :: s' =>
      match drop_trailing_spaces s' with
      | [] => if (c =? " ")%char then [] else [c]
      | t => c :: t
      end
  end.

Definition operator_args (tail : cstr) : option cstr :=
  match after_first_space tail with
  | None => None
  | Some a =>
      match drop_trailing_spaces (skip_isspace a) with
      | [] => None
      | t => Some t
      end
  end.

Lemma isblank_not_bang c : isblank c = true -> is_bang c = false.
Proof.
  unfold isblank, is_bang. intros H. apply orb_prop in H.
  destruct H as [H|H]; apply Ascii.eqb_eq in H; subst; reflexivity.
Qed.

Lemma isblank_not_at c : isblank c = true -> (c =? "@")%char = false.
Proof.
  unfold isblank. intros H. apply orb_prop in H.
  destruct H as [H|H]; apply Ascii.eqb_eq in H; subst; reflexivity.
Qed.

Lemma drop_trailing_spaces_snoc s c :
  drop_trailing_spaces (s ++ [c]) =
  if (c =? " ")%char then drop_trailing_spaces s else s ++ [c].
Proof.
  induction s as [|x s IH]; simpl.
  - destruct (c =? " ")%char; reflexivity.
  - rewrite IH. destruct (c =? " ")%char; [reflexivity|].
    destruct (s ++ [c]) eqn:E; [|reflexivity].
    destruct s; discriminate.
Qed.

Lemma trim_end_cons c y r :
  trim_end (c :: y :: r) =
  if (c =? " ")%char then trim_end (y :: r) else c :: y :: r.
Proof. reflexivity. Qed.

(** The loop that strips the trailing spaces never strips the first
    character; when that is no space it strips every trailing space. *)
Lemma trim_end_spec s :
  match s with [] => True | c :: _ => (c =? " ")%char = false end ->
  rev (trim_end (rev s)) = drop_trailing_spaces s.
Proof.
  induction s as [|c s IH] using rev_ind; intros Hhd; [reflexivity|].
  rewrite rev_unit, drop_trailing_spaces_snoc.
  destruct s as [|x s].
  - simpl in *. rewrite Hhd. reflexivity.
  - assert (Hne : exists y r, rev (x :: s) = y :: r).
    { destruct (rev (x :: s)) eqn:E; [|eauto].
      apply (f_equal (@length ascii)) in E. rewrite length_rev in E.
      discriminate. }
    destruct Hne as (y & r & Hr).
    rewrite Hr, trim_end_cons, <- Hr.
    destruct (c =? " ")%char.
    + apply IH. exact Hhd.
    + change (rev (c :: rev (x :: s))) with (rev (rev (x :: s)) ++ [c]).
      rewrite rev_involutive. reflexivity.
Qed.

Lemma skip_isspace_head s :
  match skip_isspace s with [] => True | c :: _ => (c =? " ")%char = false end.
Proof.
  induction s as [|c s IH]; simpl; [exact I|].
  destruct (isspace c) eqn:E; [exact IH|].
  unfold isspace in E. destruct (c =? " ")%char; [discriminate|reflexivity].
Qed.

(** The pointer loops of lines 143-171 compute the name and the arguments of
    the specification. *)
Lemma split_operator_spec tail :
  split_operator tail = (operator_name tail, operator_args tail).
Proof.
  unfold split_operator, operator_args.
  assert (H : strchr_space tail =
              (operator_name tail,
               match after_first_space tail with
               | None => None
               | Some a => Some (" "%char :: a)
               end)).
  { induction tail as [|c tail IH]; simpl; [reflexivity|].
    destruct (Ascii.eqb_spec c " ") as [->|Hc]; [reflexivity|].
    rewrite IH. destruct (after_first_space tail); reflexivity. }
  rewrite H. destruct (after_first_space tail) as [a|]; [|reflexivity].
  change (skip_isspace (" "%char :: a)) with (skip_isspace a).
  rewrite trim_end_spec by apply skip_isspace_head.
  destruct (drop_trailing_spaces (skip_isspace a)); reflexivity.
Qed.

Section Operator.
Variable ib_rule_t : Type.
Variable ib_operator_inst_t : Type.
Variable IB_OPINST_FLAG_NONE : Z.
Variable IB_OPINST_FLAG_INVERT : Z.
Variable ib_operator_inst_create :
  cstr -> option cstr -> Z -> ib_status_t * ib_operator_inst_t.
Variable ib_rule_set_operator :
  ib_rule_t -> ib_operator_inst_t -> ib_status_t * ib_rule_t.

(** The flags after the prefix [pre]: the invert flag is set when a ['!']
    stands in it. *)
Definition flags_after (flags : Z) (pre : cstr) : Z :=
  if (0 <? bangs pre)%nat then Z.lor flags IB_OPINST_FLAG_INVERT else flags.

Definition bang_seen (bang : bool) : nat := if bang then 1%nat else 0%nat.

Lemma scan_operator_complete pre : forall tail bang flags,
  forallb blank_or_bang pre = true ->
  (bangs pre + bang_seen bang <= 1)%nat ->
  scan_operator IB_OPINST_FLAG_INVERT (pre ++ "@"%char :: tail) bang flags
  = ScanAt tail (flags_after flags pre).
Proof.
  induction pre as [|c pre IH]; intros tail bang flags Hok Hb.
  - simpl. rewrite andb_false_r. reflexivity.
  - simpl in Hok. apply andb_prop in Hok. destruct Hok as [Hc Hok].
    unfold blank_or_bang in Hc. unfold bangs in *. cbn [filter] in *.
    cbn [app scan_operator]. fold (is_bang c).
    destruct (is_bang c) eqn:Eb.
    + cbn [length] in Hb. destruct bang; [simpl in Hb; lia|].
      cbn [negb andb]. rewrite IH; [|exact Hok|simpl in *; lia].
      unfold flags_after, bangs. cbn [filter]. rewrite Eb. cbn [length].
      assert (H0 : length (filter is_bang pre) = 0%nat) by (simpl in Hb; lia).
      rewrite H0. reflexivity.
    + rewrite andb_false_r. rewrite orb_false_r in Hc.
      rewrite (isblank_not_at c Hc), Hc. cbn [negb].
      rewrite IH; [|exact Hok|exact Hb].
      unfold flags_after, bangs. cbn [filter]. rewrite Eb. reflexivity.
Qed.

Lemma scan_operator_sound str : forall bang flags tail fl,
  scan_operator IB_OPINST_FLAG_INVERT str bang flags = ScanAt tail fl ->
  exists pre,
    str = pre ++ "@"%char :: tail /\
    forallb blank_or_bang pre = true /\
    (bangs pre + bang_seen bang <= 1)%nat /\
    fl = flags_after flags pre.
Proof.
  induction str as [|c str IH]; intros bang flags tail fl H; [discriminate|].
  cbn [scan_operator] in H. fold (is_bang c) in H.
  destruct (negb bang && is_bang c) eqn:E1.
  - apply andb_prop in E1. destruct E1 as [Hb Hc].
    destruct bang; [discriminate|].
    apply IH in H. destruct H as (pre & -> & Hok & Hn & ->).
    exists (c :: pre). unfold bangs, flags_after, blank_or_bang in *.
    cbn [forallb filter]. rewrite Hc. cbn [length bang_seen] in *.
    rewrite orb_true_r. repeat split; auto; try lia.
    assert (H0 : length (filter is_bang pre) = 0%nat) by lia.
    unfold bangs. cbn [filter]. rewrite Hc. cbn [length]. rewrite H0.
    reflexivity.
  - destruct (Ascii.eqb_spec c "@") as [->|Hat].
    + inversion H; subst. exists []. unfold flags_after, bangs. simpl.
      repeat split. destruct bang; simpl; lia.
    + destruct (isblank c) eqn:Eblank; [|discriminate]. cbn [negb] in H.
      apply IH in H. destruct H as (pre & -> & Hok & Hn & ->).
      exists (c :: pre). unfold bangs, flags_after, blank_or_bang in *.
      cbn [forallb filter]. rewrite (isblank_not_bang c Eblank), Eblank.
      repeat split; auto.
      unfold bangs. cbn [filter]. rewrite (isblank_not_bang c Eblank).
      reflexivity.
Qed.

(** What [parse_operator] does with an operator string of the right form:
    it has the operator instance created from the name, the arguments and
    the flags, and sets it on the rule. *)
Definition operator_call (rule : ib_rule_t) (pre tail : cstr)
  : ib_status_t * ib_rule_t :=
  let (rc, operator) :=
    ib_operator_inst_create (operator_name tail) (operator_args tail)
                            (flags_after IB_OPINST_FLAG_NONE pre) in
  if negb (ib_status_eqb rc IB_OK) then (rc, rule)
  else ib_rule_set_operator rule operator.

Lemma parse_operator_accepts rule str pre tail :
  operator_syntax str pre tail ->
  parse_operator ib_rule_t ib_operator_inst_t IB_OPINST_FLAG_NONE
    IB_OPINST_FLAG_INVERT Some ib_operator_inst_create ib_rule_set_operator
    rule str
  = operator_call rule pre tail.
Proof.
  intros (-> & [Hok Hn] & Ht). unfold parse_operator.
  rewrite scan_operator_complete; [|exact Hok|simpl; lia].
  destruct tail as [|c tail]; [congruence|]. cbn [length Nat.eqb].
  rewrite split_operator_spec. reflexivity.
Qed.

Lemma parse_operator_rejects rule str :
  (forall pre tail, ~ operator_syntax str pre tail) ->
  parse_operator ib_rule_t ib_operator_inst_t IB_OPINST_FLAG_NONE
    IB_OPINST_FLAG_INVERT Some ib_operator_inst_create ib_rule_set_operator
    rule str
  = (IB_EINVAL, rule).
Proof.
  intros Hno. unfold parse_operator.
  destruct (scan_operator IB_OPINST_FLAG_INVERT str false IB_OPINST_FLAG_NONE)
    as [| |tail fl] eqn:E; try reflexivity.
  destruct tail as [|c tail]; [reflexivity|].
  exfalso. apply scan_operator_sound in E.
  destruct E as (pre & Hs & Hok & Hn & _).
  apply (Hno pre (c :: tail)). repeat split; auto.
  - simpl in Hn. lia.
  - discriminate.
Qed.

Lemma operator_syntax_dec str :
  (exists pre tail, operator_syntax str pre tail) \/
  (forall pre tail, ~ operator_syntax str pre tail).
Proof.
  destruct (scan_operator IB_OPINST_FLAG_INVERT str false IB_OPINST_FLAG_NONE)
    as [| |tail fl] eqn:E.
  - right. intros pre tail (-> & [Hok Hn] & _).
    rewrite scan_operator_complete in E; [discriminate|exact Hok|simpl; lia].
  - right. intros pre tail (-> & [Hok Hn] & _).
    rewrite scan_operator_complete in E; [discriminate|exact Hok|simpl; lia].
  - destruct tail as [|c tail].
    + right. intros pre tail (-> & [Hok Hn] & Ht).
      rewrite scan_operator_complete in E; [|exact Hok|simpl; lia].
      inversion E. congruence.
    + left. apply scan_operator_sound in E.
      destruct E as (pre & Hs & Hok & Hn & _).
      exists pre, (c :: tail). repeat split; auto.
      * simpl in Hn. lia.
      * discriminate.
Qed.

Lemma operator_call_ok rule pre tail :
  (forall op args flags, fst (ib_operator_inst_create op args flags) = IB_OK) ->
  (forall r o, fst (ib_rule_set_operator r o) = IB_OK) ->
  fst (operator_call rule pre tail) = IB_OK.
Proof.
  intros Hc Hs. unfold operator_call.
  pose proof (Hc (operator_name tail) (operator_args tail)
                 (flags_after IB_OPINST_FLAG_NONE pre)) as H.
  destruct (ib_operator_inst_create (operator_name tail) (operator_args tail)
              (flags_after IB_OPINST_FLAG_NONE pre)) as [rc oi].
  simpl in H. subst rc. simpl. apply Hs.
Qed.

End Operator.

(** An engine for examples.  A rule records what the parser did to it; an
    operator or action instance is its name, its arguments and its flags;
    the invert flag is bit 0; every call succeeds, and registration asks for
    an id and an operator. *)
Record example_rule : Type := mk_rule {
  rule_id : option string;
  rule_flags : Z;
  rule_inputs : list string;
  rule_operator : option (string * option string * Z);
  rule_true_actions : list string;
  rule_false_actions : list string
}.

Definition new_rule : example_rule := mk_rule None 0 [] None [] [].

Definition example_create (op : cstr) (args : option cstr) (flags : Z)
  : ib_status_t * (string * option string * Z) :=
  (IB_OK, (string_of_list_ascii op, option_map string_of_list_ascii args, flags)).

Definition example_set (rule : example_rule)
    (operator : string * option string * Z) : ib_status_t * example_rule :=
  (IB_OK, mk_rule (rule_id rule) (rule_flags rule) (rule_inputs rule)
                  (Some operator) (rule_true_actions rule)
                  (rule_false_actions rule)).

Definition example_add_input (rule : example_rule) (input : cstr)
  : ib_status_t * example_rule :=
  (IB_OK, mk_rule (rule_id rule) (rule_flags rule)
                  (rule_inputs rule ++ [string_of_list_ascii input])
                  (rule_operator rule) (rule_true_actions rule)
                  (rule_false_actions rule)).

Definition example_set_id (rule : example_rule) (id : cstr)
  : ib_status_t * example_rule :=
  (IB_OK, mk_rule (Some (string_of_list_ascii id)) (rule_flags rule)
                  (rule_inputs rule) (rule_operator rule)
                  (rule_true_actions rule) (rule_false_actions rule)).

Definition example_update_flags (rule : example_rule) (op mask : Z)
  : ib_status_t * example_rule :=
  (IB_OK, mk_rule (rule_id rule) (Z.lor (rule_flags rule) mask)
                  (rule_inputs rule) (rule_operator rule)
                  (rule_true_actions rule) (rule_false_actions rule)).

Definition example_add_action (rule : example_rule)
    (action : string * option string * Z) (kind : ib_rule_action_t)
  : ib_status_t * example_rule :=
  (IB_OK,
   match kind with
   | RULE_ACTION_TRUE =>
       mk_rule (rule_id rule) (rule_flags rule) (rule_inputs rule)
               (rule_operator rule)
               (rule_true_actions rule ++ [fst (fst action)])
               (rule_false_actions rule)
   | RULE_ACTION_FALSE =>
       mk_rule (rule_id rule) (rule_flags rule) (rule_inputs rule)
               (rule_operator rule) (rule_true_actions rule)
               (rule_false_actions rule ++ [fst (fst action)])
   end).

Definition example_register (rule : example_rule) (phase : ib_rule_phase_t)
  : ib_status_t :=
  match rule_id rule, rule_operator rule with
  | Some _, Some _ => IB_OK
  | _, _ => IB_EINVAL
  end.

Definition example_parse (str : string) : ib_status_t * example_rule :=
  parse_operator _ _ 0 1 Some example_create example_set new_rule (cstr_of str).

Definition example_directive (vars : list string)
  : ib_status_t * option (example_rule * ib_rule_phase_t) :=
  rules_rule_params _ _ 0 1 Some example_create example_set example_add_input
    _ 0 0 (IB_OK, new_rule) example_set_id example_update_flags example_create
    example_add_action example_register (map cstr_of vars).

(** What [example_parse] returns for a string it takes. *)
Definition parsed (name : string) (args : option string) (flags : Z)
  : ib_status_t * example_rule :=
  (IB_OK, mk_rule None 0 [] (Some (name, args, flags)) [] []).

(** Scenario S5 of the specification, and an operator that is inverted and
    has trailing spaces after its arguments. *)
Example parse_rx : example_parse "@rx ^foo" = parsed "rx" (Some "^foo"%string) 0.
Proof. reflexivity. Qed.

Example parse_inverted :
  example_parse " !@streq  a b  " = parsed "streq" (Some "a b"%string) 1.
Proof. reflexivity. Qed.

Example directive_S5 :
  example_directive ["ARGS"; "@rx ^foo"; "phase:REQUEST_HEADER"; "id:1"; "block"]%string
  = (IB_OK,
     Some (mk_rule (Some "1") 0 ["ARGS"] (Some ("rx", Some "^foo", 0)) ["block"] [],
           PHASE_REQUEST_HEADER))%string.
Proof. reflexivity. Qed.

(** ** parse_inputs and the Rule directive *)

(** C9 on an inputs string made of delimiters.  Whatever the rule and
    whatever the engine does, [parse_inputs] accepts ["|"], and [" ,|"] too,
    without adding a selector: [strtok] finds no token, so
    [ib_rule_add_input] is not called and the rule is as it was.  The Rule
    directive then goes on with the rule as [ib_rule_create] made it: the
    operator, the modifiers and the registration are those of a rule that
    has no input. *)
Theorem C9_delimiters_only_accepted :
  forall (ib_rule_t ib_operator_inst_t ib_action_inst_t : Type)
         (NONE INVERT ACT_NONE OP_OR : Z)
         (create : cstr -> option cstr -> Z -> ib_status_t * ib_operator_inst_t)
         (set_operator : ib_rule_t -> ib_operator_inst_t -> ib_status_t * ib_rule_t)
         (add_input : ib_rule_t -> cstr -> ib_status_t * ib_rule_t)
         (set_id : ib_rule_t -> cstr -> ib_status_t * ib_rule_t)
         (update_flags : ib_rule_t -> Z -> Z -> ib_status_t * ib_rule_t)
         (create_action : cstr -> option cstr -> Z -> ib_status_t * ib_action_inst_t)
         (add_action : ib_rule_t -> ib_action_inst_t -> ib_rule_action_t
                       -> ib_status_t * ib_rule_t)
         (register : ib_rule_t -> ib_rule_phase_t -> ib_status_t)
         (rule : ib_rule_t) (op : cstr) (mods : list cstr),
    parse_inputs ib_rule_t Some add_input rule (cstr_of "|") = (IB_OK, rule) /\
    parse_inputs ib_rule_t Some add_input rule (cstr_of " ,|") = (IB_OK, rule) /\
    rules_rule_params ib_rule_t ib_operator_inst_t NONE INVERT Some create
      set_operator add_input ib_action_inst_t ACT_NONE OP_OR (IB_OK, rule)
      set_id update_flags create_action add_action register
      (cstr_of "|" :: op :: mods)
    = rule_after_inputs ib_rule_t ib_operator_inst_t NONE INVERT Some create
        set_operator ib_action_inst_t ACT_NONE OP_OR set_id update_flags
        create_action add_action register rule op mods.
Proof. intros. repeat split. Qed.

Definition example_inputs (str : string) : ib_status_t * list string :=
  let (rc, rule) := parse_inputs _ Some example_add_input new_rule (cstr_of str) in
  (rc, rule_inputs rule).

Example inputs_split :
  example_inputs "  ARGS|REQUEST_HEADERS,,FOO|"
  = (IB_OK, ["ARGS"; "REQUEST_HEADERS"; "FOO"])%string.
Proof. reflexivity. Qed.

Example inputs_empty :
  example_inputs "" = (IB_EINVAL, []) /\ example_inputs "   " = (IB_EINVAL, []).
Proof. split; reflexivity. Qed.

Example modifiers :
  split_modifier (cstr_of "phase:  REQUEST") = (cstr_of "phase", Some (cstr_of "REQUEST")) /\
  split_modifier (cstr_of "id:") = (cstr_of "id:", None) /\
  split_modifier (cstr_of "chain") = (cstr_of "chain", None) /\
  phase_of_tag (cstr_of "request_header") = Some PHASE_REQUEST_HEADER /\
  phase_of_tag (cstr_of "Response") = Some PHASE_RESPONSE_BODY /\
  phase_of_tag (cstr_of "REQUEST_BODY") = None.
Proof. repeat split; reflexivity. Qed.

Example directive_chain_and_false_action :
  example_directive ["ARGS|HEADERS"; "!@rx x"; "ID:7"; "chain"; "!log"]%string
  = (IB_OK,
     Some (mk_rule (Some "7") 2 ["ARGS"; "HEADERS"] (Some ("rx", Some "x", 1))
                   [] ["log"],
           PHASE_NONE))%string.
Proof. reflexivity. Qed.

(** With the engine of the examples the directive is accepted and the rule
    registered has no input. *)
Example directive_without_inputs :
  option_map (fun r => rule_inputs (fst r))
    (snd (example_directive ["|"; "@rx ^foo"; "id:1"]%string)) = Some [] /\
  fst (example_directive ["|"; "@rx ^foo"; "id:1"]%string) = IB_OK.
Proof. split; reflexivity. Qed.

(** C7, as the code has it.  [parse_operator] takes an operator string iff
    the characters before its first ['@'] are blanks (space or tab) with at
    most one ['!'] among them, at any place, and ['@'] is followed by a
    non-empty tail; every other string yields [IB_EINVAL] and leaves the
    rule as it was.  A string it takes is handed on as follows: the invert
    flag is set iff there is a ['!']; the name is the tail up to its first
    space; the arguments are what follows that space with leading white
    space and trailing spaces stripped, and are absent when nothing is
    left.  The status is then that of the creation of the operator instance
    and of setting it on the rule: it is [IB_OK] exactly for the strings
    taken when these two calls succeed. *)
Theorem C7_operator_string_syntax :
  forall (ib_rule_t ib_operator_inst_t : Type) (NONE INVERT : Z)
         (create : cstr -> option cstr -> Z -> ib_status_t * ib_operator_inst_t)
         (set_operator : ib_rule_t -> ib_operator_inst_t -> ib_status_t * ib_rule_t)
         (rule : ib_rule_t) (str : cstr),
    (forall pre tail,
       operator_syntax str pre tail ->
       parse_operator ib_rule_t ib_operator_inst_t NONE INVERT Some create
                      set_operator rule str
       = operator_call ib_rule_t ib_operator_inst_t NONE INVERT create
                       set_operator rule pre tail) /\
    ((forall pre tail, ~ operator_syntax str pre tail) ->
     parse_operator ib_rule_t ib_operator_inst_t NONE INVERT Some create
                    set_operator rule str
     = (IB_EINVAL, rule)) /\
    ((forall op args flags, fst (create op args flags) = IB_OK) ->
     (forall r o, fst (set_operator r o) = IB_OK) ->
     (fst (parse_operator ib_rule_t ib_operator_inst_t NONE INVERT Some create
                          set_operator rule str) = IB_OK
      <-> exists pre tail, operator_syntax str pre tail)).
Proof.
  intros ib_rule_t ib_operator_inst_t NONE INVERT create set_operator rule str.
  split; [|split].
  - intros pre tail H. apply parse_operator_accepts, H.
  - apply parse_operator_rejects.
  - intros Hc Hs. split.
    + intros Hok.
      destruct (operator_syntax_dec NONE INVERT str) as [H|H]; [exact H|].
      rewrite (parse_operator_rejects ib_rule_t ib_operator_inst_t NONE INVERT
                 create set_operator rule str H) in Hok.
      discriminate.
    + intros (pre & tail & H).
      rewrite (parse_operator_accepts ib_rule_t ib_operator_inst_t NONE INVERT
                 create set_operator rule str pre tail H).
      apply operator_call_ok; assumption.
Qed.

Lemma C7_witness :
  example_parse " !@streq  a b  "
  = operator_call _ _ 0 1 example_create example_set new_rule
                  (cstr_of " !") (cstr_of "streq  a b  ").
Proof.
  apply (proj1 (C7_operator_string_syntax _ _ 0 1 example_create example_set
                  new_rule (cstr_of " !@streq  a b  "))).
  split; [reflexivity|]. split.
  - split; [reflexivity|]. unfold bangs. simpl. lia.
  - discriminate.
Defined.

(** C7 as stated fails in both directions.  A blank between ['!'] and ['@']
    is not of the form the specification gives, and the string is taken,
    inverted; a newline before ['@'] is white space, and the string is
    refused. *)
Lemma C7_counterexample :
  claimed_operator_syntax (cstr_of "! @rx") = false /\
  example_parse "! @rx" = parsed "rx" None 1 /\
  claimed_operator_syntax (cstr_of (String "010" "@rx")) = true /\
  example_parse (String "010" "@rx") = (IB_EINVAL, new_rule).
Proof. repeat split; reflexivity. Qed.

End RulesFacts.

(** * The edit list and the status of a flush *)

Module FlushFacts.
Import TsFilter QsortFacts TsFilterFacts.

(** The loop over the edits either runs to the end of the array, and then
    every element it was given is gone from the edit list, or it breaks off
    at an edit [e] that reaches beyond the bytes to flush: [e] and the edits
    after it in the order of application stay in the list, and [nbytes] is
    what separates [bytes_done] from the start of [e]. *)
Lemma edit_loop_pending todo : forall f nb rc last base f' nb' rc',
  edits f = base ++ rev todo ->
  edit_loop todo f nb rc last = Done (f', nb', rc') ->
  (exists reached e rest,
      todo = reached ++ e :: rest /\ last = false /\ rc' = IB_EAGAIN /\
      edits f' = base ++ rev (e :: rest) /\
      bytes_done f' <= start e /\ nb' = start e - bytes_done f') \/
  (edits f' = base /\ (rc' = rc \/ rc' = IB_EBADVAL)).
Proof.
  induction todo as [|e todo IH]; intros f nb rc last base f' nb' rc' He H.
  - simpl in H. inversion H; subst. right.
    simpl in He. rewrite app_nil_r in He. auto.
  - rewrite edit_loop_cons in H.
    assert (Hpop : removelast (edits f) = base ++ rev todo).
    { rewrite He. simpl. rewrite app_assoc. apply removelast_last. }
    assert (Hstep : forall g nb0 rc0,
      edits g = base ++ rev todo -> rc0 = rc \/ rc0 = IB_EBADVAL ->
      edit_loop todo g nb0 rc0 last = Done (f', nb', rc') ->
      (exists reached e0 rest,
          e :: todo = reached ++ e0 :: rest /\ last = false /\
          rc' = IB_EAGAIN /\ edits f' = base ++ rev (e0 :: rest) /\
          bytes_done f' <= start e0 /\ nb' = start e0 - bytes_done f') \/
      (edits f' = base /\ (rc' = rc \/ rc' = IB_EBADVAL))).
    { intros g nb0 rc0 Hg Hrc0 Hrun.
      destruct (IH g nb0 rc0 last base f' nb' rc' Hg Hrun)
        as [(r & e0 & rest & -> & Hl & Hrc & Hed & Hbd & Hnb)|[Hed Hrc]].
      - left. exists (e :: r), e0, rest.
        split; [reflexivity|]. split; [exact Hl|]. split; [exact Hrc|].
        split; [exact Hed|]. split; [exact Hbd|exact Hnb].
      - right. split; [exact Hed|].
        destruct Hrc as [-> |Hrc]; [exact Hrc0|right; exact Hrc]. }
    destruct (Z.ltb_spec (start e) (bytes_done f)) as [H1|H1].
    { apply (Hstep (pop_edit f) nb IB_EBADVAL); auto. }
    destruct (Z.ltb_spec (bytes_done f + nb) (start e + bytes e)) as [H2|H2].
    { destruct last; cbn [negb] in H.
      - apply (Hstep (pop_edit f) nb IB_EBADVAL); auto.
      - inversion H; subst. left. exists [], e, todo.
        split; [reflexivity|]. split; [reflexivity|]. split; [reflexivity|].
        split; [exact He|]. split; lia. }
    destruct (Z.leb_spec (start e - bytes_done f) (avail f)) as [H3|H3];
      [|discriminate].
    apply (Hstep (splice (advance f (start e - bytes_done f)) e)
                 (nb - (start e - bytes_done f) - bytes e) rc); auto.
Qed.

Section Pending.
Variable qsort : (edit_t -> edit_t -> Z) -> list edit_t -> list edit_t.

(** What the status of a flush says of the edit list it leaves. *)
Lemma flush_data_pending f nbytes last rc f' :
  flush_data qsort f nbytes last = Done (rc, f') ->
  (rc = IB_EAGAIN /\ last = false /\
   exists kept e reached,
     edits f' = kept ++ [e] /\
     qsort qcompare (edits f) = kept ++ e :: reached /\
     bytes_done f' = start e) \/
  ((rc = IB_OK \/ rc = IB_EBADVAL) /\ edits f' = []).
Proof.
  intros H. apply flush_data_Done in H.
  destruct H as (f1 & nb1 & f2 & H1 & H2 & ->).
  apply copy_rest_Done in H2.
  assert (He2 : edits f2 = edits f1)
    by (destruct H2 as [[_ ->]|[_ ->]]; reflexivity).
  destruct (edits f) as [|e0 es] eqn:He.
  { inversion H1; subst. right. split; [left; reflexivity|].
    cbn [finish edits]. congruence. }
  set (sorted := qsort qcompare (e0 :: es)) in *.
  destruct (edit_loop_pending (rev sorted) (set_edits f sorted)
              (if nbytes =? -1 then buffered f else nbytes) IB_OK last []
              f1 nb1 rc) as [(r & e & rest & Ht & Hl & Hrc & Hed & Hbd & Hnb)|[Hed Hrc]].
  - simpl. rewrite rev_involutive. reflexivity.
  - exact H1.
  - left. split; [exact Hrc|]. split; [exact Hl|].
    exists (rev rest), e, (rev r).
    split; [|split].
    + cbn [finish edits]. rewrite He2, Hed. reflexivity.
    + rewrite <- (rev_involutive sorted), Ht, rev_app_distr. simpl.
      rewrite <- app_assoc. reflexivity.
    + cbn [finish bytes_done].
      destruct H2 as [[Hn ->]|[Hn ->]]; [lia|].
      unfold advance, copied. simpl. lia.
  - right. split.
    + destruct Hrc as [-> | ->]; auto.
    + cbn [finish edits]. rewrite He2, Hed. reflexivity.
Qed.

(** The status [flush_data] returns tells its caller what is left in
    the edit list.  With [IB_EAGAIN] the flush was not the last one and the
    list still holds the edit [e] that reached beyond the bytes to flush,
    behind the edits that start after it: the stream has been emitted
    exactly up to the start of [e].  With any other status, which is then
    [IB_OK] or [IB_EBADVAL], the list is empty. *)
Theorem flush_status_and_pending_edits :
  forall f nbytes last rc f',
    flush_data qsort f nbytes last = Done (rc, f') ->
    (rc = IB_EAGAIN /\ last = false /\
     exists kept e reached,
       edits f' = kept ++ [e] /\
       qsort qcompare (edits f) = kept ++ e :: reached /\
       bytes_done f' = start e) \/
    ((rc = IB_OK \/ rc = IB_EBADVAL) /\ edits f' = []).
Proof. intros f nbytes last rc f'. apply flush_data_pending. Qed.

(** The last flush of a context whose counters fit their 64 bits and
    whose [buffered] is what its reader holds always returns, with [IB_OK]
    or [IB_EBADVAL]; it leaves the edit list and the buffer empty, and
    every byte that was buffered has been counted as done. *)
Theorem last_flush_drains :
  forall f,
    qsort_permutes qsort -> counters_fit f -> buffered f = avail f ->
    exists rc f',
      flush_data qsort f (-1) true = Done (rc, f') /\
      (rc = IB_OK \/ rc = IB_EBADVAL) /\
      edits f' = [] /\ reader f' = [] /\ buffered f' = 0 /\
      bytes_done f' = bytes_done f + buffered f.
Proof.
  intros f Hq Hfit Hb. pose proof (counters_fit_wf f Hfit) as Hwf.
  destruct (flush_data_last qsort f (-1) Hq Hwf) as (rc & f' & Hrun & Hrc & Hc).
  { change (requested f (-1)) with (buffered f).
    pose proof (avail_nonneg f). lia. }
  change (requested f (-1)) with (buffered f) in Hc.
  exists rc, f'. split; [exact Hrun|].
  destruct (flush_data_pending f (-1) true rc f' Hrun)
    as [(_ & Hl & _)|[Hst He]]; [discriminate|].
  split; [exact Hst|]. split; [exact He|].
  destruct Hc as (Hrd & Hbf & Hbd & _).
  split; [|split; [lia|exact Hbd]].
  rewrite Hrd, Hb. unfold avail, TSIOBufferReaderAvail.
  rewrite Nat2Z.id. apply skipn_all.
Qed.

(** The edits a last run of the loop applied: all of them, and the status
    is the one it started with, or fewer, and the status is
    [IB_EBADVAL]. *)
Lemma edit_loop_applied todo : forall f nb rc f' nb' rc',
  edit_loop todo f nb rc true = Done (f', nb', rc') ->
  exists kept,
    applied f' = applied f ++ kept /\
    ((kept = todo /\ rc' = rc) \/
     ((length kept < length todo)%nat /\ rc' = IB_EBADVAL)).
Proof.
  induction todo as [|e todo IH]; intros f nb rc f' nb' rc' H.
  - simpl in H. inversion H; subst. exists [].
    rewrite app_nil_r. auto.
  - rewrite edit_loop_cons in H. cbn [negb] in H.
    assert (Hdrop :
      edit_loop todo (pop_edit f) nb IB_EBADVAL true = Done (f', nb', rc') ->
      exists kept,
        applied f' = applied f ++ kept /\
        ((kept = e :: todo /\ rc' = rc) \/
         ((length kept < length (e :: todo))%nat /\ rc' = IB_EBADVAL))).
    { intros Hrun. destruct (IH _ _ _ _ _ _ Hrun) as (kept & Ha & Hk).
      exists kept. split; [exact Ha|]. right.
      destruct Hk as [[-> ->]|[Hlen ->]]; simpl; split; auto; lia. }
    destruct (Z.ltb_spec (start e) (bytes_done f)) as [H1|H1]; [auto|].
    destruct (Z.ltb_spec (bytes_done f + nb) (start e + bytes e)) as [H2|H2];
      [auto|].
    destruct (Z.leb_spec (start e - bytes_done f) (avail f)) as [H3|H3];
      [|discriminate].
    destruct (IH _ _ _ _ _ _ H) as (kept & Ha & Hk).
    exists (e :: kept). split.
    + change (applied (splice (advance f (start e - bytes_done f)) e))
        with (applied f ++ [e]) in Ha.
      rewrite Ha, <- app_assoc. reflexivity.
    + destruct Hk as [[-> ->]|[Hlen ->]]; [left; auto|right].
      simpl. split; [lia|reflexivity].
Qed.

(** The status of a last flush and the edits it applied. *)
Lemma last_flush_applied f nbytes rc f' :
  qsort_permutes qsort ->
  flush_data qsort f nbytes true = Done (rc, f') ->
  (rc = IB_OK /\ applied f' = applied f ++ apply_order qsort (edits f)) \/
  (rc = IB_EBADVAL /\
   exists kept, applied f' = applied f ++ kept /\
                (length kept < length (edits f))%nat).
Proof.
  intros Hq H. apply flush_data_Done in H.
  destruct H as (f1 & nb1 & f2 & H1 & H2 & ->).
  apply copy_rest_Done in H2.
  assert (Ha2 : applied f2 = applied f1)
    by (destruct H2 as [[_ ->]|[_ ->]]; reflexivity).
  cbn [finish applied]. rewrite Ha2. unfold apply_order.
  destruct (edits f) as [|e0 es] eqn:He.
  { inversion H1; subst. left. split; [reflexivity|].
    rewrite (Permutation_nil (Permutation_sym (Hq qcompare []))).
    simpl. rewrite app_nil_r. reflexivity. }
  destruct (edit_loop_applied _ _ _ _ _ _ _ H1) as (kept & Ha & Hk).
  cbn [set_edits applied] in Ha.
  destruct Hk as [[-> ->]|[Hlen ->]]; [left; auto|right].
  split; [reflexivity|]. exists kept. split; [exact Ha|].
  rewrite length_rev, (Permutation_length (Hq qcompare (e0 :: es))) in Hlen.
  exact Hlen.
Qed.

(** The status of a last flush counts the edits: it is [IB_OK] exactly when
    every edit of the list was applied, in the order [apply_order], and
    [IB_EBADVAL] exactly when at least one was dropped. *)
Theorem last_flush_status_counts_edits :
  forall f nbytes rc f',
    qsort_permutes qsort ->
    flush_data qsort f nbytes true = Done (rc, f') ->
    (rc = IB_OK /\ applied f' = applied f ++ apply_order qsort (edits f)) \/
    (rc = IB_EBADVAL /\
     exists kept, applied f' = applied f ++ kept /\
                  (length kept < length (edits f))%nat).
Proof. intros f nbytes rc f' Hq H. exact (last_flush_applied f nbytes rc f' Hq H). Qed.

Variable ib_notify_body : list byte -> list edit_t -> ib_status_t * list edit_t.

(** When the end of the stream is signalled by a null input buffer,
    [process_data] flushes all that is buffered with the edits that are
    left, and on a context whose counters fit their 64 bits it always
    returns.  It writes the line about ignored edits to the error log of the
    transaction exactly when the flush dropped an edit; when the log is as
    before, every edit was applied. *)
Theorem end_of_stream_logs_dropped_edits :
  forall t,
    qsort_permutes qsort -> counters_fit (fctx t) ->
    buffered (fctx t) = avail (fctx t) ->
    exists t',
      process_data qsort ib_notify_body false true t = Done t' /\
      edits (fctx t') = [] /\ reader (fctx t') = [] /\
      upstream t' = upstream t /\
      ((tx_log t' = tx_log t /\
        applied (fctx t')
          = applied (fctx t) ++ apply_order qsort (edits (fctx t))) \/
       (tx_log t'
          = tx_log t ++ ["Bad/Inconsistent stream edit(s) ignored."%string] /\
        exists kept,
          applied (fctx t') = applied (fctx t) ++ kept /\
          (length kept < length (edits (fctx t)))%nat)).
Proof.
  intros t Hq Hfit Hb. pose proof (counters_fit_wf (fctx t) Hfit) as Hwf.
  unfold process_data.
  destruct (flush_data_last qsort (fctx t) (-1) Hq Hwf)
    as (rc & f' & Hrun & _ & Hc).
  { change (requested (fctx t) (-1)) with (buffered (fctx t)).
    pose proof (avail_nonneg (fctx t)). lia. }
  change (requested (fctx t) (-1)) with (buffered (fctx t)) in Hc.
  rewrite Hrun. cbn [run_bind].
  eexists. split; [reflexivity|].
  destruct (flush_data_pending (fctx t) (-1) true rc f' Hrun)
    as [(_ & Hl & _)|[_ He]]; [discriminate|].
  assert (Hrd : reader f' = []).
  { destruct Hc as (Hrd & _). rewrite Hrd, Hb.
    unfold avail, TSIOBufferReaderAvail. rewrite Nat2Z.id. apply skipn_all. }
  destruct (last_flush_applied (fctx t) (-1) rc f' Hq Hrun)
    as [[-> Ha]|[-> Ha]]; cbn [log_flush_status log_error_tx set_fctx fctx
                               tx_log upstream];
    (split; [exact He|]); (split; [exact Hrd|]); (split; [reflexivity|]).
  - left. split; [reflexivity|exact Ha].
  - right. split; [reflexivity|exact Ha].
Qed.

End Pending.

(** Witnesses on scenario S3 of the specification, at the moment the first
    chunk is flushed, and on an edit list with a stale edit in it. *)
Definition help_first_chunk : tsib_filter_ctx :=
  mk_fctx (mk_vio 0 0) [] IOBUF_NOBUF 0 (bytes_of "Hello") 5
          [mk_edit 3 4 (bytes_of "p!")] 0 0 [].

Lemma stale_then_straddling_fits : counters_fit stale_then_straddling.
Proof. counters_in_range. Defined.

Lemma flush_status_and_pending_edits_witness :
  exists f',
    flush_data (@stable_qsort edit_t) help_first_chunk (-1) false
    = Done (IB_EAGAIN, f') /\
    ((IB_EAGAIN = IB_EAGAIN /\ false = false /\
      exists kept e reached,
        edits f' = kept ++ [e] /\
        stable_qsort qcompare (edits help_first_chunk) = kept ++ e :: reached /\
        bytes_done f' = start e) \/
     ((IB_EAGAIN = IB_OK \/ IB_EAGAIN = IB_EBADVAL) /\ edits f' = [])).
Proof.
  eexists. split; [vm_compute; reflexivity|].
  apply (flush_status_and_pending_edits (@stable_qsort edit_t)
           help_first_chunk (-1) false).
  vm_compute. reflexivity.
Defined.

Lemma last_flush_drains_witness :
  exists rc f',
    flush_data (@stable_qsort edit_t) stale_then_straddling (-1) true
    = Done (rc, f') /\
    (rc = IB_OK \/ rc = IB_EBADVAL) /\
    edits f' = [] /\ reader f' = [] /\ buffered f' = 0 /\
    bytes_done f' = bytes_done stale_then_straddling
                    + buffered stale_then_straddling.
Proof.
  apply (last_flush_drains (@stable_qsort edit_t) stale_then_straddling).
  - intros cmp l. apply stable_qsort_perm.
  - exact stale_then_straddling_fits.
  - reflexivity.
Defined.

Lemma last_flush_status_counts_edits_witness :
  exists f',
    flush_data (@stable_qsort edit_t) stale_then_straddling (-1) true
    = Done (IB_EBADVAL, f') /\
    ((IB_EBADVAL = IB_OK /\
      applied f' = applied stale_then_straddling
                   ++ apply_order (@stable_qsort edit_t)
                        (edits stale_then_straddling)) \/
     (IB_EBADVAL = IB_EBADVAL /\
      exists kept, applied f' = applied stale_then_straddling ++ kept /\
                   (length kept < length (edits stale_then_straddling))%nat)).
Proof.
  eexists. split; [vm_compute; reflexivity|].
  apply (last_flush_status_counts_edits (@stable_qsort edit_t)
           stale_then_straddling (-1)).
  - intros cmp l. apply stable_qsort_perm.
  - vm_compute. reflexivity.
Defined.

(** [qcompare] puts the edit that starts later first, as the sort by
    descending start needs, as long as the two starts are less than 2^31
    apart: its result is then their difference.  From 2^31 on the
    difference no longer fits the [int] it is returned in: for an edit [b]
    that starts at least 2^31 and less than 2^32 after [a] the result is
    negative, as if [b] started before [a]. *)
Theorem qcompare_within_int_range :
  forall a b,
    - 2 ^ 31 <= start b - start a < 2 ^ 32 ->
    qcompare a b = (if start b - start a <? 2 ^ 31
                    then start b - start a
                    else start b - start a - 2 ^ 32) /\
    (0 < qcompare a b <-> 0 < start b - start a < 2 ^ 31) /\
    (qcompare a b = 0 <-> start a = start b).
Proof.
  intros a b Hd. unfold qcompare.
  assert (H : int_of_Z (start b - start a)
              = if start b - start a <? 2 ^ 31
                then start b - start a
                else start b - start a - 2 ^ 32).
  { destruct (Z.ltb_spec (start b - start a) (2 ^ 31)).
    - apply int_of_Z_small. lia.
    - unfold int_of_Z.
      replace (start b - start a + 2 ^ 31)
        with ((start b - start a - 2 ^ 31) + 1 * 2 ^ 32) by lia.
      rewrite Z.mod_add by lia. rewrite Z.mod_small by lia. lia. }
  rewrite H.
  destruct (Z.ltb_spec (start b - start a) (2 ^ 31)); repeat split; lia.
Qed.

Lemma qcompare_within_int_range_witness :
  qcompare (mk_edit 5 0 []) (mk_edit (5 + 2 ^ 31) 0 []) = 2 ^ 31 - 2 ^ 32 /\
  (0 < qcompare (mk_edit 5 0 []) (mk_edit (5 + 2 ^ 31) 0 [])
   <-> 0 < 5 + 2 ^ 31 - 5 < 2 ^ 31) /\
  (qcompare (mk_edit 5 0 []) (mk_edit (5 + 2 ^ 31) 0 []) = 0
   <-> 5 = 5 + 2 ^ 31).
Proof.
  apply (qcompare_within_int_range (mk_edit 5 0 []) (mk_edit (5 + 2 ^ 31) 0 [])).
  simpl. lia.
Defined.

Lemma end_of_stream_logs_dropped_edits_witness :
  exists t',
    process_data (@stable_qsort edit_t) no_rules false true
      (mk_txn stale_then_straddling 10 10 [] [] []) = Done t' /\
    edits (fctx t') = [] /\ reader (fctx t') = [] /\
    upstream t' = [] /\
    ((tx_log t' = [] /\
      applied (fctx t')
        = [] ++ apply_order (@stable_qsort edit_t) (edits stale_then_straddling)) \/
     (tx_log t' = [] ++ ["Bad/Inconsistent stream edit(s) ignored."%string] /\
      exists kept,
        applied (fctx t') = [] ++ kept /\
        (length kept < length (edits stale_then_straddling))%nat)).
Proof.
  apply (end_of_stream_logs_dropped_edits (@stable_qsort edit_t) no_rules
           (mk_txn stale_then_straddling 10 10 [] [] [])).
  - intros cmp l. apply stable_qsort_perm.
  - exact stale_then_straddling_fits.
  - reflexivity.
Defined.

End FlushFacts.

(** * What stays in the buffer, mode by mode *)

Module ModeFacts.
Import TsFilter QsortFacts TsFilterFacts.

(** The bytes resident in the filter's buffer after a chunk of [n] bytes,
    when [b] were resident before it and no edit is pending. *)
Definition resident (mode : iobuf_mode) (limit b n : Z) : Z :=
  match mode with
  | IOBUF_NOBUF => 0
  | IOBUF_DISCARD => 0
  | IOBUF_BUFFER_ALL => b + n
  | IOBUF_BUFFER_FLUSHALL => if limit <? b + n then n else b + n
  | IOBUF_BUFFER_FLUSHPART => if limit <? b + n then limit else b + n
  end.

Fixpoint resident_after (mode : iobuf_mode) (limit : Z)
    (blocks : list (list byte)) (b : Z) : Z :=
  match blocks with
  | [] => b
  | buf :: rest =>
      resident_after mode limit rest
        (resident mode limit b (Z.of_nat (length buf)))
  end.

(** The size of the largest block. *)
Definition largest (blocks : list (list byte)) : Z :=
  fold_right (fun buf m => Z.max (Z.of_nat (length buf)) m) 0 blocks.

Lemma flush_data_plain_buffered qsort f nbytes last :
  plain f -> 0 <= requested f nbytes <= avail f ->
  exists f',
    flush_data qsort f nbytes last = Done (IB_OK, f') /\
    extends f f' [] /\
    buffered f' = buffered f - requested f nbytes.
Proof.
  intros Hp Hn.
  destruct (flush_data_plain qsort f nbytes last Hp Hn)
    as (f' & Hrun & Hext & _ & Hrd).
  exists f'. split; [exact Hrun|]. split; [exact Hext|].
  destruct Hext as ((_ & Hb' & _) & _). destruct Hp as (_ & Hb & _).
  rewrite Hb', Hb. unfold avail, TSIOBufferReaderAvail.
  rewrite Hrd, length_skipn.
  unfold avail, TSIOBufferReaderAvail in Hn. lia.
Qed.

Lemma buffer_data_chunk_resident qsort f input n :
  plain f -> buffering f <> IOBUF_DISCARD ->
  0 <= n <= Z.of_nat (length input) ->
  exists f',
    buffer_data_chunk qsort f input n = Done (IB_OK, f') /\
    extends f f' (firstn (Z.to_nat n) input) /\
    buffered f' = resident (buffering f) (buf_limit f) (buffered f) n.
Proof.
  intros Hp Hmode Hn.
  pose proof (avail_nonneg f) as Hav.
  assert (Hb : buffered f = avail f) by apply Hp.
  assert (Hn0 : 0 <= n) by lia.
  pose proof (buffer_chunk_plain f input n Hp Hn0) as He2.
  destruct (buffer_chunk_fields f input n Hn) as (_ & Hb2 & Ha2).
  set (f2 := buffer_chunk f input n) in *.
  assert (Hall : forall g, plain g -> exists g',
            flush_data qsort g (-1) false = Done (IB_OK, g') /\
            extends g g' [] /\ buffered g' = 0).
  { intros g Hg.
    destruct (flush_data_plain_buffered qsort g (-1) false Hg)
      as (g' & Hr & He & Hbg).
    - change (requested g (-1)) with (buffered g).
      destruct Hg as (_ & Hgb & _). pose proof (avail_nonneg g). lia.
    - exists g'. split; [exact Hr|]. split; [exact He|].
      change (requested g (-1)) with (buffered g) in Hbg. lia. }
  unfold buffer_data_chunk.
  destruct (buffering f) eqn:Em; cbn [iobuf_mode_eqb andb run_bind resident].
  - (* nobuf *)
    fold f2. change (buffering f2) with (buffering f). rewrite Em.
    cbn [iobuf_mode_eqb].
    destruct (Hall f2 (proj1 He2)) as (f3 & Hr & He3 & Hb3).
    exists f3. split; [exact Hr|]. split; [|exact Hb3].
    pose proof (extends_trans _ _ _ _ _ He2 He3) as H.
    rewrite app_nil_r in H. exact H.
  - congruence.
  - (* buffer_all *)
    fold f2. change (buffering f2) with (buffering f). rewrite Em.
    cbn [iobuf_mode_eqb andb].
    exists f2. split; [reflexivity|]. split; [exact He2|exact Hb2].
  - (* buffer_flushall *)
    destruct (Z.ltb_spec (buf_limit f) (buffered f + n)) as [Hover|Hover].
    + destruct (Hall f Hp) as (f1 & Hr & He1 & Hb1).
      rewrite Hr. cbn [run_bind].
      assert (Hm1 : buffering f1 = IOBUF_BUFFER_FLUSHALL).
      { destruct He1 as (_ & -> & _). exact Em. }
      change (buffering (buffer_chunk f1 input n)) with (buffering f1).
      rewrite Hm1. cbn [iobuf_mode_eqb andb].
      exists (buffer_chunk f1 input n). split; [reflexivity|].
      split.
      * pose proof (buffer_chunk_plain f1 input n (proj1 He1) Hn0) as H.
        exact (extends_trans _ _ _ _ _ He1 H).
      * destruct (buffer_chunk_fields f1 input n Hn) as (_ & H & _). lia.
    + cbn [run_bind].
      fold f2. change (buffering f2) with (buffering f). rewrite Em.
      cbn [iobuf_mode_eqb andb].
      exists f2. split; [reflexivity|]. split; [exact He2|exact Hb2].
  - (* buffer_flushpart *)
    fold f2. change (buffering f2) with (buffering f).
    change (buf_limit f2) with (buf_limit f). rewrite Em, Hb2.
    cbn [iobuf_mode_eqb andb].
    destruct (Z.ltb_spec (buf_limit f) (buffered f + n)) as [Hover|Hover].
    + assert (Hreq : requested f2 (buffered f + n - buf_limit f)
                     = buffered f + n - buf_limit f).
      { unfold requested.
        destruct (Z.eqb_spec (buffered f + n - buf_limit f) (-1));
          [lia|reflexivity]. }
      destruct (flush_data_plain_buffered qsort f2
                  (buffered f + n - buf_limit f) false (proj1 He2))
        as (f3 & Hr & He3 & Hb3).
      * rewrite Hreq. destruct Hp as (_ & _ & Hl). lia.
      * exists f3. split; [exact Hr|]. split.
        -- pose proof (extends_trans _ _ _ _ _ He2 He3) as H.
           rewrite app_nil_r in H. exact H.
        -- rewrite Hb3, Hreq, Hb2. lia.
    + exists f2. split; [reflexivity|]. split; [exact He2|exact Hb2].
Qed.

Section Modes.
Variable qsort : (edit_t -> edit_t -> Z) -> list edit_t -> list edit_t.
Variable ib_notify_body : list byte -> list edit_t -> ib_status_t * list edit_t.

Lemma process_blocks_resident blocks : forall t,
  keeps_empty ib_notify_body -> plain (fctx t) ->
  buffering (fctx t) <> IOBUF_DISCARD ->
  Forall (fun buf => buf <> []) blocks ->
  exists t',
    process_blocks qsort ib_notify_body blocks t = Done t' /\
    extends (fctx t) (fctx t') (concat blocks) /\
    buffered (fctx t') =
      resident_after (buffering (fctx t)) (buf_limit (fctx t)) blocks
                     (buffered (fctx t)).
Proof.
  induction blocks as [|buf rest IH]; intros t Hk Hp Hm Hne.
  - exists t. simpl. split; [reflexivity|].
    split; [apply extends_refl, Hp|reflexivity].
  - inversion Hne as [|? ? Hbuf Hrest]; subst.
    cbn [process_blocks resident_after].
    destruct (Z.ltb_spec 0 (TSIOBufferReaderAvail (concat (buf :: rest))))
      as [Hav|Hav].
    2:{ exfalso. unfold TSIOBufferReaderAvail in Hav. simpl in Hav.
        rewrite length_app in Hav. destruct buf; [congruence|simpl in Hav; lia]. }
    destruct (ib_notify_body buf (edits (fctx t))) as [rc0 es] eqn:En.
    assert (Hes : es = edits (fctx t)).
    { destruct Hp as (He & _). rewrite He in *.
      pose proof (Hk buf) as H. rewrite En in H. simpl in H. congruence. }
    subst es.
    set (t1 := if ib_status_eqb rc0 IB_OK then t
               else log_error_tx t "Error %d notifying body data.").
    assert (Hf1 : fctx t1 = fctx t)
      by (unfold t1; destruct (ib_status_eqb rc0 IB_OK); reflexivity).
    rewrite Hf1, set_edits_same.
    destruct (buffer_data_chunk_resident qsort (fctx t) (concat (buf :: rest))
                (Z.of_nat (length buf)) Hp Hm) as (f' & Hrun & Hext & Hres).
    { simpl. rewrite length_app. lia. }
    rewrite Hrun. cbn [run_bind log_chunk_status].
    rewrite Nat2Z.id in Hext.
    assert (Hfirst : firstn (length buf) (concat (buf :: rest)) = buf).
    { simpl. rewrite firstn_app, Nat.sub_diag, firstn_all. simpl.
      apply app_nil_r. }
    rewrite Hfirst in Hext.
    destruct (IH (consume_block (set_fctx t1 f') rest (Z.of_nat (length buf))) Hk)
      as (t' & Hrun' & Hext' & Hres').
    + simpl. apply Hext.
    + simpl. destruct Hext as (_ & -> & _). exact Hm.
    + exact Hrest.
    + exists t'. split; [exact Hrun'|]. simpl in *.
      split; [eapply extends_trans; eauto|].
      destruct Hext as (_ & Hmode & Hlim & _).
      rewrite Hres', Hmode, Hlim, Hres. reflexivity.
Qed.

Lemma resident_after_nobuf limit blocks b :
  blocks <> [] -> resident_after IOBUF_NOBUF limit blocks b = 0.
Proof.
  intros Hne. destruct blocks as [|buf rest]; [congruence|]. simpl. clear Hne.
  induction rest as [|buf' rest IH]; simpl; auto.
Qed.

Lemma resident_after_buffer_all limit blocks : forall b,
  resident_after IOBUF_BUFFER_ALL limit blocks b
  = b + Z.of_nat (length (concat blocks)).
Proof.
  induction blocks as [|buf rest IH]; intros b; simpl; [lia|].
  rewrite IH, length_app, Nat2Z.inj_add. lia.
Qed.

Lemma resident_after_flushpart limit blocks : forall b,
  b <= limit ->
  resident_after IOBUF_BUFFER_FLUSHPART limit blocks b
  = Z.min (b + Z.of_nat (length (concat blocks))) limit.
Proof.
  induction blocks as [|buf rest IH]; intros b Hb; simpl; [lia|].
  rewrite length_app, Nat2Z.inj_add.
  destruct (Z.ltb_spec limit (b + Z.of_nat (length buf))).
  - rewrite IH by lia. lia.
  - rewrite IH by lia. lia.
Qed.

Lemma resident_after_flushall limit m blocks : forall b,
  Forall (fun buf => Z.of_nat (length buf) <= m) blocks ->
  b <= Z.max limit m ->
  resident_after IOBUF_BUFFER_FLUSHALL limit blocks b <= Z.max limit m.
Proof.
  induction blocks as [|buf rest IH]; intros b Hm Hb; simpl; [exact Hb|].
  inversion Hm; subst. apply IH; [assumption|].
  destruct (Z.ltb_spec limit (b + Z.of_nat (length buf))); lia.
Qed.

Lemma largest_bounds blocks :
  Forall (fun buf => Z.of_nat (length buf) <= largest blocks) blocks.
Proof.
  induction blocks as [|buf rest IH]; [constructor|].
  constructor; [simpl; lia|].
  eapply Forall_impl; [|exact IH]. simpl. intros; lia.
Qed.

(** The bytes a filter without edits keeps between two calls, mode by
    mode, after any run of non-empty blocks.  Whatever the mode, the bytes
    emitted followed by the bytes kept are those of the stream so far.  Mode
    [nobuf] keeps nothing; mode [buffer_all] keeps every block; mode
    [buffer_flushpart] keeps everything up to [buf_limit] bytes and from
    then on exactly [buf_limit]; mode [buffer_flushall] never keeps more
    than [buf_limit], or than the largest single block when that is
    more. *)
Theorem resident_bytes_by_mode :
  forall blocks t,
    keeps_empty ib_notify_body -> plain (fctx t) ->
    buffering (fctx t) <> IOBUF_DISCARD ->
    Forall (fun buf => buf <> []) blocks ->
    exists t',
      process_blocks qsort ib_notify_body blocks t = Done t' /\
      output_buffer (fctx t') ++ reader (fctx t')
        = output_buffer (fctx t) ++ reader (fctx t) ++ concat blocks /\
      buffered (fctx t') = Z.of_nat (length (reader (fctx t'))) /\
      match buffering (fctx t) with
      | IOBUF_NOBUF => blocks <> [] -> buffered (fctx t') = 0
      | IOBUF_DISCARD => True
      | IOBUF_BUFFER_ALL =>
          buffered (fctx t')
          = buffered (fctx t) + Z.of_nat (length (concat blocks))
      | IOBUF_BUFFER_FLUSHPART =>
          buffered (fctx t) <= buf_limit (fctx t) ->
          buffered (fctx t')
          = Z.min (buffered (fctx t) + Z.of_nat (length (concat blocks)))
                  (buf_limit (fctx t))
      | IOBUF_BUFFER_FLUSHALL =>
          buffered (fctx t) <= buf_limit (fctx t) ->
          buffered (fctx t') <= Z.max (buf_limit (fctx t)) (largest blocks)
      end.
Proof.
  intros blocks t Hk Hp Hm Hne.
  destruct (process_blocks_resident blocks t Hk Hp Hm Hne)
    as (t' & Hrun & Hext & Hres).
  exists t'. split; [exact Hrun|].
  destruct Hext as ((_ & Hb' & _) & _ & _ & Hout).
  split; [exact Hout|]. split; [exact Hb'|].
  rewrite Hres.
  destruct (buffering (fctx t)).
  - apply resident_after_nobuf.
  - exact I.
  - apply resident_after_buffer_all.
  - intros Hb. apply resident_after_flushall; [apply largest_bounds|lia].
  - apply resident_after_flushpart.
Qed.

(** In mode [discard] no block reaches the buffer or the output: each is
    shown to the engine, counted as done, and dropped, and what was
    buffered before is dropped with the first of them. *)
Lemma process_blocks_discard blocks : forall t,
  buffering (fctx t) = IOBUF_DISCARD ->
  exists t',
    process_blocks qsort ib_notify_body blocks t = Done t' /\
    output_buffer (fctx t') = output_buffer (fctx t) /\
    output_vio (fctx t') = output_vio (fctx t) /\
    bytes_done (fctx t') = bytes_done (fctx t) /\
    buffering (fctx t') = IOBUF_DISCARD /\
    edits (fctx t') = notified ib_notify_body blocks (edits (fctx t)) /\
    input_ndone t' = input_ndone t + Z.of_nat (length (concat blocks)) /\
    input_nbytes t' = input_nbytes t /\
    upstream t' = upstream t /\
    buffered (fctx t') =
      if 0 <? TSIOBufferReaderAvail (concat blocks)
      then Z.min (buffered (fctx t)) 0 else buffered (fctx t).
Proof.
  induction blocks as [|buf rest IH]; intros t Hm.
  - exists t. simpl. rewrite Z.add_0_r. repeat split; auto.
  - cbn [process_blocks notified].
    destruct (Z.ltb_spec 0 (TSIOBufferReaderAvail (concat (buf :: rest))))
      as [Hav|Hav].
    + destruct (ib_notify_body buf (edits (fctx t))) as [rc0 es] eqn:En.
      set (t1 := if ib_status_eqb rc0 IB_OK then t
                 else log_error_tx t "Error %d notifying body data.").
      assert (Ht1 : fctx t1 = fctx t /\ input_ndone t1 = input_ndone t /\
                    input_nbytes t1 = input_nbytes t /\ upstream t1 = upstream t)
        by (unfold t1; destruct (ib_status_eqb rc0 IB_OK); simpl; auto).
      destruct Ht1 as (Hf1 & Hd1 & Hn1 & Hu1).
      rewrite Hf1. cbn [snd].
      unfold buffer_data_chunk at 1.
      change (buffering (set_edits (fctx t) es)) with (buffering (fctx t)).
      rewrite Hm. cbn [iobuf_mode_eqb run_bind log_chunk_status].
      set (f1 := discard_buffered (set_edits (fctx t) es)).
      assert (Hf : output_buffer f1 = output_buffer (fctx t) /\
                   output_vio f1 = output_vio (fctx t) /\
                   bytes_done f1 = bytes_done (fctx t) /\
                   buffering f1 = IOBUF_DISCARD /\ edits f1 = es /\
                   buffered f1 = Z.min (buffered (fctx t)) 0).
      { unfold f1, discard_buffered. cbn [set_edits buffered].
        destruct (Z.ltb_spec 0 (buffered (fctx t))); simpl;
          repeat split; auto; lia. }
      destruct Hf as (Ho & Hv & Hbd & Hmd & Hed & Hbf).
      destruct (IH (consume_block (set_fctx t1 f1) rest (Z.of_nat (length buf))))
        as (t' & Hrun' & Ho' & Hv' & Hbd' & Hm' & He' & Hd' & Hn' & Hu' & Hb').
      * simpl. exact Hmd.
      * exists t'. split; [exact Hrun'|]. simpl in *.
        rewrite Ho', Hv', Hbd', He', Hd', Hn', Hu', Hed, Hb', Hbf,
                length_app, Nat2Z.inj_add.
        repeat split; auto; try lia.
        destruct (0 <? TSIOBufferReaderAvail (concat rest)); lia.
    + exists t. unfold TSIOBufferReaderAvail in Hav.
      assert (Hnil : concat (buf :: rest) = []).
      { destruct (concat (buf :: rest)); [reflexivity|simpl in Hav; lia]. }
      rewrite Hnil. simpl. rewrite Z.add_0_r. repeat split; auto.
Qed.

Lemma notified_keeps_empty blocks :
  keeps_empty ib_notify_body -> notified ib_notify_body blocks [] = [].
Proof.
  intros Hk. induction blocks as [|buf rest IH]; [reflexivity|].
  cbn [notified].
  destruct (0 <? TSIOBufferReaderAvail (concat (buf :: rest))); [|reflexivity].
  rewrite Hk. exact IH.
Qed.

(** In mode [discard] the first block that holds a byte empties the
    filter's own buffer. *)
Lemma process_blocks_discard_reader blocks : forall t t',
  buffering (fctx t) = IOBUF_DISCARD ->
  buffered (fctx t) = avail (fctx t) ->
  process_blocks qsort ib_notify_body blocks t = Done t' ->
  buffered (fctx t') = avail (fctx t') /\
  (0 < TSIOBufferReaderAvail (concat blocks) -> reader (fctx t') = []).
Proof.
  induction blocks as [|buf rest IH]; intros t t' Hm Hb Hrun.
  - simpl in Hrun. inversion Hrun; subst. split; [exact Hb|].
    unfold TSIOBufferReaderAvail. simpl. lia.
  - cbn [process_blocks] in Hrun.
    destruct (Z.ltb_spec 0 (TSIOBufferReaderAvail (concat (buf :: rest))))
      as [Hav|Hav].
    + destruct (ib_notify_body buf (edits (fctx t))) as [rc0 es] eqn:En.
      set (t1 := if ib_status_eqb rc0 IB_OK then t
                 else log_error_tx t "Error %d notifying body data.") in *.
      assert (Hf1 : fctx t1 = fctx t)
        by (unfold t1; destruct (ib_status_eqb rc0 IB_OK); reflexivity).
      rewrite Hf1 in Hrun.
      unfold buffer_data_chunk at 1 in Hrun.
      change (buffering (set_edits (fctx t) es)) with (buffering (fctx t)) in Hrun.
      rewrite Hm in Hrun. cbn [iobuf_mode_eqb run_bind log_chunk_status] in Hrun.
      set (f1 := discard_buffered (set_edits (fctx t) es)) in *.
      assert (Hf : buffering f1 = IOBUF_DISCARD /\ buffered f1 = 0 /\
                   reader f1 = []).
      { pose proof (avail_nonneg (fctx t)) as Hn.
        unfold f1, discard_buffered. cbn [set_edits buffered].
        unfold avail, TSIOBufferReaderAvail in *.
        destruct (Z.ltb_spec 0 (buffered (fctx t))) as [Hp|Hp];
          cbn [buffering buffered reader set_edits].
        - split; [exact Hm|]. split; [reflexivity|].
          unfold TSIOBufferReaderConsume. rewrite Hb, Nat2Z.id.
          apply skipn_all.
        - split; [exact Hm|]. split; [lia|].
          destruct (reader (fctx t)); [reflexivity|simpl in *; lia]. }
      destruct Hf as (Hm1 & Hb1 & Hr1).
      destruct (IH (consume_block (set_fctx t1 f1) rest (Z.of_nat (length buf)))
                   t') as [Hba Hrd].
      * exact Hm1.
      * cbn [consume_block set_fctx fctx]. unfold avail. rewrite Hb1, Hr1.
        reflexivity.
      * exact Hrun.
      * split; [exact Hba|]. intros _.
        destruct (Z.ltb_spec 0 (TSIOBufferReaderAvail (concat rest)))
          as [Hr|Hr]; [apply Hrd; exact Hr|].
        destruct rest as [|buf' rest'].
        -- simpl in Hrun. inversion Hrun; subst. exact Hr1.
        -- cbn [process_blocks] in Hrun.
           destruct (Z.ltb_spec 0 (TSIOBufferReaderAvail (concat (buf' :: rest'))));
             [lia|].
           inversion Hrun; subst. exact Hr1.
    + inversion Hrun; subst. split; [exact Hb|lia].
Qed.

(** When the status of the transaction is an HTTP error code and the input
    write-intent still has bytes to do, [process_data] forwards nothing of
    the blocks it is given, which hold at least one byte: it returns, every
    byte of the blocks is counted as done, the output buffer is left as it
    was, what the filter had buffered is consumed without being emitted, and
    upstream is told that the write is complete or that more can be
    written.  (The edit list is empty here and the engine adds none;
    [buffered] is what the filter's reader holds.) *)
Theorem error_document_discards_body :
  forall t,
    keeps_empty ib_notify_body -> edits (fctx t) = [] ->
    buffered (fctx t) = avail (fctx t) -> concat (input_reader t) <> [] ->
    TSVIONTodoGet t <> 0 ->
    exists t',
      process_data qsort ib_notify_body true false t = Done t' /\
      output_buffer (fctx t') = output_buffer (fctx t) /\
      bytes_done (fctx t') = bytes_done (fctx t) /\
      buffered (fctx t') = 0 /\ reader (fctx t') = [] /\
      input_ndone t'
        = input_ndone t + Z.of_nat (length (concat (input_reader t))) /\
      (upstream t' = upstream t ++ [TS_EVENT_VCONN_WRITE_COMPLETE] \/
       upstream t' = upstream t ++ [TS_EVENT_VCONN_WRITE_READY]).
Proof.
  intros t Hk He Hb Hin Htodo.
  unfold process_data.
  set (t0 := set_fctx t (set_discard (fctx t))).
  change (TSVIONTodoGet t0) with (TSVIONTodoGet t).
  destruct (Z.eqb_spec (TSVIONTodoGet t) 0) as [|_]; [contradiction|].
  destruct (process_blocks_discard (input_reader t) t0 eq_refl)
    as (t1 & Hrun & Ho & Hv & Hbd & Hm & Hed & Hd & Hn & Hu & Hbf).
  change (input_reader t0) with (input_reader t).
  assert (Hpos : 0 < TSIOBufferReaderAvail (concat (input_reader t))).
  { unfold TSIOBufferReaderAvail.
    destruct (concat (input_reader t)); [congruence|simpl; lia]. }
  destruct (process_blocks_discard_reader (input_reader t) t0 t1 eq_refl Hb Hrun)
    as [_ Hrd].
  specialize (Hrd Hpos).
  rewrite Hrun. cbn [run_bind].
  change (edits (fctx t0)) with (edits (fctx t)) in Hed.
  rewrite He, notified_keeps_empty in Hed by exact Hk.
  assert (Hb1 : buffered (fctx t1) = 0).
  { rewrite Hbf. change (buffered (fctx t0)) with (buffered (fctx t)).
    pose proof (avail_nonneg (fctx t)).
    destruct (Z.ltb_spec 0 (TSIOBufferReaderAvail (concat (input_reader t))));
      lia. }
  simpl in Ho, Hbd, Hd, Hu.
  destruct (TSVIONTodoGet t1 =? 0).
  - unfold final_flush.
    rewrite flush_data_no_edits; [|exact Hed|].
    2:{ change (requested (fctx t1) (-1)) with (buffered (fctx t1)).
        rewrite Hb1. pose proof (avail_nonneg (fctx t1)). lia. }
    change (requested (fctx t1) (-1)) with (buffered (fctx t1)).
    rewrite Hb1, advance_0. cbn [run_bind].
    eexists. split; [reflexivity|]. simpl.
    rewrite Ho, Hbd, Hb1, Hd, Hu, Hrd. auto 10.
  - eexists. split; [reflexivity|]. simpl.
    rewrite Ho, Hbd, Hb1, Hd, Hu, Hrd. auto 10.
Qed.

End Modes.

Lemma no_rules_keeps_empty : keeps_empty no_rules.
Proof. intros buf. reflexivity. Qed.

Lemma fresh_fctx_plain mode limit : 0 <= limit -> plain (fresh_fctx mode limit []).
Proof. intros H. split; [reflexivity|]. split; [reflexivity|exact H]. Qed.

(** ["HelloWorld"] in two blocks, in mode [buffer_flushpart] with a limit of
    two bytes. *)
Lemma resident_bytes_by_mode_witness :
  exists t',
    process_blocks (@stable_qsort edit_t) no_rules
      [bytes_of "Hello"; bytes_of "World"]
      (start_txn IOBUF_BUFFER_FLUSHPART 2 []
                 [bytes_of "Hello"; bytes_of "World"]) = Done t' /\
    output_buffer (fctx t') ++ reader (fctx t') = bytes_of "HelloWorld" /\
    buffered (fctx t') = Z.of_nat (length (reader (fctx t'))) /\
    (0 <= 2 -> buffered (fctx t') = Z.min (0 + 10) 2).
Proof.
  apply (resident_bytes_by_mode (@stable_qsort edit_t) no_rules
           [bytes_of "Hello"; bytes_of "World"]
           (start_txn IOBUF_BUFFER_FLUSHPART 2 []
                      [bytes_of "Hello"; bytes_of "World"])).
  - exact no_rules_keeps_empty.
  - apply fresh_fctx_plain. lia.
  - discriminate.
  - repeat (apply Forall_cons; [discriminate|]). apply Forall_nil.
Defined.

(** ["Hello"] is buffered, nothing of it flushed yet, when the status
    becomes an error; the next five bytes of the body of twelve arrive. *)
Definition error_status_txn : tsib_txn_ctx :=
  mk_txn (whole_stream (bytes_of "Hello") []) 12 5 [bytes_of "World"] [] [].

Lemma error_document_discards_body_witness :
  exists t',
    process_data (@stable_qsort edit_t) no_rules true false error_status_txn
    = Done t' /\
    output_buffer (fctx t') = [] /\
    bytes_done (fctx t') = 0 /\
    buffered (fctx t') = 0 /\ reader (fctx t') = [] /\
    input_ndone t' = 5 + 5 /\
    (upstream t' = [] ++ [TS_EVENT_VCONN_WRITE_COMPLETE] \/
     upstream t' = [] ++ [TS_EVENT_VCONN_WRITE_READY]).
Proof.
  apply (error_document_discards_body (@stable_qsort edit_t) no_rules
           error_status_txn).
  - exact no_rules_keeps_empty.
  - reflexivity.
  - reflexivity.
  - discriminate.
  - vm_compute. discriminate.
Defined.

End ModeFacts.

(** * More about the Rule directive: selectors, modifiers and phases *)

Module ParserFacts.
Import Rules RulesFacts.

(** ** The selectors of an inputs string *)

(** In plain words: the pieces of a string between its delimiters, the empty
    ones included, and the fields, which are the pieces that are not
    empty. *)
Fixpoint pieces (s : cstr) : list cstr :=
  match s with
  | [] => [[]]
  | c :: s' =>
      if is_delim c then [] :: pieces s'
      else match pieces s' with
           | p :: ps => (c :: p) :: ps
           | [] => [[c]]
           end
  end.

Definition nonempty (t : cstr) : bool :=
  match t with [] => false | _ :: _ => true end.

Definition fields (s : cstr) : list cstr := filter nonempty (pieces s).

Definition no_delim (t : cstr) : bool := forallb (fun c => negb (is_delim c)) t.

Definition glue (p : cstr) (ps : list cstr) : list cstr :=
  match ps with
  | [] => [p]
  | x :: xs => (p ++ x) :: xs
  end.

Lemma pieces_cons s : exists p ps, pieces s = p :: ps.
Proof.
  induction s as [|c s (p & ps & IH)]; simpl; [eauto|].
  destruct (is_delim c); [eauto|]. rewrite IH. eauto.
Qed.

Lemma nonempty_snoc (l : cstr) c r : nonempty (l ++ c :: r) = true.
Proof. destruct l; reflexivity. Qed.

(** [strtok] returns the fields, in order. *)
Lemma strtok_all_glue s : forall cur,
  strtok_all cur s = filter nonempty (glue (rev cur) (pieces s)).
Proof.
  induction s as [|c s IH]; intros cur.
  - simpl. destruct cur as [|x cur]; [reflexivity|].
    simpl. rewrite app_nil_r, nonempty_snoc. reflexivity.
  - simpl. destruct (is_delim c) eqn:Ed.
    + destruct (pieces_cons s) as (p & ps & Hp).
      assert (H0 : strtok_all [] s = filter nonempty (pieces s)).
      { rewrite IH, Hp. reflexivity. }
      simpl. rewrite app_nil_r.
      destruct cur as [|x cur]; [exact H0|].
      simpl. rewrite nonempty_snoc, H0. reflexivity.
    + rewrite IH. destruct (pieces_cons s) as (p & ps & ->).
      simpl. rewrite <- app_assoc. reflexivity.
Qed.

Lemma strtok_all_fields s : strtok_all [] s = fields s.
Proof.
  rewrite strtok_all_glue. unfold fields.
  destruct (pieces_cons s) as (p & ps & ->). reflexivity.
Qed.

Lemma pieces_no_delim s : Forall (fun t => no_delim t = true) (pieces s).
Proof.
  induction s as [|c s IH]; simpl.
  - constructor; [reflexivity|constructor].
  - destruct (is_delim c) eqn:Ed.
    + constructor; [reflexivity|exact IH].
    + destruct (pieces s) as [|p ps].
      * constructor; [|constructor]. simpl. rewrite Ed. reflexivity.
      * inversion IH; subst. constructor; [|assumption].
        simpl. rewrite Ed. assumption.
Qed.

Lemma pieces_concat s :
  concat (pieces s) = filter (fun c => negb (is_delim c)) s.
Proof.
  induction s as [|c s IH]; simpl; [reflexivity|].
  destruct (is_delim c); simpl; [exact IH|].
  destruct (pieces s) as [|p ps]; simpl in *; rewrite <- IH; reflexivity.
Qed.

Lemma concat_filter_nonempty (l : list cstr) : concat (filter nonempty l) = concat l.
Proof.
  induction l as [|t l IH]; simpl; [reflexivity|].
  destruct t; simpl; rewrite IH; reflexivity.
Qed.

Lemma fields_spec s :
  Forall (fun t => t <> [] /\ no_delim t = true) (fields s) /\
  concat (fields s) = filter (fun c => negb (is_delim c)) s.
Proof.
  unfold fields. split.
  - pose proof (pieces_no_delim s) as H.
    induction H as [|t l Ht Hl IH]; simpl; [constructor|].
    destruct t; simpl; [exact IH|].
    constructor; [|exact IH]. split; [discriminate|exact Ht].
  - rewrite concat_filter_nonempty. apply pieces_concat.
Qed.

Section Inputs.
Variable ib_rule_t : Type.
Variable ib_rule_add_input : ib_rule_t -> cstr -> ib_status_t * ib_rule_t.

(** The rule after the engine has been given the selectors [ts]. *)
Definition with_inputs (ts : list cstr) (rule : ib_rule_t) : ib_rule_t :=
  fold_left (fun r cur => snd (ib_rule_add_input r cur)) ts rule.

Lemma add_inputs_accepted ts : forall rule,
  Forall (fun cur => forall r, fst (ib_rule_add_input r cur) = IB_OK) ts ->
  add_inputs ib_rule_t ib_rule_add_input ts rule IB_OK
  = (IB_OK, with_inputs ts rule).
Proof.
  induction ts as [|cur ts IH]; intros rule Hok; [reflexivity|].
  inversion Hok as [|? ? H1 H2]; subst.
  cbn [add_inputs with_inputs fold_left].
  specialize (H1 rule).
  destruct (ib_rule_add_input rule cur) as [rc1 rule1]. simpl in H1. subst rc1.
  cbn [ib_status_eqb negb snd]. apply IH, H2.
Qed.

Lemma add_inputs_refused ts : forall rule bad rest,
  Forall (fun cur => forall r, fst (ib_rule_add_input r cur) = IB_OK) ts ->
  fst (ib_rule_add_input (with_inputs ts rule) bad) <> IB_OK ->
  add_inputs ib_rule_t ib_rule_add_input (ts ++ bad :: rest) rule IB_OK
  = ib_rule_add_input (with_inputs ts rule) bad.
Proof.
  induction ts as [|cur ts IH]; intros rule bad rest Hok Hrc.
  - cbn [app add_inputs with_inputs fold_left] in *.
    destruct (ib_rule_add_input rule bad) as [rc1 rule1]. simpl in Hrc.
    rewrite (status_neq rc1 Hrc). reflexivity.
  - inversion Hok as [|? ? H1 H2]. clear Hok.
    cbn [app add_inputs]. cbn [with_inputs fold_left] in *.
    specialize (H1 rule).
    destruct (ib_rule_add_input rule cur) as [rc1 rule1]. simpl in H1.
    rewrite H1. cbn [ib_status_eqb negb snd] in *. apply IH; assumption.
Qed.

Lemma parse_inputs_fields rule s :
  skip_isspace s <> [] ->
  parse_inputs ib_rule_t Some ib_rule_add_input rule s
  = add_inputs ib_rule_t ib_rule_add_input (fields (skip_isspace s)) rule IB_OK.
Proof.
  intros Hne. unfold parse_inputs.
  destruct (skip_isspace s) as [|c s1]; [congruence|].
  rewrite strtok_all_fields. reflexivity.
Qed.

(** When the engine accepts every selector, [parse_inputs] returns
    [IB_OK] for every string that holds more than white space, and it has
    given the engine the fields of the string, in order: the non-empty
    pieces between the delimiters ['|'] and [','] of the string less its
    leading white space.  No field is empty or holds a delimiter, and
    together they are the string without its delimiters: white space inside
    the string stays in the selectors. *)
Theorem parse_inputs_adds_fields :
  forall rule s,
    skip_isspace s <> [] ->
    (forall r cur, fst (ib_rule_add_input r cur) = IB_OK) ->
    parse_inputs ib_rule_t Some ib_rule_add_input rule s
      = (IB_OK, with_inputs (fields (skip_isspace s)) rule) /\
    Forall (fun t => t <> [] /\ no_delim t = true) (fields (skip_isspace s)) /\
    concat (fields (skip_isspace s))
      = filter (fun c => negb (is_delim c)) (skip_isspace s).
Proof.
  intros rule s Hne Hok. split; [|apply fields_spec].
  rewrite parse_inputs_fields by exact Hne.
  apply add_inputs_accepted. apply Forall_forall. intros cur _ r. apply Hok.
Qed.

(** [parse_inputs] stops at the first selector the engine refuses: it
    returns the status of that call and the rule as that call left it, with
    the selectors before it added and those after it not looked at. *)
Theorem parse_inputs_stops_at_refusal :
  forall rule s ts bad rest,
    fields (skip_isspace s) = ts ++ bad :: rest ->
    Forall (fun cur => forall r, fst (ib_rule_add_input r cur) = IB_OK) ts ->
    fst (ib_rule_add_input (with_inputs ts rule) bad) <> IB_OK ->
    parse_inputs ib_rule_t Some ib_rule_add_input rule s
      = ib_rule_add_input (with_inputs ts rule) bad.
Proof.
  intros rule s ts bad rest Hf Hok Hbad.
  rewrite parse_inputs_fields.
  - rewrite Hf. apply add_inputs_refused; assumption.
  - intros Hnil. rewrite Hnil in Hf. destruct ts; discriminate.
Qed.

End Inputs.

(** An engine that refuses the selector ["BAD"] and records the others. *)
Definition picky_add_input (rule : example_rule) (input : cstr)
  : ib_status_t * example_rule :=
  if strcasecmp_eq input (cstr_of "BAD") then (IB_ENOENT, rule)
  else example_add_input rule input.

Lemma parse_inputs_adds_fields_witness :
  parse_inputs example_rule Some example_add_input new_rule
    (cstr_of " ARGS |,HEADERS")
    = (IB_OK, with_inputs example_rule example_add_input
                [cstr_of "ARGS "; cstr_of "HEADERS"] new_rule) /\
  Forall (fun t => t <> [] /\ no_delim t = true)
         [cstr_of "ARGS "; cstr_of "HEADERS"] /\
  concat [cstr_of "ARGS "; cstr_of "HEADERS"] = cstr_of "ARGS HEADERS".
Proof.
  apply (parse_inputs_adds_fields example_rule example_add_input new_rule
           (cstr_of " ARGS |,HEADERS")).
  - discriminate.
  - reflexivity.
Defined.

Lemma parse_inputs_stops_at_refusal_witness :
  parse_inputs example_rule Some picky_add_input new_rule
    (cstr_of "ARGS|BAD|HEADERS")
  = (IB_ENOENT, mk_rule None 0 ["ARGS"%string] None [] []).
Proof.
  apply (parse_inputs_stops_at_refusal example_rule picky_add_input new_rule
           (cstr_of "ARGS|BAD|HEADERS") [cstr_of "ARGS"] (cstr_of "BAD")
           [cstr_of "HEADERS"]).
  - reflexivity.
  - apply Forall_cons; [|apply Forall_nil]. reflexivity.
  - discriminate.
Defined.

(** ** Phases and modifiers *)

Lemma strcasecmp_eq_lower a : forall b,
  strcasecmp_eq a b = true <-> map tolower a = map tolower b.
Proof.
  induction a as [|x a IH]; intros [|y b]; simpl;
    try (split; [discriminate|discriminate]); [tauto|].
  rewrite andb_true_iff, IH, Ascii.eqb_eq. split.
  - intros [-> ->]. reflexivity.
  - intros H. inversion H. auto.
Qed.

(** The tag of each phase, in small letters. *)
Definition phase_tag (p : ib_rule_phase_t) : cstr :=
  cstr_of match p with
          | PHASE_NONE => "none"
          | PHASE_REQUEST_HEADER => "request_header"
          | PHASE_REQUEST_BODY => "request"
          | PHASE_RESPONSE_HEADER => "response_header"
          | PHASE_RESPONSE_BODY => "response"
          | PHASE_POSTPROCESS => "postprocess"
          end.

Lemma strcasecmp_eq_tag v p :
  strcasecmp_eq v (phase_tag p) = true <-> map tolower v = phase_tag p.
Proof. rewrite strcasecmp_eq_lower. destruct p; reflexivity. Qed.

(** The value of a phase modifier names a phase exactly when it is one of
    the six tags, in any mixture of capital and small letters: [REQUEST] and
    [RESPONSE] are the body phases, and no tag hides another. *)
Theorem phase_tags_table :
  forall v p, phase_of_tag v = Some p <-> map tolower v = phase_tag p.
Proof.
  intros v p. unfold phase_of_tag.
  assert (Hyes : forall q T,
            map tolower T = phase_tag q -> strcasecmp_eq v T = true ->
            (Some q = Some p <-> map tolower v = phase_tag p)).
  { intros q T HT E. apply strcasecmp_eq_lower in E. rewrite HT in E.
    rewrite E. split.
    - intros H. inversion H. reflexivity.
    - intros H. destruct q, p; try reflexivity; discriminate H. }
  assert (Hno : forall q T,
            map tolower T = phase_tag q -> strcasecmp_eq v T = false ->
            map tolower v <> phase_tag q).
  { intros q T HT E H. rewrite <- HT in H.
    apply strcasecmp_eq_lower in H. congruence. }
  destruct (strcasecmp_eq v (cstr_of "REQUEST_HEADER")) eqn:E1;
    [apply (fun H => Hyes PHASE_REQUEST_HEADER _ H E1); reflexivity|].
  destruct (strcasecmp_eq v (cstr_of "REQUEST")) eqn:E2;
    [apply (fun H => Hyes PHASE_REQUEST_BODY _ H E2); reflexivity|].
  destruct (strcasecmp_eq v (cstr_of "RESPONSE_HEADER")) eqn:E3;
    [apply (fun H => Hyes PHASE_RESPONSE_HEADER _ H E3); reflexivity|].
  destruct (strcasecmp_eq v (cstr_of "RESPONSE")) eqn:E4;
    [apply (fun H => Hyes PHASE_RESPONSE_BODY _ H E4); reflexivity|].
  destruct (strcasecmp_eq v (cstr_of "POSTPROCESS")) eqn:E5;
    [apply (fun H => Hyes PHASE_POSTPROCESS _ H E5); reflexivity|].
  destruct (strcasecmp_eq v (cstr_of "NONE")) eqn:E6;
    [apply (fun H => Hyes PHASE_NONE _ H E6); reflexivity|].
  split; [discriminate|]. intros H. exfalso.
  destruct p.
  - apply (fun H0 => Hno PHASE_NONE _ H0 E6 H); reflexivity.
  - apply (fun H0 => Hno PHASE_REQUEST_HEADER _ H0 E1 H); reflexivity.
  - apply (fun H0 => Hno PHASE_REQUEST_BODY _ H0 E2 H); reflexivity.
  - apply (fun H0 => Hno PHASE_RESPONSE_HEADER _ H0 E3 H); reflexivity.
  - apply (fun H0 => Hno PHASE_RESPONSE_BODY _ H0 E4 H); reflexivity.
  - apply (fun H0 => Hno PHASE_POSTPROCESS _ H0 E5 H); reflexivity.
Qed.

(** The name of a modifier is [phase], in any mixture of capital and small
    letters. *)
Definition names_phase (m : cstr) : bool :=
  strcasecmp_eq (fst (split_modifier m)) (cstr_of "phase").

(** The phase a modifier names, if it is a phase modifier with a tag for its
    value. *)
Definition phase_named (m : cstr) : option ib_rule_phase_t :=
  if names_phase m then
    match snd (split_modifier m) with
    | Some v => phase_of_tag v
    | None => None
    end
  else None.

(** The phase after the modifiers [mods]: the one the last phase modifier
    names, or [phase] when there is none. *)
Fixpoint last_phase (mods : list cstr) (phase : ib_rule_phase_t)
  : ib_rule_phase_t :=
  match mods with
  | [] => phase
  | m :: mods' =>
      last_phase mods' (match phase_named m with Some p => p | None => phase end)
  end.

Lemma last_phase_none mods : forall phase,
  Forall (fun m => names_phase m = false) mods -> last_phase mods phase = phase.
Proof.
  induction mods as [|m mods IH]; intros phase H; [reflexivity|].
  inversion H as [|? ? Hm Hr]; subst. simpl.
  unfold phase_named. rewrite Hm. apply IH, Hr.
Qed.

Section Modifiers.
Variable ib_rule_t : Type.
Variable ib_operator_inst_t : Type.
Variable IB_OPINST_FLAG_NONE : Z.
Variable IB_OPINST_FLAG_INVERT : Z.
Variable ib_operator_inst_create :
  cstr -> option cstr -> Z -> ib_status_t * ib_operator_inst_t.
Variable ib_rule_set_operator :
  ib_rule_t -> ib_operator_inst_t -> ib_status_t * ib_rule_t.
Variable ib_rule_add_input : ib_rule_t -> cstr -> ib_status_t * ib_rule_t.
Variable ib_action_inst_t : Type.
Variable IB_ACTINST_FLAG_NONE : Z.
Variable FLAG_OP_OR : Z.
Variable ib_rule_create : ib_status_t * ib_rule_t.
Variable ib_rule_set_id : ib_rule_t -> cstr -> ib_status_t * ib_rule_t.
Variable ib_rule_update_flags : ib_rule_t -> Z -> Z -> ib_status_t * ib_rule_t.
Variable ib_action_inst_create :
  cstr -> option cstr -> Z -> ib_status_t * ib_action_inst_t.
Variable ib_rule_add_action :
  ib_rule_t -> ib_action_inst_t -> ib_rule_action_t -> ib_status_t * ib_rule_t.
Variable ib_rule_register : ib_rule_t -> ib_rule_phase_t -> ib_status_t.

(** The parser on an engine whose memory pool never fails. *)
Definition modifier (rule : ib_rule_t) (phase : ib_rule_phase_t) (m : cstr)
  : ib_status_t * ib_rule_t * ib_rule_phase_t :=
  parse_modifier ib_rule_t Some ib_action_inst_t IB_ACTINST_FLAG_NONE
    FLAG_OP_OR ib_rule_set_id ib_rule_update_flags ib_action_inst_create
    ib_rule_add_action rule phase m.

Definition modifiers (mods : list cstr) (rule : ib_rule_t)
    (phase : ib_rule_phase_t) : ib_status_t * ib_rule_t * ib_rule_phase_t :=
  parse_modifiers ib_rule_t Some ib_action_inst_t IB_ACTINST_FLAG_NONE
    FLAG_OP_OR ib_rule_set_id ib_rule_update_flags ib_action_inst_create
    ib_rule_add_action mods rule phase.

Definition directive (vars : list cstr)
  : ib_status_t * option (ib_rule_t * ib_rule_phase_t) :=
  rules_rule_params ib_rule_t ib_operator_inst_t IB_OPINST_FLAG_NONE
    IB_OPINST_FLAG_INVERT Some ib_operator_inst_create ib_rule_set_operator
    ib_rule_add_input ib_action_inst_t IB_ACTINST_FLAG_NONE FLAG_OP_OR
    ib_rule_create ib_rule_set_id ib_rule_update_flags ib_action_inst_create
    ib_rule_add_action ib_rule_register vars.

(** Lines 344-364: the modifier is an action. *)
Definition action_modifier (rule : ib_rule_t) (phase : ib_rule_phase_t)
    (name : cstr) (value : option cstr) (atype : ib_rule_action_t)
  : ib_status_t * ib_rule_t * ib_rule_phase_t :=
  let (rc, action) := ib_action_inst_create name value IB_ACTINST_FLAG_NONE in
  if ib_status_eqb rc IB_EINVAL then (IB_EINVAL, rule, phase)
  else if negb (ib_status_eqb rc IB_OK) then (rc, rule, phase)
  else let (rc1, rule1) := ib_rule_add_action rule action atype in
       (rc1, rule1, phase).

Lemma names_phase_not_id name :
  strcasecmp_eq name (cstr_of "phase") = true ->
  strcasecmp_eq name (cstr_of "id") = false.
Proof.
  intros H. apply strcasecmp_eq_lower in H.
  destruct (strcasecmp_eq name (cstr_of "id")) eqn:E; [|reflexivity].
  apply strcasecmp_eq_lower in E. rewrite E in H. discriminate H.
Qed.

(** What one modifier does to the phase. *)
Lemma parse_modifier_phase rule phase m :
  match modifier rule phase m with
  | (rc, rule', phase') =>
      (rc = IB_OK ->
       phase' = match phase_named m with Some p => p | None => phase end) /\
      (rc <> IB_OK -> phase' = phase) /\
      (names_phase m = true -> rule' = rule)
  end.
Proof.
  unfold modifier, parse_modifier, phase_named, names_phase.
  destruct (split_modifier m) as [name value]. cbn [fst snd].
  destruct (strcasecmp_eq name (cstr_of "phase")) eqn:Ep.
  - rewrite (names_phase_not_id name Ep).
    destruct value as [v|].
    + destruct (phase_of_tag v) as [ph|]; repeat split; congruence.
    + repeat split; congruence.
  - destruct (strcasecmp_eq name (cstr_of "id")).
    { destruct value; repeat split; congruence. }
    destruct (strcasecmp_eq name (cstr_of "chain")).
    { repeat split; congruence. }
    assert (Hact : forall name1 atype,
      let '(rc, rule', phase') := action_modifier rule phase name1 value atype in
      (rc = IB_OK -> phase' = phase) /\
      (rc <> IB_OK -> phase' = phase) /\ (false = true -> rule' = rule)).
    { intros name1 atype. unfold action_modifier.
      destruct (ib_action_inst_create name1 value IB_ACTINST_FLAG_NONE)
        as [rc action].
      destruct (ib_status_eqb rc IB_EINVAL); [repeat split; congruence|].
      destruct (negb (ib_status_eqb rc IB_OK)); [repeat split; congruence|].
      destruct (ib_rule_add_action rule action atype) as [rc1 rule1].
      repeat split; congruence. }
    destruct name as [|c name']; [exact (Hact _ _)|].
    destruct (c =? "!")%char; exact (Hact _ _).
Qed.

Lemma status_eqb_OK rc : negb (ib_status_eqb rc IB_OK) = false -> rc = IB_OK.
Proof. destruct rc; simpl; congruence. Qed.

Lemma parse_modifiers_phase mods : forall rule phase rule' phase',
  modifiers mods rule phase = (IB_OK, rule', phase') ->
  phase' = last_phase mods phase.
Proof.
  induction mods as [|m mods IH]; intros rule phase rule' phase' H.
  - unfold modifiers in H. simpl in H. inversion H. reflexivity.
  - unfold modifiers in H. cbn [parse_modifiers] in H.
    pose proof (parse_modifier_phase rule phase m) as Hm.
    unfold modifier in Hm.
    match type of Hm with
    | match ?x with _ => _ end => destruct x as [[rc rule1] phase1]
    end.
    destruct Hm as (Hok & _ & _).
    destruct (negb (ib_status_eqb rc IB_OK)) eqn:E.
    + inversion H; subst. discriminate E.
    + apply status_eqb_OK in E. subst rc.
      rewrite (Hok eq_refl) in H. simpl. exact (IH _ _ _ _ H).
Qed.

(** The Rule directive registers a rule in the phase its last phase modifier
    names, and in [PHASE_NONE] when no modifier is a phase modifier; it
    returns [IB_OK] whenever it has registered a rule. *)
Theorem rule_phase_is_last_named :
  forall inputs op mods rc rule ph,
    directive (inputs :: op :: mods) = (rc, Some (rule, ph)) ->
    rc = IB_OK /\
    ib_rule_register rule ph = IB_OK /\
    ph = last_phase mods PHASE_NONE /\
    (Forall (fun m => names_phase m = false) mods -> ph = PHASE_NONE).
Proof.
  intros inputs op mods rc rule ph H.
  unfold directive, rules_rule_params in H.
  destruct ib_rule_create as [rc0 rule0].
  destruct (negb (ib_status_eqb rc0 IB_OK)); [discriminate|].
  match type of H with
  | context [parse_inputs ?a ?b ?c ?d ?e] =>
      destruct (parse_inputs a b c d e) as [rc1 rule1]
  end.
  destruct (negb (ib_status_eqb rc1 IB_OK)); [discriminate|].
  unfold rule_after_inputs in H.
  match type of H with
  | context [parse_operator ?a ?b ?c ?d ?e ?f ?g ?h ?i] =>
      destruct (parse_operator a b c d e f g h i) as [rc2 rule2]
  end.
  destruct (negb (ib_status_eqb rc2 IB_OK)); [discriminate|].
  pose proof (parse_modifiers_phase mods rule2 PHASE_NONE) as Hph.
  unfold modifiers in Hph.
  match type of H with
  | context [parse_modifiers ?a ?b ?c ?d ?e ?f ?g ?h ?i ?j ?k ?l] =>
      destruct (parse_modifiers a b c d e f g h i j k l) as [[rc3 rule3] ph3]
  end.
  destruct (negb (ib_status_eqb rc3 IB_OK)) eqn:E3; [discriminate|].
  apply status_eqb_OK in E3. subst rc3.
  destruct (negb (ib_status_eqb (ib_rule_register rule3 ph3) IB_OK)) eqn:E4;
    [discriminate|].
  apply status_eqb_OK in E4.
  inversion H; subst.
  split; [reflexivity|]. split; [exact E4|].
  assert (Hl : ph = last_phase mods PHASE_NONE) by (eapply Hph; reflexivity).
  split; [exact Hl|].
  intros Hnone. rewrite Hl. apply last_phase_none, Hnone.
Qed.

(** Lines 339-342: a leading ['!'] makes the action one for a false
    result. *)
Definition strip_bang (name : cstr) : cstr * ib_rule_action_t :=
  match name with
  | c :: name' =>
      if (c =? "!")%char then (name', RULE_ACTION_FALSE)
      else (name, RULE_ACTION_TRUE)
  | [] => (name, RULE_ACTION_TRUE)
  end.

Lemma strchr_colon_none name :
  ~ In ":"%char name -> strchr_colon name = (name, None).
Proof.
  induction name as [|c name IH]; intros Hc; [reflexivity|]. simpl.
  destruct (Ascii.eqb_spec c ":") as [->|_]; [exfalso; apply Hc; left; reflexivity|].
  rewrite IH; [reflexivity|]. intros H. apply Hc. right. exact H.
Qed.

Lemma strchr_colon_found name r :
  ~ In ":"%char name ->
  strchr_colon (name ++ ":"%char :: r) = (name, Some (":"%char :: r)).
Proof.
  induction name as [|c name IH]; intros Hc; [reflexivity|]. simpl.
  destruct (Ascii.eqb_spec c ":") as [->|_]; [exfalso; apply Hc; left; reflexivity|].
  rewrite IH; [reflexivity|]. intros H. apply Hc. right. exact H.
Qed.

Lemma skip_isspace_all ws : forallb isspace ws = true -> skip_isspace ws = [].
Proof.
  induction ws as [|c ws IH]; [reflexivity|]. simpl.
  intros H. apply andb_prop in H. destruct H as [-> H]. apply IH, H.
Qed.

Lemma strcasecmp_eq_colon name t :
  map tolower t = t -> last t "x"%char <> ":"%char ->
  strcasecmp_eq (name ++ [":"%char]) t = false.
Proof.
  intros Ht Hl.
  destruct (strcasecmp_eq (name ++ [":"%char]) t) eqn:E; [|reflexivity].
  apply strcasecmp_eq_lower in E. rewrite Ht, map_app in E. simpl in E.
  exfalso. apply Hl. rewrite <- E. apply last_last.
Qed.

(** A colon at the very end of a modifier is part of its name, and the
    modifier is then handed to the engine as an action, whatever stands
    before the colon: [id:], [phase:] and [chain:] are actions of these
    names.  A colon followed by white space alone is dropped with the white
    space: the modifier is treated as its name alone, so that [id:] followed
    by a space is an [id] without a value. *)
Theorem modifier_colon_without_value :
  forall rule phase name ws,
    ~ In ":"%char name -> forallb isspace ws = true ->
    modifier rule phase (name ++ ":"%char :: ws) =
    match ws with
    | [] =>
        let (name1, atype) := strip_bang (name ++ [":"%char]) in
        action_modifier rule phase name1 None atype
    | _ :: _ => modifier rule phase name
    end.
Proof.
  intros rule phase name ws Hc Hws.
  unfold modifier, parse_modifier, split_modifier.
  rewrite strchr_colon_found by exact Hc.
  destruct ws as [|w ws].
  - rewrite !strcasecmp_eq_colon by (try reflexivity; simpl; discriminate).
    unfold strip_bang, action_modifier.
    destruct (name ++ [":"%char]) as [|c r]; [reflexivity|].
    destruct (c =? "!")%char; reflexivity.
  - rewrite skip_isspace_all by exact Hws.
    rewrite strchr_colon_none by exact Hc. reflexivity.
Qed.

End Modifiers.

Lemma rule_phase_is_last_named_witness :
  exists rule ph,
    example_directive
      ["ARGS"; "@rx ^foo"; "phase:REQUEST_HEADER"; "id:1"; "Phase: response"]%string
    = (IB_OK, Some (rule, ph)) /\
    IB_OK = IB_OK /\
    example_register rule ph = IB_OK /\
    ph = last_phase
           (map cstr_of ["phase:REQUEST_HEADER"; "id:1"; "Phase: response"]%string)
           PHASE_NONE /\
    (Forall (fun m => names_phase m = false)
            (map cstr_of ["phase:REQUEST_HEADER"; "id:1"; "Phase: response"]%string) ->
     ph = PHASE_NONE).
Proof.
  eexists. eexists. split; [reflexivity|].
  apply (rule_phase_is_last_named _ _ 0 1 example_create example_set
           example_add_input _ 0 0 (IB_OK, new_rule) example_set_id
           example_update_flags example_create example_add_action
           example_register (cstr_of "ARGS") (cstr_of "@rx ^foo")).
  reflexivity.
Defined.

Lemma modifier_colon_without_value_witness :
  modifier example_rule _ 0 0 example_set_id example_update_flags
    example_create example_add_action new_rule PHASE_NONE (cstr_of "id:")
  = (IB_OK, mk_rule None 0 [] None ["id:"%string] [], PHASE_NONE) /\
  modifier example_rule _ 0 0 example_set_id example_update_flags
    example_create example_add_action new_rule PHASE_NONE (cstr_of "id: ")
  = (IB_EINVAL, new_rule, PHASE_NONE).
Proof.
  split.
  - apply (modifier_colon_without_value example_rule _ 0 0 example_set_id
             example_update_flags example_create example_add_action
             new_rule PHASE_NONE (cstr_of "id") []).
    + simpl. intros [H|[H|H]]; [discriminate H|discriminate H|exact H].
    + reflexivity.
  - apply (modifier_colon_without_value example_rule _ 0 0 example_set_id
             example_update_flags example_create example_add_action
             new_rule PHASE_NONE (cstr_of "id") [" "%char]).
    + simpl. intros [H|[H|H]]; [discriminate H|discriminate H|exact H].
    + reflexivity.
Defined.

End ParserFacts.

(** * The lock and the Lua threads, counted *)

Module GateFacts.
Import Rules RulesFacts.

(** [1] for a call that succeeded, [0] for one that failed. *)
Definition counts (rc : ib_status_t) : Z :=
  if ib_status_eqb rc IB_OK then 1 else 0.

Section Accounting.
Variable world : Type.
Variable lua_State : Type.
Variable ib_lock_lock : world -> ib_status_t * world.
Variable ib_lock_unlock : world -> ib_status_t * world.
Variable ib_lua_new_thread : critical_section_fn_t world lua_State.
Variable ib_lua_join_thread : critical_section_fn_t world lua_State.
Variable ib_lua_func_eval_int :
  world -> option lua_State -> cstr -> ib_status_t * Z * world.

(** How often the lock is held, and how many Lua threads are alive. *)
Variable held : world -> Z.
Variable live : world -> Z.

(** What the calls do to these two counts: a lock taken is held once more,
    a lock released once less; a thread made is one more alive, a thread
    joined one less; a call that fails changes neither, and running a script
    changes neither. *)
Hypothesis lock_counts : forall w,
  held (snd (ib_lock_lock w)) = held w + counts (fst (ib_lock_lock w)) /\
  live (snd (ib_lock_lock w)) = live w.
Hypothesis unlock_counts : forall w,
  held (snd (ib_lock_unlock w)) = held w - counts (fst (ib_lock_unlock w)) /\
  live (snd (ib_lock_unlock w)) = live w.
Hypothesis new_thread_counts : forall w L,
  held (snd (ib_lua_new_thread w L)) = held w /\
  live (snd (ib_lua_new_thread w L))
    = live w + counts (fst (fst (ib_lua_new_thread w L))).
Hypothesis join_thread_counts : forall w L,
  held (snd (ib_lua_join_thread w L)) = held w /\
  live (snd (ib_lua_join_thread w L))
    = live w - counts (fst (fst (ib_lua_join_thread w L))).
Hypothesis eval_counts : forall w L name,
  held (snd (ib_lua_func_eval_int w L name)) = held w /\
  live (snd (ib_lua_func_eval_int w L name)) = live w.

Definition critical (e : engine world) (fn : critical_section_fn_t world lua_State)
    (L : option lua_State) : ib_status_t * option lua_State * engine world :=
  call_in_critical_section world lua_State ib_lock_lock ib_lock_unlock e fn L.

Definition eval_r (e : engine world) (func_name : cstr) (result : Z)
  : ib_status_t * Z * engine world :=
  ib_lua_func_eval_r world lua_State ib_lock_lock ib_lock_unlock
    ib_lua_new_thread ib_lua_join_thread ib_lua_func_eval_int e func_name result.

Lemma counts_OK rc : negb (ib_status_eqb rc IB_OK) = false -> counts rc = 1.
Proof. unfold counts. destruct (ib_status_eqb rc IB_OK); [reflexivity|discriminate]. Qed.

Lemma counts_not_OK rc : negb (ib_status_eqb rc IB_OK) = true -> counts rc = 0.
Proof. unfold counts. destruct (ib_status_eqb rc IB_OK); [discriminate|reflexivity]. Qed.

(** The critical section, seen through the counts: [d] is what the call
    made under the lock does to the number of threads.  The lock is left as
    it was found unless it was taken and could not be released, and then
    the status returned is not [IB_OK]. *)
Lemma critical_counts e fn L d :
  (forall w L0, held (snd (fn w L0)) = held w /\
                live (snd (fn w L0)) = live w + d * counts (fst (fst (fn w L0)))) ->
  match critical e fn L with
  | (rc, _, e') =>
      (held (fst e') = held (fst e) \/
       (held (fst e') = held (fst e) + 1 /\ rc <> IB_OK)) /\
      (live (fst e') = live (fst e) \/ live (fst e') = live (fst e) + d) /\
      (rc = IB_OK ->
       held (fst e') = held (fst e) /\ live (fst e') = live (fst e) + d)
  end.
Proof.
  intros Hfn. unfold critical, call_in_critical_section.
  pose proof (lock_counts (fst e)) as (Hl1 & Hl2).
  destruct (ib_lock_lock (fst e)) as [rc1 w1]. cbn [fst snd] in *.
  destruct (negb (ib_status_eqb rc1 IB_OK)) eqn:E1.
  { rewrite (counts_not_OK _ E1) in Hl1. cbn [fst snd ib_log_error].
    split; [left; lia|]. split; [left; lia|].
    intros ->. discriminate E1. }
  rewrite (counts_OK _ E1) in Hl1.
  pose proof (Hfn w1 L) as (Hf1 & Hf2).
  destruct (fn w1 L) as [[crc L1] w2]. cbn [fst snd] in *.
  pose proof (unlock_counts w2) as (Hu1 & Hu2).
  destruct (ib_lock_unlock w2) as [rc2 w3]. cbn [fst snd] in *.
  assert (Hd : counts crc = 1 \/ counts crc = 0)
    by (unfold counts; destruct (ib_status_eqb crc IB_OK); auto).
  assert (Hfst : forall b : bool,
            fst (if b
                 then ib_log_error world (w3, snd e)
                                   "Critical call failed: %d"%string
                 else (w3, snd e)) = w3)
    by (intros []; reflexivity).
  destruct (negb (ib_status_eqb rc2 IB_OK)) eqn:E2.
  - rewrite (counts_not_OK _ E2) in Hu1. cbn [fst snd ib_log_error].
    rewrite Hfst.
    split; [right; split; [lia|intros ->; discriminate E2]|].
    split; [destruct Hd as [Hd|Hd]; rewrite Hd in Hf2; [right|left]; lia|].
    intros ->. discriminate E2.
  - rewrite (counts_OK _ E2) in Hu1. rewrite Hfst.
    split; [left; lia|].
    split; [destruct Hd as [Hd|Hd]; rewrite Hd in Hf2; [right|left]; lia|].
    intros ->. unfold counts in Hf2. simpl in Hf2. lia.
Qed.

(** [call_in_critical_section] leaves the lock as it found it, whatever the
    call made under the lock returns, unless the lock was taken and could
    not be released; the status it returns is then not [IB_OK].  In
    particular a return of [IB_OK] means that the lock is free again. *)
Theorem critical_section_releases_lock :
  forall e fn L,
    (forall w L0, held (snd (fn w L0)) = held w) ->
    match critical e fn L with
    | (rc, _, e') =>
        (held (fst e') = held (fst e) \/
         (held (fst e') = held (fst e) + 1 /\ rc <> IB_OK)) /\
        (rc = IB_OK -> held (fst e') = held (fst e))
    end.
Proof.
  intros e fn L Hfn. unfold critical, call_in_critical_section.
  pose proof (lock_counts (fst e)) as (Hl1 & _).
  destruct (ib_lock_lock (fst e)) as [rc1 w1]. cbn [fst snd] in *.
  destruct (negb (ib_status_eqb rc1 IB_OK)) eqn:E1.
  { rewrite (counts_not_OK _ E1) in Hl1. cbn [fst snd ib_log_error].
    split; [left; lia|]. intros ->. discriminate E1. }
  rewrite (counts_OK _ E1) in Hl1.
  pose proof (Hfn w1 L) as Hf1.
  destruct (fn w1 L) as [[crc L1] w2]. cbn [fst snd] in *.
  pose proof (unlock_counts w2) as (Hu1 & _).
  destruct (ib_lock_unlock w2) as [rc2 w3]. cbn [fst snd] in *.
  assert (Hfst : forall b : bool,
            fst (if b
                 then ib_log_error world (w3, snd e)
                                   "Critical call failed: %d"%string
                 else (w3, snd e)) = w3)
    by (intros []; reflexivity).
  destruct (negb (ib_status_eqb rc2 IB_OK)) eqn:E2.
  - rewrite (counts_not_OK _ E2) in Hu1. cbn [fst snd ib_log_error].
    rewrite Hfst.
    split; [right; split; [lia|intros ->; discriminate E2]|].
    intros ->. discriminate E2.
  - rewrite (counts_OK _ E2) in Hu1. rewrite Hfst.
    split; [left; lia|]. intros _. lia.
Qed.

Lemma new_thread_step w L0 :
  held (snd (ib_lua_new_thread w L0)) = held w /\
  live (snd (ib_lua_new_thread w L0))
    = live w + 1 * counts (fst (fst (ib_lua_new_thread w L0))).
Proof. destruct (new_thread_counts w L0). split; [assumption|lia]. Qed.

Lemma join_thread_step w L0 :
  held (snd (ib_lua_join_thread w L0)) = held w /\
  live (snd (ib_lua_join_thread w L0))
    = live w + -1 * counts (fst (fst (ib_lua_join_thread w L0))).
Proof. destruct (join_thread_counts w L0). split; [assumption|lia]. Qed.

(** When [ib_lua_func_eval_r] returns [IB_OK] the lock is free again and
    the thread it made has been joined: as many threads are alive as
    before.  Whatever it returns, at most one thread more is alive than
    before. *)
Theorem script_run_accounts_for_its_thread :
  forall e func_name result,
    match eval_r e func_name result with
    | (rc, _, e') =>
        (rc = IB_OK ->
         held (fst e') = held (fst e) /\ live (fst e') = live (fst e)) /\
        live (fst e) <= live (fst e') <= live (fst e) + 1
    end.
Proof.
  intros e func_name result. unfold eval_r, ib_lua_func_eval_r.
  pose proof (critical_counts e ib_lua_new_thread None 1 new_thread_step) as H1.
  unfold critical in H1.
  destruct (call_in_critical_section world lua_State ib_lock_lock
              ib_lock_unlock e ib_lua_new_thread None) as [[rc1 L1] e1].
  destruct H1 as (_ & Hlv1 & Hok1).
  destruct (negb (ib_status_eqb rc1 IB_OK)) eqn:E1.
  { split; [intros ->; discriminate E1|lia]. }
  apply ParserFacts.status_eqb_OK in E1. subst rc1.
  destruct (Hok1 eq_refl) as (Hh1 & Hl1).
  pose proof (eval_counts (fst e1) L1 func_name) as (He1 & He2).
  destruct (ib_lua_func_eval_int (fst e1) L1 func_name) as [[rc2 v] w2].
  cbn [fst snd] in *.
  destruct (negb (ib_status_eqb rc2 IB_OK)) eqn:E2.
  { split; [intros ->; discriminate E2|]. cbn [fst]. lia. }
  pose proof (critical_counts (w2, snd e1) ib_lua_join_thread L1 (-1)
                join_thread_step) as H3.
  unfold critical in H3.
  destruct (call_in_critical_section world lua_State ib_lock_lock
              ib_lock_unlock (w2, snd e1) ib_lua_join_thread L1)
    as [[rc3 L3] e3].
  cbn [fst snd] in *.
  destruct H3 as (_ & Hlv3 & Hok3).
  split; [|lia].
  intros ->. destruct (Hok3 eq_refl). lia.
Qed.

(** When the thread was made and the script then fails,
    [ib_lua_func_eval_r] returns the status and the value of the script at
    once: [ib_lua_join_thread] is not called and the thread stays alive, one
    more than before, while the lock is free. *)
Theorem script_failure_keeps_thread :
  forall e func_name result L e1,
    critical e ib_lua_new_thread None = (IB_OK, L, e1) ->
    fst (fst (ib_lua_func_eval_int (fst e1) L func_name)) <> IB_OK ->
    match eval_r e func_name result with
    | (rc, v, e') =>
        (rc, v) = fst (ib_lua_func_eval_int (fst e1) L func_name) /\
        snd e' = snd e1 /\
        live (fst e') = live (fst e) + 1 /\
        held (fst e') = held (fst e)
    end.
Proof.
  intros e func_name result L e1 Hnew Hbad.
  pose proof (critical_counts e ib_lua_new_thread None 1 new_thread_step) as H1.
  rewrite Hnew in H1. destruct H1 as (_ & _ & Hok1).
  destruct (Hok1 eq_refl) as (Hh1 & Hl1).
  unfold eval_r, ib_lua_func_eval_r. unfold critical in Hnew. rewrite Hnew.
  cbn [ib_status_eqb negb].
  pose proof (eval_counts (fst e1) L func_name) as (He1 & He2).
  destruct (ib_lua_func_eval_int (fst e1) L func_name) as [[rc2 v] w2].
  cbn [fst snd] in *. rewrite (status_neq rc2 Hbad). cbn [fst snd].
  split; [reflexivity|]. split; [reflexivity|]. split; lia.
Qed.

End Accounting.

(** A world for witnesses: the two counts and nothing else.  The lock and
    the threads never fail; the script [fails] does. *)
Definition count_lock (w : Z * Z) : ib_status_t * (Z * Z) :=
  (IB_OK, (fst w + 1, snd w)).

Definition count_unlock (w : Z * Z) : ib_status_t * (Z * Z) :=
  (IB_OK, (fst w - 1, snd w)).

Definition count_new_thread : critical_section_fn_t (Z * Z) unit :=
  fun w _ => (IB_OK, Some tt, (fst w, snd w + 1)).

Definition count_join_thread : critical_section_fn_t (Z * Z) unit :=
  fun w _ => (IB_OK, None, (fst w, snd w - 1)).

Definition count_script (w : Z * Z) (L : option unit) (name : cstr)
  : ib_status_t * Z * (Z * Z) :=
  if strcasecmp_eq name (cstr_of "fails") then (IB_EUNKNOWN, 0, w)
  else (IB_OK, 1, w).

Lemma critical_section_releases_lock_witness :
  match critical (Z * Z) unit count_lock count_unlock ((0, 0), [])
                 count_new_thread None with
  | (rc, _, e') =>
      (fst (fst e') = 0 \/ (fst (fst e') = 0 + 1 /\ rc <> IB_OK)) /\
      (rc = IB_OK -> fst (fst e') = 0)
  end.
Proof.
  apply (critical_section_releases_lock (Z * Z) unit count_lock count_unlock
           fst snd).
  - intros w. split; reflexivity.
  - intros w. unfold count_unlock, counts. simpl. split; [lia|reflexivity].
  - intros w L0. reflexivity.
Defined.

Lemma script_run_accounts_for_its_thread_witness :
  match eval_r (Z * Z) unit count_lock count_unlock count_new_thread
               count_join_thread count_script ((0, 0), []) (cstr_of "rule1") 7 with
  | (rc, _, e') =>
      (rc = IB_OK -> fst (fst e') = 0 /\ snd (fst e') = 0) /\
      0 <= snd (fst e') <= 0 + 1
  end.
Proof.
  apply (script_run_accounts_for_its_thread (Z * Z) unit count_lock
           count_unlock count_new_thread count_join_thread count_script
           fst snd).
  - intros w. split; reflexivity.
  - intros w. unfold count_unlock, counts. simpl. split; [lia|reflexivity].
  - intros w L0. split; reflexivity.
  - intros w L0. unfold count_join_thread, counts. simpl. split; [reflexivity|lia].
  - intros w L0 name. unfold count_script.
    destruct (strcasecmp_eq name (cstr_of "fails")); split; reflexivity.
Defined.

Lemma script_failure_keeps_thread_witness :
  match eval_r (Z * Z) unit count_lock count_unlock count_new_thread
               count_join_thread count_script ((0, 0), []) (cstr_of "fails") 7 with
  | (rc, v, e') =>
      (rc, v) = (IB_EUNKNOWN, 0) /\ snd e' = [] /\
      snd (fst e') = 0 + 1 /\ fst (fst e') = 0
  end.
Proof.
  apply (script_failure_keeps_thread (Z * Z) unit count_lock
           count_unlock count_new_thread count_join_thread count_script
           fst snd) with (L := Some tt) (e1 := ((0, 1), [])).
  - intros w. split; reflexivity.
  - intros w. unfold count_unlock, counts. simpl. split; [lia|reflexivity].
  - intros w L0. split; reflexivity.
  - intros w L0 name. unfold count_script.
    destruct (strcasecmp_eq name (cstr_of "fails")); split; reflexivity.
  - reflexivity.
  - discriminate.
Defined.

End GateFacts.

(** * The buffering policy and the calls of process_data *)

Module InitFacts.
Import TsFilter QsortFacts TsFilterFacts.

(** The limit the configuration gives for a direction. *)
Definition body_buffer_limit (dir : ib_server_direction_t) (corecfg : ib_core_cfg_t)
  : Z :=
  match dir with
  | IBD_REQ => request_body_buffer_limit corecfg
  | IBD_RESP => response_body_buffer_limit corecfg
  end.

Definition buffer_switch (dir : ib_server_direction_t) (corecfg : ib_core_cfg_t)
  : Z :=
  match dir with
  | IBD_REQ => buffer_req corecfg
  | IBD_RESP => buffer_res corecfg
  end.

Section Policy.
Variable FLUSH_ALL : Z.
Variable ALLOW_ALL : Z.
Variable ALLOW_REQUEST : Z.
Variable INSPECT_REQBODY : Z.
Variable INSPECT_REQHDR : Z.
Variable INSPECT_RESBODY : Z.
Variable INSPECT_RESHDR : Z.
Variable ib_flags_any : Z -> Z -> bool.
Variable ib_flags_all : Z -> Z -> bool.

Definition init (dir : ib_server_direction_t) (tx : option Z)
    (config : ib_status_t * ib_core_cfg_t) (t : tsib_txn_ctx) : tsib_txn_ctx :=
  buffer_init FLUSH_ALL ALLOW_ALL ALLOW_REQUEST INSPECT_REQBODY INSPECT_REQHDR
    INSPECT_RESBODY INSPECT_RESHDR ib_flags_any ib_flags_all dir tx config t.

Definition disabled (dir : ib_server_direction_t) (flags : Z) : bool :=
  buffering_disabled ALLOW_ALL ALLOW_REQUEST INSPECT_REQBODY INSPECT_REQHDR
    INSPECT_RESBODY INSPECT_RESHDR ib_flags_any ib_flags_all dir flags.

(** [f'] differs from [f] in the mode and the limit at most. *)
Definition same_stream (f f' : tsib_filter_ctx) : Prop :=
  output_vio f' = output_vio f /\ output_buffer f' = output_buffer f /\
  reader f' = reader f /\ buffered f' = buffered f /\ edits f' = edits f /\
  offs f' = offs f /\ bytes_done f' = bytes_done f /\ applied f' = applied f.

Lemma size_t_of_Z_range z : 0 <= size_t_of_Z z < 2 ^ 64.
Proof. unfold size_t_of_Z. apply Z.mod_pos_bound. lia. Qed.

Lemma size_t_of_Z_nonneg z : 0 <= z < 2 ^ 63 -> size_t_of_Z z = z.
Proof. intros H. unfold size_t_of_Z. apply Z.mod_small. lia. Qed.

Lemma size_t_of_Z_neg z : - 2 ^ 63 <= z < 0 -> size_t_of_Z z = 2 ^ 64 + z.
Proof.
  intros H. unfold size_t_of_Z.
  replace z with ((2 ^ 64 + z) + (-1) * 2 ^ 64) at 1 by lia.
  rewrite Z.mod_add by lia. apply Z.mod_small. lia.
Qed.

Lemma init_readable dir flags corecfg t :
  fctx (init dir (Some flags) (IB_OK, corecfg) t) =
  set_buf_limit
    (set_buffering (fctx t)
       (if negb (iobuf_mode_eqb
                   (configured_mode FLUSH_ALL (buffer_switch dir corecfg)
                      (body_buffer_limit dir corecfg)
                      (match dir with
                       | IBD_REQ => request_body_buffer_limit_action corecfg
                       | IBD_RESP => response_body_buffer_limit_action corecfg
                       end)) IOBUF_NOBUF)
           && disabled dir flags
        then IOBUF_NOBUF
        else configured_mode FLUSH_ALL (buffer_switch dir corecfg)
               (body_buffer_limit dir corecfg)
               (match dir with
                | IBD_REQ => request_body_buffer_limit_action corecfg
                | IBD_RESP => response_body_buffer_limit_action corecfg
                end)))
    (size_t_of_Z (body_buffer_limit dir corecfg)) /\
  tx_log (init dir (Some flags) (IB_OK, corecfg) t) = tx_log t.
Proof.
  unfold init, buffer_init, disabled. cbn [ib_status_eqb negb].
  destruct dir; cbn [buffer_switch body_buffer_limit fctx set_fctx buffering
                     set_buf_limit set_buffering];
    match goal with
    | |- context [negb (iobuf_mode_eqb ?m IOBUF_NOBUF) && ?d] =>
        destruct (negb (iobuf_mode_eqb m IOBUF_NOBUF) && d)
    end; split; reflexivity.
Qed.

(** The policy [buffer_init] draws from a configuration it could read, with
    a limit that fits the signed type.  The mode is never [discard].  It is
    a flushing mode only with a limit that is not negative, which becomes
    [buf_limit] as it is; it is [buffer_all] only with a negative limit;
    it is [nobuf] whenever the flags of the transaction switch buffering off
    or the configuration has buffering off.  Nothing else of the filter
    changes and nothing is logged. *)
Theorem buffer_init_policy :
  forall dir flags corecfg t,
    - 2 ^ 63 <= body_buffer_limit dir corecfg < 2 ^ 63 ->
    let t' := init dir (Some flags) (IB_OK, corecfg) t in
    let limit := body_buffer_limit dir corecfg in
    buffering (fctx t') <> IOBUF_DISCARD /\
    (buffering (fctx t') = IOBUF_BUFFER_FLUSHALL \/
     buffering (fctx t') = IOBUF_BUFFER_FLUSHPART ->
     0 <= limit /\ buf_limit (fctx t') = limit) /\
    (buffering (fctx t') = IOBUF_BUFFER_ALL -> limit < 0) /\
    (disabled dir flags = true \/ buffer_switch dir corecfg = 0 ->
     buffering (fctx t') = IOBUF_NOBUF) /\
    0 <= buf_limit (fctx t') < 2 ^ 64 /\
    same_stream (fctx t) (fctx t') /\ tx_log t' = tx_log t.
Proof.
  intros dir flags corecfg t Hlim t' limit. subst t'.
  destruct (init_readable dir flags corecfg t) as (Hf & Hlog).
  rewrite Hf, Hlog. cbn [buffering buf_limit set_buf_limit set_buffering].
  fold limit.
  set (action := match dir with
                 | IBD_REQ => request_body_buffer_limit_action corecfg
                 | IBD_RESP => response_body_buffer_limit_action corecfg
                 end).
  unfold configured_mode.
  destruct (Z.eqb_spec (buffer_switch dir corecfg) 0) as [Hsw|Hsw];
    [|destruct (Z.ltb_spec limit 0) as [Hneg|Hneg];
      [|destruct (action =? FLUSH_ALL)]];
    cbn [iobuf_mode_eqb negb andb];
    destruct (disabled dir flags);
    (split; [discriminate|]);
    (split; [intros [H|H]; try discriminate H;
             (split; [lia|apply size_t_of_Z_nonneg; lia])|]);
    (split; [intros H; try discriminate H; lia|]);
    (split; [intros [H|H]; try reflexivity; try discriminate H; congruence|]);
    (split; [apply size_t_of_Z_range|]);
    (split; [repeat split|reflexivity]).
Qed.

Lemma configured_mode_not_discard buffer_on limit action :
  configured_mode FLUSH_ALL buffer_on limit action <> IOBUF_DISCARD.
Proof.
  unfold configured_mode.
  destruct (buffer_on =? 0); [discriminate|].
  destruct (limit <? 0); [discriminate|].
  destruct (action =? FLUSH_ALL); discriminate.
Qed.

(** Whatever the transaction and the configuration, [buffer_init] touches
    the mode, the limit and the error log only; the mode it leaves is the
    one it found or is not [discard], and the limit it leaves is the one it
    found or a [size_t]. *)
Lemma init_shape dir tx config t :
  exists mode limit log,
    init dir tx config t
    = mk_txn (set_buf_limit (set_buffering (fctx t) mode) limit)
             (input_nbytes t) (input_ndone t) (input_reader t) log
             (upstream t) /\
    (mode = buffering (fctx t) \/ mode <> IOBUF_DISCARD) /\
    (limit = buf_limit (fctx t) \/ 0 <= limit).
Proof.
  destruct t as [f nb nd rd lg up].
  destruct f as [vio ob md lim rdr bf es ofs bd ap].
  unfold init, buffer_init.
  destruct tx as [flags|].
  2:{ exists IOBUF_NOBUF, lim, lg. split; [reflexivity|].
      split; [right; discriminate|left; reflexivity]. }
  destruct config as [rc corecfg].
  destruct (negb (ib_status_eqb rc IB_OK)).
  - cbn [log_error_tx fctx buffering].
    match goal with
    | |- context [if ?c then _ else _] => destruct c
    end.
    + eexists IOBUF_NOBUF, lim, _. split; [reflexivity|].
      split; [right; discriminate|left; reflexivity].
    + eexists md, lim, _. split; [reflexivity|].
      split; left; reflexivity.
  - destruct dir; cbn [fctx set_fctx set_buf_limit set_buffering buffering];
      match goal with
      | |- context [if ?c then _ else _] => destruct c
      end;
      (eexists _, _, _; split; [reflexivity|]);
      (split; [right; first [discriminate|apply configured_mode_not_discard]
              |right; apply size_t_of_Z_range]).
Qed.

Lemma init_plain dir tx config t :
  plain (fctx t) -> buffering (fctx t) <> IOBUF_DISCARD ->
  plain (fctx (init dir tx config t)) /\
  buffering (fctx (init dir tx config t)) <> IOBUF_DISCARD /\
  same_stream (fctx t) (fctx (init dir tx config t)) /\
  input_nbytes (init dir tx config t) = input_nbytes t /\
  input_ndone (init dir tx config t) = input_ndone t /\
  input_reader (init dir tx config t) = input_reader t /\
  upstream (init dir tx config t) = upstream t.
Proof.
  intros (He & Hb & Hl) Hm.
  destruct (init_shape dir tx config t) as (mode & limit & log & -> & Hmode & Hlim).
  simpl.
  split; [split; [exact He|split; [exact Hb|]]|].
  { destruct Hlim as [->|H]; assumption. }
  split; [destruct Hmode as [->|H]; assumption|].
  split; [repeat split|auto].
Qed.

(** ** A body that arrives over several calls *)

Variable qsort : (edit_t -> edit_t -> Z) -> list edit_t -> list edit_t.
Variable ib_notify_body : list byte -> list edit_t -> ib_status_t * list edit_t.

Definition call (created : bool) (dir : ib_server_direction_t) (tx : option Z)
    (config : ib_status_t * ib_core_cfg_t) (http_code in_buf_null : bool)
    (t : tsib_txn_ctx) : run (bool * tsib_txn_ctx) :=
  process_data_call FLUSH_ALL ALLOW_ALL ALLOW_REQUEST INSPECT_REQBODY
    INSPECT_REQHDR INSPECT_RESBODY INSPECT_RESHDR ib_flags_any ib_flags_all
    qsort ib_notify_body created dir tx config http_code in_buf_null t.

(** Upstream has put the blocks of [batch] into the input buffer. *)
Definition deliver (t : tsib_txn_ctx) (batch : list (list byte)) : tsib_txn_ctx :=
  mk_txn (fctx t) (input_nbytes t) (input_ndone t) (input_reader t ++ batch)
         (tx_log t) (upstream t).

(** One call of [process_data] after each batch, for a transaction whose
    status is no error. *)
Fixpoint calls (created : bool) (dir : ib_server_direction_t) (tx : option Z)
    (config : ib_status_t * ib_core_cfg_t) (batches : list (list (list byte)))
    (t : tsib_txn_ctx) : run (bool * tsib_txn_ctx) :=
  match batches with
  | [] => Done (created, t)
  | batch :: rest =>
      '(c, t1) <- call created dir tx config false false (deliver t batch) ;;
      calls c dir tx config rest t1
  end.

Lemma process_blocks_inv blocks : forall t t',
  process_blocks qsort ib_notify_body blocks t = Done t' ->
  filter_inv (fctx t) -> filter_inv (fctx t').
Proof.
  induction blocks as [|buf rest IH]; intros t t' H Hinv.
  - simpl in H. inversion H; subst. exact Hinv.
  - cbn [process_blocks] in H.
    destruct (0 <? TSIOBufferReaderAvail (concat (buf :: rest)));
      [|inversion H; subst; exact Hinv].
    destruct (ib_notify_body buf (edits (fctx t))) as [rc0 es].
    match type of H with
    | context [buffer_data_chunk ?q ?f ?i ?n] =>
        destruct (buffer_data_chunk q f i n) as [[rc f1]| |] eqn:E
    end; cbn [run_bind] in H; try discriminate.
    apply IH in H; [exact H|]. simpl.
    assert (Hf1 : filter_inv f1).
    { eapply buffer_data_chunk_inv; [exact E|].
      apply filter_inv_set_edits.
      destruct (ib_status_eqb rc0 IB_OK); exact Hinv. }
    destruct rc; exact Hf1.
Qed.

Lemma process_blocks_drained blocks : forall t t',
  process_blocks qsort ib_notify_body blocks t = Done t' ->
  input_reader t = blocks -> concat (input_reader t') = [].
Proof.
  induction blocks as [|buf rest IH]; intros t t' H Hr.
  - simpl in H. inversion H; subst. rewrite Hr. reflexivity.
  - cbn [process_blocks] in H.
    destruct (Z.ltb_spec 0 (TSIOBufferReaderAvail (concat (buf :: rest))))
      as [Hav|Hav].
    + destruct (ib_notify_body buf (edits (fctx t))) as [rc0 es].
      match type of H with
      | context [buffer_data_chunk ?q ?f ?i ?n] =>
          destruct (buffer_data_chunk q f i n) as [[rc f1]| |]
      end; cbn [run_bind] in H; try discriminate.
      apply IH in H; [exact H|]. reflexivity.
    + inversion H; subst. rewrite Hr. apply length_concat_0.
      unfold TSIOBufferReaderAvail in Hav. lia.
Qed.

(** One call for a context that is set up and holds no edit, while bytes
    are still to come. *)
Lemma call_created_plain dir tx config t :
  keeps_empty ib_notify_body ->
  plain (fctx t) -> buffering (fctx t) <> IOBUF_DISCARD ->
  filter_inv (fctx t) -> TSVIONTodoGet t <> 0 ->
  exists t',
    call true dir tx config false false t = Done (true, t') /\
    plain (fctx t') /\ buffering (fctx t') <> IOBUF_DISCARD /\
    filter_inv (fctx t') /\
    input_nbytes t' = input_nbytes t /\
    input_ndone t'
      = input_ndone t + Z.of_nat (length (concat (input_reader t))) /\
    concat (input_reader t') = [] /\
    output_buffer (fctx t') ++ reader (fctx t')
      = output_buffer (fctx t) ++ reader (fctx t) ++ concat (input_reader t) /\
    if TSVIONTodoGet t' =? 0
    then reader (fctx t') = [] /\
         vio_nbytes (output_vio (fctx t')) = emitted (fctx t') /\
         upstream t' = upstream t ++ [TS_EVENT_VCONN_WRITE_COMPLETE]
    else upstream t' = upstream t ++ [TS_EVENT_VCONN_WRITE_READY].
Proof.
  intros Hk Hp Hm Hinv Htodo.
  unfold call, process_data_call.
  destruct (Z.eqb_spec (TSVIONTodoGet t) 0) as [|_]; [contradiction|].
  destruct (process_blocks_plain qsort ib_notify_body (input_reader t) t Hk Hp Hm)
    as (t1 & Hrun & Hext & Hd & Hn & Hu).
  rewrite Hrun. cbn [run_bind].
  pose proof (process_blocks_inv _ _ _ Hrun Hinv) as Hinv1.
  pose proof (process_blocks_drained _ _ _ Hrun eq_refl) as Hdr1.
  destruct Hext as (Hp1 & Hm1 & Hl1 & Ho1).
  destruct (Z.eqb_spec (TSVIONTodoGet t1) 0) as [Hz|Hz].
  - unfold final_flush.
    destruct (flush_data_plain qsort (fctx t1) (-1) true Hp1)
      as (f2 & Hfl & Hext2 & Ho2 & Hr2).
    { change (requested (fctx t1) (-1)) with (buffered (fctx t1)).
      destruct Hp1 as (_ & Hb1 & _). pose proof (avail_nonneg (fctx t1)). lia. }
    rewrite Hfl. cbn [run_bind].
    eexists. split; [reflexivity|].
    change (requested (fctx t1) (-1)) with (buffered (fctx t1)) in *.
    destruct Hext2 as (Hp2 & Hm2 & Hl2 & Ho2').
    assert (Hrd : reader f2 = []).
    { rewrite Hr2. destruct Hp1 as (_ & Hb1 & _). rewrite Hb1.
      unfold avail, TSIOBufferReaderAvail. rewrite Nat2Z.id. apply skipn_all. }
    cbn [fctx TSContCall set_fctx input_nbytes input_ndone input_reader upstream
         TSVIONTodoGet].
    split; [exact Hp2|]. split; [congruence|].
    pose proof (flush_data_inv qsort _ _ _ _ _ Hfl Hinv1) as Hinv2.
    split; [exact Hinv2|]. split; [exact Hn|]. split; [exact Hd|].
    split; [exact Hdr1|]. split.
    { rewrite Ho2', app_nil_r. exact Ho1. }
    change (TSVIONTodoGet (TSContCall (set_fctx t1 f2)
                             TS_EVENT_VCONN_WRITE_COMPLETE))
      with (TSVIONTodoGet t1).
    rewrite Hz. cbn [Z.eqb].
    split; [exact Hrd|]. split; [|rewrite Hu; reflexivity].
    rewrite (flush_data_committed qsort _ _ _ _ Hfl).
    destruct Hinv2 as (_ & He). lia.
  - eexists. split; [reflexivity|].
    cbn [fctx TSContCall input_nbytes input_ndone input_reader upstream
         TSVIONTodoGet].
    split; [exact Hp1|]. split; [congruence|]. split; [exact Hinv1|].
    split; [exact Hn|]. split; [exact Hd|]. split; [exact Hdr1|].
    split; [exact Ho1|].
    change (TSVIONTodoGet (TSContCall t1 TS_EVENT_VCONN_WRITE_READY))
      with (TSVIONTodoGet t1).
    destruct (Z.eqb_spec (TSVIONTodoGet t1) 0); [contradiction|].
    rewrite Hu. reflexivity.
Qed.

Lemma calls_created dir tx config batches : forall t,
  keeps_empty ib_notify_body ->
  plain (fctx t) -> buffering (fctx t) <> IOBUF_DISCARD ->
  filter_inv (fctx t) -> concat (input_reader t) = [] ->
  batches <> [] -> Forall (fun batch => concat batch <> []) batches ->
  input_nbytes t
    = input_ndone t + Z.of_nat (length (concat (concat batches))) ->
  exists t',
    calls true dir tx config batches t = Done (true, t') /\
    output_buffer (fctx t')
      = output_buffer (fctx t) ++ reader (fctx t) ++ concat (concat batches) /\
    reader (fctx t') = [] /\
    vio_nbytes (output_vio (fctx t')) = emitted (fctx t') /\
    upstream t'
      = upstream t
        ++ repeat TS_EVENT_VCONN_WRITE_READY (length batches - 1)
        ++ [TS_EVENT_VCONN_WRITE_COMPLETE].
Proof.
  induction batches as [|batch rest IH]; intros t Hk Hp Hm Hinv Hrd Hne Hdata Hn;
    [congruence|].
  inversion Hdata as [|? ? Hb Hrest]; subst.
  cbn [calls].
  assert (Hlen : 0 < Z.of_nat (length (concat batch))).
  { destruct (concat batch); [congruence|simpl; lia]. }
  assert (Hin : concat (input_reader (deliver t batch)) = concat batch).
  { cbn [deliver input_reader]. rewrite concat_app, Hrd. reflexivity. }
  assert (Hcc : forall b (r : list (list (list byte))),
            concat (concat (b :: r)) = concat b ++ concat (concat r))
    by (intros; simpl; apply concat_app).
  rewrite Hcc, length_app, Nat2Z.inj_add in Hn.
  destruct (call_created_plain dir tx config (deliver t batch) Hk Hp Hm Hinv)
    as (t1 & Hrun & Hp1 & Hm1 & Hinv1 & Hn1 & Hd1 & Hrd1 & Ho1 & Hev).
  { unfold TSVIONTodoGet. cbn [deliver input_nbytes input_ndone]. lia. }
  rewrite Hrun. cbn [run_bind].
  rewrite Hin in Hd1, Ho1.
  cbn [deliver fctx input_nbytes input_ndone upstream] in *.
  rewrite Hcc.
  destruct rest as [|batch2 rest'].
  - exists t1. split; [reflexivity|].
    assert (Hz : TSVIONTodoGet t1 = 0).
    { unfold TSVIONTodoGet. simpl in Hn. lia. }
    rewrite Hz in Hev. cbn [Z.eqb] in Hev. destruct Hev as (Hr & Hv & Hu).
    rewrite Hr, app_nil_r in Ho1.
    split; [simpl; rewrite app_nil_r; exact Ho1|].
    split; [exact Hr|]. split; [exact Hv|exact Hu].
  - inversion Hrest as [|? ? Hb2 _]; subst.
    assert (Hlen2 : 0 < Z.of_nat (length (concat (concat (batch2 :: rest'))))).
    { rewrite Hcc, length_app.
      destruct (concat batch2); [congruence|simpl; lia]. }
    assert (Hz : TSVIONTodoGet t1 <> 0) by (unfold TSVIONTodoGet; lia).
    destruct (Z.eqb_spec (TSVIONTodoGet t1) 0); [contradiction|].
    destruct (IH t1 Hk Hp1 Hm1 Hinv1 Hrd1)
      as (t' & Hrun' & Ho' & Hr' & Hv' & Hu'); [discriminate|exact Hrest|lia|].
    exists t'. split; [exact Hrun'|].
    split.
    { rewrite Ho', app_assoc, Ho1, <- !app_assoc. reflexivity. }
    split; [exact Hr'|]. split; [exact Hv'|].
    rewrite Hu', Hev, <- app_assoc. simpl. rewrite Nat.sub_0_r. reflexivity.
Qed.

Lemma init_deliver dir tx config t batch :
  init dir tx config (deliver t batch) = deliver (init dir tx config t) batch.
Proof.
  unfold init, buffer_init, deliver.
  destruct tx as [flags|]; [|reflexivity].
  destruct config as [rc corecfg].
  destruct (negb (ib_status_eqb rc IB_OK)); [|destruct dir];
    cbn [fctx set_fctx log_error_tx buffering set_buf_limit set_buffering];
    match goal with
    | |- context [if ?c then _ else _] => destruct c
    end; reflexivity.
Qed.

(** A body without edits, from the first call of [process_data] to the
    last.  The context is as the transaction starts with it: nothing
    buffered, nothing counted; the buffers are made by the first call, and
    the mode and the limit are whatever [buffer_init] takes from the
    transaction and the configuration.  However the body is cut into
    batches of blocks, one call per batch, the calls all return; each but
    the last asks upstream for more, the last reports the write complete;
    the output buffer then holds the body, byte for byte, and the byte count
    set on the output write-intent is its length. *)
Theorem body_passes_through_calls :
  forall dir tx config batches t,
    keeps_empty ib_notify_body ->
    edits (fctx t) = [] -> buffered (fctx t) = 0 -> offs (fctx t) = 0 ->
    bytes_done (fctx t) = 0 -> applied (fctx t) = [] ->
    0 <= buf_limit (fctx t) -> buffering (fctx t) <> IOBUF_DISCARD ->
    input_reader t = [] -> input_ndone t = 0 ->
    input_nbytes t = Z.of_nat (length (concat (concat batches))) ->
    batches <> [] -> Forall (fun batch => concat batch <> []) batches ->
    exists t',
      calls false dir tx config batches t = Done (true, t') /\
      output_buffer (fctx t') = concat (concat batches) /\
      reader (fctx t') = [] /\
      vio_nbytes (output_vio (fctx t'))
        = Z.of_nat (length (concat (concat batches))) /\
      upstream t'
        = upstream t
          ++ repeat TS_EVENT_VCONN_WRITE_READY (length batches - 1)
          ++ [TS_EVENT_VCONN_WRITE_COMPLETE].
Proof.
  intros dir tx config batches t Hk He Hb Ho Hbd Hap Hl Hm Hr Hd Hn Hne Hdata.
  set (t0 := set_fctx t (create_buffers (fctx t) (input_nbytes t))).
  set (t1 := init dir tx config t0).
  assert (Hp0 : plain (fctx t0)).
  { split; [exact He|]. split; [simpl; rewrite Hb; reflexivity|exact Hl]. }
  destruct (init_plain dir tx config t0 Hp0 Hm)
    as (Hp1 & Hm1 & Hsame & Hn1 & Hd1 & Hr1 & Hu1).
  fold t1 in Hp1, Hm1, Hsame, Hn1, Hd1, Hr1, Hu1.
  destruct Hsame as (_ & Hob & Hrd & _ & _ & Hofs & Hbd1 & Hap1).
  simpl in Hob, Hrd, Hofs, Hbd1, Hap1, Hn1, Hd1, Hr1, Hu1.
  assert (Heq : calls false dir tx config batches t
                = calls true dir tx config batches t1).
  { destruct batches as [|batch rest]; [congruence|].
    cbn [calls]. f_equal. unfold t1. rewrite <- init_deliver. reflexivity. }
  rewrite Heq.
  destruct (calls_created dir tx config batches t1 Hk Hp1 Hm1)
    as (t' & Hrun & Hout & Hrd' & Hv & Hu); try assumption.
  - split.
    + rewrite Hofs, Hap1, Ho, Hap. reflexivity.
    + unfold emitted. rewrite Hob, Hbd1, Hofs, Hbd, Ho. reflexivity.
  - rewrite Hr1, Hr. reflexivity.
  - rewrite Hn1, Hd1, Hd, Hn. lia.
  - exists t'. split; [exact Hrun|].
    rewrite Hob, Hrd in Hout. simpl in Hout.
    split; [exact Hout|]. split; [exact Hrd'|].
    split; [rewrite Hv; unfold emitted; rewrite Hout; reflexivity|].
    rewrite Hu, Hu1. reflexivity.
Qed.

End Policy.

(** For witnesses: flags tested bit by bit, a configuration that buffers
    responses up to four bytes and flushes them whole beyond, and a
    transaction that inspects the response body. *)
Definition any_bit (flags check : Z) : bool := negb (Z.land flags check =? 0).

Definition all_bits (flags check : Z) : bool := Z.land flags check =? check.

Definition small_buffer : ib_core_cfg_t := mk_corecfg 1 1 (-1) 0 4 0.

Definition example_init (t : tsib_txn_ctx) : tsib_txn_ctx :=
  init 0 1 2 4 8 16 32 any_bit all_bits IBD_RESP (Some 16)
       (IB_OK, small_buffer) t.

Lemma buffer_init_policy_witness :
  buffering (fctx (example_init (start_txn IOBUF_NOBUF 0 [] [])))
    <> IOBUF_DISCARD /\
  (buffering (fctx (example_init (start_txn IOBUF_NOBUF 0 [] [])))
     = IOBUF_BUFFER_FLUSHALL \/
   buffering (fctx (example_init (start_txn IOBUF_NOBUF 0 [] [])))
     = IOBUF_BUFFER_FLUSHPART ->
   0 <= 4 /\
   buf_limit (fctx (example_init (start_txn IOBUF_NOBUF 0 [] []))) = 4) /\
  (buffering (fctx (example_init (start_txn IOBUF_NOBUF 0 [] [])))
     = IOBUF_BUFFER_ALL -> 4 < 0) /\
  (disabled 1 2 4 8 16 32 any_bit all_bits IBD_RESP 16 = true \/ 1 = 0 ->
   buffering (fctx (example_init (start_txn IOBUF_NOBUF 0 [] [])))
     = IOBUF_NOBUF) /\
  0 <= buf_limit (fctx (example_init (start_txn IOBUF_NOBUF 0 [] []))) < 2 ^ 64 /\
  same_stream (fctx (start_txn IOBUF_NOBUF 0 [] []))
              (fctx (example_init (start_txn IOBUF_NOBUF 0 [] []))) /\
  tx_log (example_init (start_txn IOBUF_NOBUF 0 [] [])) = [].
Proof.
  apply (buffer_init_policy 0 1 2 4 8 16 32 any_bit all_bits IBD_RESP 16
           small_buffer (start_txn IOBUF_NOBUF 0 [] [])).
  simpl. lia.
Defined.

Example example_init_mode :
  buffering (fctx (example_init (start_txn IOBUF_NOBUF 0 [] [])))
    = IOBUF_BUFFER_FLUSHALL /\
  buf_limit (fctx (example_init (start_txn IOBUF_NOBUF 0 [] []))) = 4.
Proof. split; reflexivity. Qed.

Lemma body_passes_through_calls_witness :
  exists t',
    calls 0 1 2 4 8 16 32 any_bit all_bits (@stable_qsort edit_t) no_rules
      false IBD_RESP (Some 16) (IB_OK, small_buffer)
      [[bytes_of "Hel"; bytes_of "lo"]; [bytes_of "World"]]
      (mk_txn (fresh_fctx IOBUF_NOBUF 0 []) 10 0 [] [] [])
    = Done (true, t') /\
    output_buffer (fctx t') = bytes_of "HelloWorld" /\
    reader (fctx t') = [] /\
    vio_nbytes (output_vio (fctx t')) = 10 /\
    upstream t' = [TS_EVENT_VCONN_WRITE_READY; TS_EVENT_VCONN_WRITE_COMPLETE].
Proof.
  apply (body_passes_through_calls 0 1 2 4 8 16 32 any_bit all_bits
           (@stable_qsort edit_t) no_rules IBD_RESP (Some 16)
           (IB_OK, small_buffer)
           [[bytes_of "Hel"; bytes_of "lo"]; [bytes_of "World"]]
           (mk_txn (fresh_fctx IOBUF_NOBUF 0 []) 10 0 [] [] [])).
  - intros buf. reflexivity.
  - reflexivity.
  - reflexivity.
  - reflexivity.
  - reflexivity.
  - reflexivity.
  - simpl. lia.
  - discriminate.
  - reflexivity.
  - reflexivity.
  - reflexivity.
  - discriminate.
  - repeat (apply Forall_cons; [discriminate|]). apply Forall_nil.
Defined.

End InitFacts.

(** * The RuleExt directive and the start of the rules module *)

Module RuleExtFacts.
Import Rules RulesFacts RulesInit ParserFacts.

Section Ext.
Variable ib_rule_t : Type.
Variable ib_operator_inst_t : Type.
Variable ib_action_inst_t : Type.
Variable ib_engine_t : Type.
Variable IB_ACTINST_FLAG_NONE : Z.
Variable FLAG_OP_OR : Z.
Variable ib_rule_create : ib_status_t * ib_rule_t.
Variable ib_rule_set_id : ib_rule_t -> cstr -> ib_status_t * ib_rule_t.
Variable ib_rule_update_flags : ib_rule_t -> Z -> Z -> ib_status_t * ib_rule_t.
Variable ib_action_inst_create :
  cstr -> option cstr -> Z -> ib_status_t * ib_action_inst_t.
Variable ib_rule_add_action :
  ib_rule_t -> ib_action_inst_t -> ib_rule_action_t -> ib_status_t * ib_rule_t.
Variable ib_rule_id : ib_rule_t -> option cstr.
Variable ib_lua_load_func :
  ib_engine_t -> cstr -> option cstr -> ib_status_t * ib_engine_t.
Variable ib_operator_register : ib_engine_t -> cstr -> ib_status_t * ib_engine_t.
Variable ib_operator_inst_create_in :
  ib_engine_t -> cstr -> option cstr -> Z -> ib_status_t * ib_operator_inst_t.
Variable set_data : ib_operator_inst_t -> option cstr -> ib_operator_inst_t.
Variable ib_rule_set_operator :
  ib_rule_t -> ib_operator_inst_t -> ib_status_t * ib_rule_t.
Variable ib_rule_register : ib_rule_t -> ib_rule_phase_t -> ib_status_t.

(** The directive on an engine whose memory pool never fails. *)
Definition rule_ext (ib : ib_engine_t) (file_name : option cstr)
    (mods : list cstr)
  : ib_status_t * ib_engine_t * option (ib_rule_t * ib_rule_phase_t) :=
  rules_ruleext_params ib_rule_t ib_operator_inst_t ib_action_inst_t
    ib_engine_t Some IB_ACTINST_FLAG_NONE FLAG_OP_OR ib_rule_create
    ib_rule_set_id ib_rule_update_flags ib_action_inst_create
    ib_rule_add_action ib_rule_id ib_lua_load_func ib_operator_register
    ib_operator_inst_create_in set_data ib_rule_set_operator ib_rule_register
    ib file_name mods.

(** The file name is that of a Lua rule. *)
Definition lua_rule (file_name : option cstr) : bool :=
  match file_name with
  | Some f => strncasecmp_eq f (cstr_of "lua:") 4
  | None => false
  end.

(** The RuleExt directive registers Lua rules only.  When it registers a
    rule, the file name starts with [lua:], in capital or small letters, the
    status is [IB_OK], and the phase is the one its last phase modifier
    names ([PHASE_NONE] without one).  When it registers none, the status
    is not [IB_OK]; and for a file name that is null or does not start with
    [lua:] nothing is loaded into the Lua state and no operator is
    registered: the engine is as it was. *)
Theorem rule_ext_takes_lua_rules_only :
  forall ib file_name mods,
    match rule_ext ib file_name mods with
    | (rc, ib', Some (rule, ph)) =>
        rc = IB_OK /\ lua_rule file_name = true /\
        ib_rule_register rule ph = IB_OK /\
        ph = last_phase mods PHASE_NONE
    | (rc, ib', None) =>
        rc <> IB_OK /\ (lua_rule file_name = false -> ib' = ib)
    end.
Proof.
  intros ib file_name mods. unfold rule_ext, rules_ruleext_params.
  destruct file_name as [file|]; [|split; [discriminate|reflexivity]].
  destruct ib_rule_create as [rc0 rule0].
  destruct (negb (ib_status_eqb rc0 IB_OK)) eqn:E0.
  { split; [intros ->; discriminate E0|reflexivity]. }
  set (rule1 := snd (ib_rule_update_flags rule0 FLAG_OP_OR IB_RULE_FLAG_EXTERNAL)).
  pose proof (parse_modifiers_phase ib_rule_t ib_action_inst_t
                IB_ACTINST_FLAG_NONE FLAG_OP_OR ib_rule_set_id
                ib_rule_update_flags ib_action_inst_create ib_rule_add_action
                mods rule1 PHASE_NONE) as Hph.
  unfold modifiers in Hph.
  destruct (parse_modifiers ib_rule_t Some ib_action_inst_t
              IB_ACTINST_FLAG_NONE FLAG_OP_OR ib_rule_set_id
              ib_rule_update_flags ib_action_inst_create ib_rule_add_action
              mods rule1 PHASE_NONE) as [[rc1 rule2] phase].
  destruct (negb (ib_status_eqb rc1 IB_OK)) eqn:E1.
  { split; [intros ->; discriminate E1|reflexivity]. }
  apply status_eqb_OK in E1. subst rc1.
  cbn [lua_rule].
  destruct (strncasecmp_eq file (cstr_of "lua:") 4);
    [|split; [discriminate|reflexivity]].
  destruct (stage_lua_rule ib_rule_t ib_operator_inst_t ib_engine_t ib_rule_id
              ib_lua_load_func ib_operator_register ib_operator_inst_create_in
              set_data ib_rule_set_operator ib file rule2)
    as [[rc2 ib1] rule3].
  destruct (negb (ib_status_eqb rc2 IB_OK)) eqn:E2.
  { split; [intros ->; discriminate E2|discriminate]. }
  destruct (negb (ib_status_eqb (ib_rule_register rule3 phase) IB_OK)) eqn:E3.
  { split; [intros H; rewrite H in E3; discriminate E3|discriminate]. }
  apply status_eqb_OK in E3.
  split; [reflexivity|]. split; [reflexivity|]. split; [exact E3|].
  eapply Hph. reflexivity.
Qed.

End Ext.

(** ** rules_init *)

Lemma strcpy_at_fits dst off src :
  (length (firstn off (str dst) ++ src) < cap dst)%nat ->
  strcpy_at dst off src = Some (mk_cbuf (cap dst) (firstn off (str dst) ++ src)).
Proof.
  intros H. unfold strcpy_at.
  destruct (Nat.ltb_spec (length (firstn off (str dst) ++ src)) (cap dst));
    [reflexivity|lia].
Qed.

Lemma strcat_fits dst src :
  (length (str dst) + length src < cap dst)%nat ->
  strcat dst src = Some (mk_cbuf (cap dst) (str dst ++ src)).
Proof.
  intros H. unfold strcat. rewrite strcpy_at_fits; rewrite firstn_all.
  - reflexivity.
  - rewrite length_app. exact H.
Qed.

Lemma strcat_overflow dst src :
  (cap dst <= length (str dst) + length src)%nat -> strcat dst src = None.
Proof.
  intros H. unfold strcat, strcpy_at. rewrite firstn_all, length_app.
  destruct (Nat.ltb_spec (length (str dst) + length src) (cap dst));
    [lia|reflexivity].
Qed.

(** The path of the file that [rules_init] loads. *)
Definition ffi_path (module_base_path : cstr) : cstr :=
  module_base_path ++ cstr_of "/" ++ ffi_file_name.

Lemma build_ffi_file_path_fits base :
  build_ffi_file_path base
  = Some (mk_cbuf (length (ffi_path base) + 1) (ffi_path base)).
Proof.
  unfold build_ffi_file_path, strcpy, malloc, ffi_path.
  rewrite strcpy_at_fits by (simpl; lia).
  cbn [then_ cap str firstn app].
  rewrite strcpy_at_fits
    by (cbn [cap str]; rewrite firstn_all, !length_app; simpl; lia).
  cbn [then_ cap str]. rewrite firstn_all.
  rewrite strcpy_at_fits
    by (cbn [cap str]; rewrite firstn_all, !length_app; simpl; lia).
  cbn [cap str]. rewrite firstn_all, <- app_assoc.
  f_equal. f_equal. rewrite !length_app. simpl. lia.
Qed.

(** [rules_init] builds the path of the file it loads in an array that is
    exactly as long as the path and its NUL: no [strcpy] writes outside it,
    whatever the base path of the configuration, and the path is the base
    path, a slash and [ironbee-ffi.lua].  It returns [IB_OK] exactly when
    [m] is not null and the Lua state, the configuration, the array, the
    load of that file and the two [require] all succeed; the status of
    [ib_lock_init] has no part in this: its failure is logged and the
    function goes on. *)
Theorem rules_init_outcome :
  forall c,
    exists r,
      rules_init c = Some r /\
      (init_status r = IB_OK <->
       m_null c = false /\ newstate_null c = false /\
       fst (module_config c) = IB_OK /\ malloc_null c = false /\
       load_eval c (ffi_path (snd (module_config c))) = IB_OK /\
       require_ironbee c = IB_OK /\ require_ffi c = IB_OK) /\
      (forall path, loaded_path r = Some path ->
                    path = ffi_path (snd (module_config c))) /\
      (lock_init c <> IB_OK ->
       In "Failed to initialize lua global lock."%string (init_log r)).
Proof.
  intros c. unfold rules_init.
  set (log0 := if negb (ib_status_eqb (lock_init c) IB_OK)
               then ["Failed to initialize lua global lock."%string] else []).
  assert (Hlog : lock_init c <> IB_OK ->
                 forall l, In "Failed to initialize lua global lock."%string
                              (log0 ++ l)).
  { intros H l. unfold log0. rewrite (status_neq _ H). left. reflexivity. }
  assert (Hlog0 : lock_init c <> IB_OK ->
                  In "Failed to initialize lua global lock."%string log0).
  { intros H. specialize (Hlog H []). rewrite app_nil_r in Hlog. exact Hlog. }
  destruct (m_null c) eqn:Em.
  { eexists. split; [reflexivity|]. cbn.
    split; [split; [discriminate|intros (H & _); discriminate H]|].
    split; [discriminate|exact Hlog0]. }
  destruct (newstate_null c) eqn:En.
  { eexists. split; [reflexivity|]. cbn.
    split; [split; [discriminate|intros (_ & H & _); discriminate H]|].
    split; [discriminate|auto]. }
  destruct (module_config c) as [rc base] eqn:Ec. cbn [fst snd].
  destruct (negb (ib_status_eqb rc IB_OK)) eqn:E1.
  { eexists. split; [reflexivity|]. cbn.
    split; [split; [intros ->; discriminate E1
                   |intros (_ & _ & -> & _); discriminate E1]|].
    split; [discriminate|auto]. }
  apply status_eqb_OK in E1. subst rc.
  destruct (malloc_null c) eqn:Ea.
  { eexists. split; [reflexivity|]. cbn.
    split; [split; [discriminate|intros (_ & _ & _ & H & _); discriminate H]|].
    split; [discriminate|exact Hlog0]. }
  rewrite build_ffi_file_path_fits. cbn [then_ str].
  destruct (negb (ib_status_eqb (load_eval c (ffi_path base)) IB_OK)) eqn:E2.
  { eexists. split; [reflexivity|]. cbn.
    split; [split; [intros H; rewrite H in E2; discriminate E2
                   |intros (_ & _ & _ & _ & H & _); rewrite H in E2;
                    discriminate E2]|].
    split; [intros path H; inversion H; reflexivity|auto]. }
  apply status_eqb_OK in E2.
  destruct (negb (ib_status_eqb (require_ironbee c) IB_OK)) eqn:E3.
  { eexists. split; [reflexivity|]. cbn.
    split; [split; [intros H; rewrite H in E3; discriminate E3
                   |intros (_ & _ & _ & _ & _ & H & _); rewrite H in E3;
                    discriminate E3]|].
    split; [intros path H; inversion H; reflexivity|auto]. }
  apply status_eqb_OK in E3.
  destruct (negb (ib_status_eqb (require_ffi c) IB_OK)) eqn:E4.
  { eexists. split; [reflexivity|]. cbn.
    split; [split; [intros H; rewrite H in E4; discriminate E4
                   |intros (_ & _ & _ & _ & _ & _ & H); rewrite H in E4;
                    discriminate E4]|].
    split; [intros path H; inversion H; reflexivity|auto]. }
  apply status_eqb_OK in E4.
  eexists. split; [reflexivity|]. cbn.
  split; [split; [intros _; auto 10|reflexivity]|].
  split; [intros path H; inversion H; reflexivity|exact Hlog0].
Qed.

End RuleExtFacts.

(** * The format of a log record of the engine manager *)

Module ManagerLogFacts.
Import Rules RulesInit RuleExtFacts ManagerLog.

(** ** The file name in a log record *)









(** ** The arrays of manager_logger_format *)

Lemma snprintf_fits dst size out :
  (0 < size <= cap dst)%nat ->
  snprintf dst size out = Some (mk_cbuf (cap dst) (firstn (size - 1) out)).
Proof.
  intros H. unfold snprintf.
  destruct (Nat.ltb_spec 0 size); [|lia].
  destruct (Nat.leb_spec size (cap dst)); [reflexivity|lia].
Qed.

Lemma length_pad_right w s : length (pad_right w s) = Nat.max w (length s).
Proof. unfold pad_right. rewrite length_app, repeat_length. lia. Qed.

(** The transaction id is short enough for [line_info[64]]. *)
Definition tx_fits (rec : ib_logger_rec_t) : Prop :=
  match rec_tx rec with
  | Some id => (length id <= 57)%nat
  | None => True
  end.

Lemma tx_line_info_fits id :
  (length id <= 57)%nat ->
  tx_line_info id = Some (mk_cbuf 64 (cstr_of "[tx:" ++ id ++ cstr_of "] ")).
Proof.
  intros H. unfold tx_line_info, strcpy.
  rewrite strcpy_at_fits by (simpl; lia). cbn [then_ firstn app cap str].
  rewrite strcat_fits by (cbn [cap str]; simpl; lia). cbn [then_ cap str].
  rewrite strcat_fits
    by (cbn [cap str]; rewrite length_app; simpl; lia).
  cbn [cap str]. rewrite <- app_assoc. reflexivity.
Qed.

Lemma tx_line_info_overflow id :
  (57 < length id)%nat -> tx_line_info id = None.
Proof.
  intros H. unfold tx_line_info, strcpy.
  rewrite strcpy_at_fits by (simpl; lia). cbn [then_ firstn app cap str].
  destruct (Nat.lt_ge_cases (4 + length id) 64) as [Hs|Hs].
  - rewrite strcat_fits by (cbn [cap str]; simpl; lia). cbn [then_].
    apply strcat_overflow. cbn [cap str]. rewrite length_app. simpl. lia.
  - rewrite strcat_overflow by (cbn [cap str]; simpl; lia). reflexivity.
Qed.

Section Fits.
Variable IB_LOG_DEBUG : Z.
Variable decimal : Z -> cstr.

Lemma file_line_info_fits file line_number :
  exists line_info,
    file_line_info decimal file line_number = Some line_info /\
    (length (str line_info) <= 34)%nat.
Proof.
  unfold file_line_info. rewrite snprintf_fits by (simpl; lia).
  eexists. split; [reflexivity|]. cbn [str].
  rewrite length_firstn. lia.
Qed.

(** [manager_logger_format] and its arrays, when an engine or none was
    found and the two [malloc] succeeded, for a level whose name has at
    most 29 characters and a message of at most [msg_sz] characters.  If
    the id of the transaction has at most 57 characters, or there is no
    transaction, no write falls outside [line_info] or the buffer of
    [msg_sz + 129] bytes: the function returns what
    [ib_manager_engine_acquire] returned, and the record holds the message
    behind a prefix of at most [fmt_pad_size] characters, with [msg_sz] the
    length of the whole.  With a longer id the [strcat] into
    [line_info[64]] write past its end. *)
Theorem format_fits_its_arrays :
  forall c rec msg_in msg_in_sz,
    engine_acquire c = IB_OK \/ engine_acquire c = IB_ENOENT ->
    record_null c = false -> msg_null c = false ->
    (length (level_string rec) <= 29)%nat ->
    (length msg_in <= msg_in_sz)%nat ->
    (tx_fits rec ->
     exists prefix,
       manager_logger_format IB_LOG_DEBUG decimal c rec msg_in msg_in_sz
       = Some (engine_acquire c,
               Some (mk_logger_record (prefix ++ msg_in)
                                      (length (prefix ++ msg_in))
                                      (rec_level rec))) /\
       (length prefix <= fmt_pad_size)%nat) /\
    (~ tx_fits rec ->
     manager_logger_format IB_LOG_DEBUG decimal c rec msg_in msg_in_sz = None).
Proof.
  intros c rec msg_in msg_in_sz Hrc Hrn Hmn Hlvl Hmsg.
  unfold manager_logger_format. rewrite Hrn, Hmn.
  set (logger_level :=
         if ib_status_eqb (engine_acquire c) IB_ENOENT
         then Some (manager_level c)
         else if ib_status_eqb (engine_acquire c) IB_OK
              then Some (engine_level c) else None).
  assert (Hll : exists l, logger_level = Some l).
  { unfold logger_level. destruct Hrc as [-> | ->]; simpl; eauto. }
  destruct Hll as (l & ->).
  set (bsz := (msg_in_sz + fmt_pad_size)%nat).
  assert (Hbsz : bsz = (msg_in_sz + 128)%nat) by reflexivity.
  rewrite snprintf_fits by (cbn [malloc cap]; lia).
  cbn [then_ malloc cap].
  set (s1 := firstn (bsz - 1) (pad_right 10 (level_string rec) ++ cstr_of "- ")).
  assert (H1 : (length s1 <= 31)%nat).
  { unfold s1. rewrite length_firstn, length_app, length_pad_right.
    change (length (cstr_of "- ")) with 2%nat. lia. }
  assert (Hfile : forall m2,
    cap m2 = (bsz + 1)%nat -> (length (str m2) <= 94)%nat ->
    exists m3,
      match rec_file rec with
      | Some file =>
          if (0 <? rec_line_number rec) && (IB_LOG_DEBUG <=? l)
          then then_ (file_line_info decimal file (rec_line_number rec))
                 (fun line_info => strcat m2 (str line_info))
          else Some m2
      | None => Some m2
      end = Some m3 /\
      cap m3 = (bsz + 1)%nat /\ (length (str m3) <= 128)%nat).
  { intros m2 Hc Hl.
    destruct (rec_file rec) as [file|]; [|exists m2; repeat split; [assumption|lia]].
    destruct ((0 <? rec_line_number rec) && (IB_LOG_DEBUG <=? l));
      [|exists m2; repeat split; [assumption|lia]].
    destruct (file_line_info_fits file (rec_line_number rec)) as (li & -> & Hli).
    cbn [then_]. rewrite strcat_fits by lia.
    eexists. split; [reflexivity|]. cbn [cap str].
    split; [exact Hc|]. rewrite length_app. lia. }
  assert (Hend : forall m2,
    cap m2 = (bsz + 1)%nat -> (length (str m2) <= 94)%nat ->
    exists prefix,
      then_ (match rec_file rec with
             | Some file =>
                 if (0 <? rec_line_number rec) && (IB_LOG_DEBUG <=? l)
                 then then_ (file_line_info decimal file (rec_line_number rec))
                        (fun line_info => strcat m2 (str line_info))
                 else Some m2
             | None => Some m2
             end)
        (fun m3 =>
           then_ (strcat m3 msg_in)
             (fun m4 =>
                Some (engine_acquire c,
                      Some (mk_logger_record (str m4) (length (str m4))
                                             (rec_level rec)))))
      = Some (engine_acquire c,
              Some (mk_logger_record (prefix ++ msg_in)
                                     (length (prefix ++ msg_in))
                                     (rec_level rec))) /\
      (length prefix <= fmt_pad_size)%nat).
  { intros m2 Hc Hl. destruct (Hfile m2 Hc Hl) as (m3 & -> & Hc3 & Hl3).
    cbn [then_]. rewrite strcat_fits by lia. cbn [then_ str].
    exists (str m3). split; [reflexivity|]. unfold fmt_pad_size. exact Hl3. }
  unfold tx_fits. split.
  - intros Htx. destruct (rec_tx rec) as [id|].
    + rewrite tx_line_info_fits by exact Htx. cbn [then_ str].
      rewrite strcat_fits
        by (cbn [cap str]; rewrite !length_app; simpl; lia).
      cbn [then_]. apply Hend; cbn [cap str]; [reflexivity|].
      rewrite !length_app. simpl. lia.
    + cbn [then_]. apply Hend; cbn [cap str]; [reflexivity|lia].
  - intros Htx. destruct (rec_tx rec) as [id|]; [|exfalso; apply Htx; exact I].
    rewrite tx_line_info_overflow by lia. reflexivity.
Qed.

End Fits.

(** A record of a transaction, at a level that shows the file. *)
Definition example_rec : ib_logger_rec_t :=
  mk_logger_rec 7 (cstr_of "DEBUG")
    (Some (cstr_of "0f1e2d3c-4b5a-6978-8796-a5b4c3d2e1f0"))
    (Some (cstr_of "../../engine/core.c")) 42.

Definition two_digits (z : Z) : cstr := cstr_of "42".

Definition example_calls : format_calls := mk_format_calls IB_OK 4 7 false false.

Example example_format :
  option_map (fun r => option_map (fun x => string_of_list_ascii (msg x)) (snd r))
    (manager_logger_format 7 two_digits example_calls example_rec
       (cstr_of "hello") 5)
  = Some (Some
      "DEBUG     - [tx:0f1e2d3c-4b5a-6978-8796-a5b4c3d2e1f0] (          engine/core.c:42   ) hello"%string).
Proof. vm_compute. reflexivity. Qed.

Lemma format_fits_its_arrays_witness :
  (tx_fits example_rec ->
   exists prefix,
     manager_logger_format 7 two_digits example_calls example_rec
       (cstr_of "hello") 5
     = Some (IB_OK,
             Some (mk_logger_record (prefix ++ cstr_of "hello")
                                    (length (prefix ++ cstr_of "hello")) 7)) /\
     (length prefix <= fmt_pad_size)%nat) /\
  (~ tx_fits example_rec ->
   manager_logger_format 7 two_digits example_calls example_rec
     (cstr_of "hello") 5 = None).
Proof.
  apply (format_fits_its_arrays 7 two_digits example_calls example_rec
           (cstr_of "hello") 5).
  - left. reflexivity.
  - reflexivity.
  - reflexivity.
  - simpl. lia.
  - simpl. lia.
Defined.

End ManagerLogFacts.

(** * The events of a transformation *)

Module EventFacts.
Import TsFilter TsFilterFacts.

Section Completion.
Variable ib_flags_all : Z -> Z -> bool.
Variable FREQ_FINISHED : Z.
Variable FRES_FINISHED : Z.
Variable FPOSTPROCESS : Z.
Variable FLOGGING : Z.
Variable ib_notify_end : Z -> Z.
Variable ib_notify_post : option (Z -> Z).
Variable ib_notify_log : option (Z -> Z).

Definition complete (dir : ib_server_direction_t) (flags : Z)
  : Z * list completion_call :=
  write_complete ib_flags_all FREQ_FINISHED FRES_FINISHED FPOSTPROCESS FLOGGING
    ib_notify_end ib_notify_post ib_notify_log dir flags.

Definition finished (dir : ib_server_direction_t) : Z :=
  match dir with
  | IBD_REQ => FREQ_FINISHED
  | IBD_RESP => FRES_FINISHED
  end.

(** What is taken of the engine: each notification sets its flag on the
    transaction, and no notification takes a flag away. *)
Definition sets_flag (notify : Z -> Z) (flag : Z) : Prop :=
  forall flags, ib_flags_all (notify flags) flag = true.

Definition keeps_flags (notify : Z -> Z) : Prop :=
  forall flags flag,
    ib_flags_all flags flag = true -> ib_flags_all (notify flags) flag = true.

Definition engine_marks (dir : ib_server_direction_t) : Prop :=
  sets_flag ib_notify_end (finished dir) /\ keeps_flags ib_notify_end /\
  (forall notify, ib_notify_post = Some notify ->
                  sets_flag notify FPOSTPROCESS /\ keeps_flags notify) /\
  (forall notify, ib_notify_log = Some notify ->
                  sets_flag notify FLOGGING /\ keeps_flags notify).

Lemma bool_neg (b : bool) : negb b = false -> b = true.
Proof. destruct b; [reflexivity|discriminate]. Qed.

(** After the calls of a write-complete event every flag they look at is
    set, and no call was made twice. *)
Lemma complete_marks dir flags :
  engine_marks dir ->
  ib_flags_all (fst (complete dir flags)) (finished dir) = true /\
  (ib_notify_post <> None ->
   ib_flags_all (fst (complete dir flags)) FPOSTPROCESS = true) /\
  (ib_notify_log <> None ->
   ib_flags_all (fst (complete dir flags)) FLOGGING = true) /\
  NoDup (snd (complete dir flags)).
Proof.
  intros (Hend & Hkend & Hpost & Hlog).
  unfold complete, write_complete. fold (finished dir).
  destruct (negb (ib_flags_all flags (finished dir))) eqn:E1;
    [pose proof (Hend flags) as H1|apply bool_neg in E1];
    (destruct ib_notify_post as [post|];
     [destruct (Hpost post eq_refl) as (Hsp & Hkp);
      match goal with
      | |- context [negb (ib_flags_all ?f FPOSTPROCESS)] =>
          destruct (negb (ib_flags_all f FPOSTPROCESS)) eqn:E2;
          [|apply bool_neg in E2]
      end|]);
    (destruct ib_notify_log as [lg|];
     [destruct (Hlog lg eq_refl) as (Hsl & Hkl);
      match goal with
      | |- context [negb (ib_flags_all ?f FLOGGING)] =>
          destruct (negb (ib_flags_all f FLOGGING)) eqn:E3;
          [|apply bool_neg in E3]
      end|]);
    cbn [fst snd]; repeat split; auto; try congruence;
    repeat constructor; simpl; intuition congruence.
Qed.

(** When the flags are set, a write-complete event shuts the output down
    and notifies nothing. *)
Lemma complete_idle dir flags :
  ib_flags_all flags (finished dir) = true ->
  (ib_notify_post <> None -> ib_flags_all flags FPOSTPROCESS = true) ->
  (ib_notify_log <> None -> ib_flags_all flags FLOGGING = true) ->
  complete dir flags = (flags, [TSVConnShutdown]).
Proof.
  intros H1 H2 H3. unfold complete, write_complete. fold (finished dir).
  rewrite H1. cbn [negb].
  destruct ib_notify_post as [post|].
  - rewrite H2 by discriminate. cbn [negb].
    destruct ib_notify_log as [lg|]; [|reflexivity].
    rewrite H3 by discriminate. reflexivity.
  - destruct ib_notify_log as [lg|]; [|reflexivity].
    rewrite H3 by discriminate. reflexivity.
Qed.

(** The rest of what [data_event] is given. *)
Variable FLUSH_ALL : Z.
Variable ALLOW_ALL : Z.
Variable ALLOW_REQUEST : Z.
Variable INSPECT_REQBODY : Z.
Variable INSPECT_REQHDR : Z.
Variable INSPECT_RESBODY : Z.
Variable INSPECT_RESHDR : Z.
Variable ib_flags_any : Z -> Z -> bool.
Variable qsort : (edit_t -> edit_t -> Z) -> list edit_t -> list edit_t.
Variable ib_notify_body : list byte -> list edit_t -> ib_status_t * list edit_t.

Definition on_event (event : received_event) (dir : ib_server_direction_t)
    (flags : Z) (created : bool) (config : ib_status_t * ib_core_cfg_t)
    (http_code in_buf_null : bool) (t : tsib_txn_ctx) : data_event_result :=
  data_event FLUSH_ALL ALLOW_ALL ALLOW_REQUEST INSPECT_REQBODY INSPECT_REQHDR
    INSPECT_RESBODY INSPECT_RESHDR ib_flags_any ib_flags_all qsort
    ib_notify_body FREQ_FINISHED FRES_FINISHED FPOSTPROCESS FLOGGING
    ib_notify_end ib_notify_post ib_notify_log false event dir flags created
    config http_code in_buf_null t.

(** On an engine that marks the transaction at each notification,
    [data_event] notifies the end of the request or response, the
    post-processing and the logging at most once: a write-complete event
    makes each call once at most and leaves the filter alone, and a second
    one, with the flags as the first left them, shuts the output down again
    and makes no call to the engine at all. *)
Theorem completion_is_notified_once :
  forall dir flags created config http_code in_buf_null t,
    engine_marks dir ->
    NoDup (completion_calls
             (on_event (Event TS_EVENT_VCONN_WRITE_COMPLETE) dir flags created
                       config http_code in_buf_null t)) /\
    data_after (on_event (Event TS_EVENT_VCONN_WRITE_COMPLETE) dir flags
                         created config http_code in_buf_null t)
      = Done (created, t) /\
    on_event (Event TS_EVENT_VCONN_WRITE_COMPLETE) dir
      (flags_after (on_event (Event TS_EVENT_VCONN_WRITE_COMPLETE) dir flags
                             created config http_code in_buf_null t))
      created config http_code in_buf_null t
    = mk_event_result
        (flags_after (on_event (Event TS_EVENT_VCONN_WRITE_COMPLETE) dir flags
                               created config http_code in_buf_null t))
        [TSVConnShutdown] (Done (created, t)).
Proof.
  intros dir flags created config http_code in_buf_null t Hm.
  unfold on_event, data_event. fold (complete dir flags).
  destruct (complete_marks dir flags Hm) as (H1 & H2 & H3 & Hnd).
  destruct (complete dir flags) as [flags1 calls] eqn:Ec.
  cbn [fst snd completion_calls data_after flags_after] in *.
  split; [exact Hnd|]. split; [reflexivity|].
  fold (complete dir flags1).
  rewrite (complete_idle dir flags1 H1 H2 H3). reflexivity.
Qed.

End Completion.

(** For a witness: flags as bits, and an engine that sets the bit of each
    notification it is given. *)
Definition all_bits (flags check : Z) : bool := Z.land flags check =? check.

Definition mark (flag flags : Z) : Z := Z.lor flags flag.

Lemma mark_sets flag : sets_flag all_bits (mark flag) flag.
Proof.
  intros flags. unfold all_bits, mark. apply Z.eqb_eq.
  apply Z.bits_inj'. intros n Hn.
  rewrite Z.land_spec, Z.lor_spec.
  destruct (Z.testbit flags n), (Z.testbit flag n); reflexivity.
Qed.

Lemma mark_keeps flag : keeps_flags all_bits (mark flag).
Proof.
  intros flags x H. unfold all_bits, mark in *. apply Z.eqb_eq in H.
  apply Z.eqb_eq. apply Z.bits_inj'. intros n Hn.
  apply (f_equal (fun z => Z.testbit z n)) in H.
  rewrite Z.land_spec in H. rewrite Z.land_spec, Z.lor_spec.
  destruct (Z.testbit flags n), (Z.testbit flag n), (Z.testbit x n);
    simpl in *; congruence.
Qed.

Definition example_event (flags : Z) : data_event_result :=
  on_event all_bits 1 2 4 8 (mark 2) (Some (mark 4)) None
    0 16 32 64 128 256 512 (fun f c => negb (Z.land f c =? 0))
    (@stable_qsort edit_t) no_rules
    (Event TS_EVENT_VCONN_WRITE_COMPLETE) IBD_RESP flags true
    (IB_OK, mk_corecfg 1 1 0 0 0 0) false false
    (start_txn IOBUF_NOBUF 0 [] []).

Lemma completion_is_notified_once_witness :
  NoDup (completion_calls (example_event 0)) /\
  data_after (example_event 0) = Done (true, start_txn IOBUF_NOBUF 0 [] []) /\
  example_event (flags_after (example_event 0))
  = mk_event_result (flags_after (example_event 0)) [TSVConnShutdown]
      (Done (true, start_txn IOBUF_NOBUF 0 [] [])).
Proof.
  apply (completion_is_notified_once all_bits 1 2 4 8 (mark 2) (Some (mark 4))
           None 0 16 32 64 128 256 512 (fun f c => negb (Z.land f c =? 0))
           (@stable_qsort edit_t) no_rules IBD_RESP 0 true
           (IB_OK, mk_corecfg 1 1 0 0 0 0) false false
           (start_txn IOBUF_NOBUF 0 [] [])).
  split; [apply mark_sets|]. split; [apply mark_keeps|].
  split.
  - intros notify H. inversion H; subst. split; [apply mark_sets|apply mark_keeps].
  - intros notify H. discriminate H.
Defined.

Example example_event_calls :
  completion_calls (example_event 0)
  = [TSVConnShutdown; ib_notify_end_call; ib_notify_post_call] /\
  flags_after (example_event 0) = 6.
Proof. split; reflexivity. Qed.

End EventFacts.
